(** * PageRank on Thrill's dataflow operators

    A shallow embedding of [examples/page_rank/page_rank.hpp] and
    [examples/page_rank/page_rank_run.cpp].

    - [size_t] and [PageId] are [N]; where the code can wrap around
      ([Max() + 1], [strtoul]) the reduction modulo 2^64 is written out.
    - [Rank] is [double]. The algorithms are written once over the
      arithmetic interface [RankArith] and read at two instances:
      [binary64] (IEEE 754 binary64, the kernel's primitive floats) to
      evaluate the code as it runs, and [rational] (exact arithmetic in
      [Qc]) for the algebraic properties, which hold up to rounding only.
    - A [DIA] is the list of the workers' local sequences. The operators of
      the Thrill library are not part of the sources at hand; they are
      modelled from the specification and marked as such.
    - A fatal error ([die], [die_unless], a key outside an index range)
      ends the run: fallible code returns [result].
    - Left out: the branches under [debug] (a constant [false]), the
      timing and log lines, the command line of [main], and the laziness of
      the operators, which changes when a result is computed, not what it
      is. *)

From Stdlib Require Import Ascii String DecimalString DecimalN DecimalPos.
From Stdlib Require Import NArith ZArith PArith Lia Lqa Bool Morphisms.
From Stdlib Require Import QArith Qcanon Floats.
From Stdlib Require Import List Permutation.
Import ListNotations.

Set Implicit Arguments.
Close Scope Qc_scope.
Close Scope Q_scope.
Open Scope nat_scope.

(** ** Fatal errors *)

(** The ways a run ends abnormally: [die_unless] of the line parser, [die]
    on the page count of the generated modes, a key outside the range of an
    index operator (spec section 7), and Zip on collections of different
    sizes. *)
Inductive Fatal : Type :=
| InputFormatError
| PageCountError
| KeyRangeViolation
| ZipSizeMismatch.

(** What fallible code returns: its value, or the fatal error that ended
    the run. *)
Inductive result (A : Type) : Type :=
| Ok (a : A)
| Die (e : Fatal).

Arguments Ok {A} a.
Arguments Die {A} e.

Definition bind {A B : Type} (r : result A) (k : A -> result B) : result B :=
  match r with
  | Ok a => k a
  | Die e => Die e
  end.

Notation "x <- r ;; k" := (bind r (fun x => k))
  (at level 61, r at next level, right associativity).

(** ** Rank arithmetic *)

(** The operations the code applies to a [double]. *)
Class RankArith (Rank : Type) : Type := {
  rk0 : Rank;
  rk1 : Rank;
  rk_add : Rank -> Rank -> Rank;
  rk_sub : Rank -> Rank -> Rank;
  rk_mul : Rank -> Rank -> Rank;
  rk_div : Rank -> Rank -> Rank;
  (** [static_cast<double>(size_t)] *)
  rk_of_size : N -> Rank;
  (** [static constexpr double dampening = 0.85] *)
  dampening : Rank
}.

Declare Scope rank_scope.
Delimit Scope rank_scope with rk.
Infix "+" := rk_add : rank_scope.
Infix "-" := rk_sub : rank_scope.
Infix "*" := rk_mul : rank_scope.
Infix "/" := rk_div : rank_scope.

(** The machine's arithmetic: [0x1.b333333333333p-1] is the binary64 value
    nearest to 0.85, the one a C++ compiler stores for the literal. *)
#[export] Instance binary64 : RankArith float := {
  rk0 := 0%float;
  rk1 := 1%float;
  rk_add := PrimFloat.add;
  rk_sub := PrimFloat.sub;
  rk_mul := PrimFloat.mul;
  rk_div := PrimFloat.div;
  rk_of_size := fun n => SF2Prim (binary_normalize prec emax (Z.of_N n) 0 false);
  dampening := 0x1.b333333333333p-1%float
}.

(** Exact arithmetic: the same expressions without rounding. *)
#[export] Instance rational : RankArith Qc := {
  rk0 := Q2Qc 0;
  rk1 := Q2Qc 1;
  rk_add := Qcplus;
  rk_sub := Qcminus;
  rk_mul := Qcmult;
  rk_div := Qcdiv;
  rk_of_size := fun n => Q2Qc (inject_Z (Z.of_N n));
  dampening := Q2Qc (85 # 100)
}.

(** ** The data model of page_rank.hpp *)

Definition PageId : Type := N.

(** The largest [size_t] / [unsigned long] (LP64). *)
Definition SIZE_MAX : N := 18446744073709551615.

(** Unsigned arithmetic wraps modulo 2^64. *)
Definition wrap (n : N) : N := (n mod (SIZE_MAX + 1))%N.

(** A pair (page source, page target) *)
Record PagePageLink : Type := { src : PageId; tgt : PageId }.

(** A pair (page, rank) *)
Record PageRankPair (Rank : Type) : Type := { page : PageId; rank : Rank }.

Arguments page {Rank} p.
Arguments rank {Rank} p.

Definition PageRankStdPair (Rank : Type) : Type := (PageId * Rank)%type.
Definition OutgoingLinks : Type := list PageId.
Definition OutgoingLinksRank (Rank : Type) : Type := (OutgoingLinks * Rank)%type.
Definition LinkedPage : Type := (PageId * OutgoingLinks)%type.
Definition RankedPage (Rank : Type) : Type := (PageId * Rank)%type.

(** ** Distributed collections *)

(** [api::Context]: the number of workers (at least one) and the hash that
    places a key on a worker when a collection is shuffled. *)
Record Context : Type := {
  num_workers : positive;
  hash : PageId -> N
}.

Definition nworkers (ctx : Context) : nat := Pos.to_nat (num_workers ctx).

Definition workers (ctx : Context) : list nat := seq 0 (nworkers ctx).

(** A DIA: one local sequence per worker. *)
Definition DIA (A : Type) : Type := list (list A).

Definition local {A : Type} (d : DIA A) (w : nat) : list A := nth w d [].

(** The records of a DIA, worker after worker. *)
Definition items {A : Type} (ctx : Context) (d : DIA A) : list A :=
  flat_map (local d) (workers ctx).

(** The index numbers [0 .. n-1]. *)
Definition indices (n : N) : list N := map N.of_nat (seq 0 (N.to_nat n)).

(** Modelled from the spec: the placement of an index-ordered collection.
    The spec (section 5) says that each index is assigned to exactly one
    partition by range; the bounds are not given. Here worker [w] of [W]
    holds the indices from [w * n / W] up to [(w + 1) * n / W]. *)
Definition range_lo (n W w : nat) : nat := w * n / W.

(** Modelled from the spec: an index-ordered sequence cut into the
    workers' ranges. *)
Definition range_split {A : Type} (ctx : Context) (l : list A) : DIA A :=
  map (fun w =>
         let lo := range_lo (length l) (nworkers ctx) w in
         let hi := range_lo (length l) (nworkers ctx) (S w) in
         firstn (hi - lo) (skipn lo l))
      (workers ctx).

(** Modelled from the spec: the worker a key is shuffled to,
    [hash(key) mod numWorkers] (section 4.3). *)
Definition dest (ctx : Context) (k : PageId) : nat :=
  N.to_nat (hash ctx k mod N.pos (num_workers ctx)).

(** Modelled from the spec: the shuffle of a hash-partitioned operator,
    [hash(key) mod numWorkers] (section 4.3). Workers send in rank order. *)
Definition shuffle {A : Type} (ctx : Context) (key : A -> PageId) (d : DIA A)
  : DIA A :=
  map (fun w => filter (fun x => Nat.eqb (dest ctx (key x)) w) (items ctx d))
      (workers ctx).

(** ** Operators without repartitioning *)

(** Modelled from the spec: Generate, the collection of [f i] for the index
    numbers [i] below [size], in index order. *)
Definition Generate {A : Type} (ctx : Context) (size : N) (f : N -> A) : DIA A :=
  range_split ctx (map f (indices size)).

(** Modelled from the spec: Map, a per-record transform. *)
Definition Map {A B : Type} (f : A -> B) (d : DIA A) : DIA B :=
  map (map f) d.

(** Modelled from the spec: FlatMap; [f] returns what it emits, in order. *)
Definition FlatMap {A B : Type} (f : A -> list B) (d : DIA A) : DIA B :=
  map (flat_map f) d.

(** Modelled from the spec: Collapse; like Cache, Keep and Execute it does
    not change the records (section 4.1: collections are immutable). *)
Definition Collapse {A : Type} (d : DIA A) : DIA A := d.

(** Modelled from the spec: Zip, a transform of index-aligned pairs
    (section 4.4: the two collections are index-aligned one-to-one). The
    spec states no result for collections of different sizes: here such a
    Zip ends the run, which the spec neither asks for nor excludes, and in
    [PageRank] with one list of links per page the sizes always agree. *)
Definition Zip {A B C : Type} (ctx : Context) (f : A -> B -> C)
  (d1 : DIA A) (d2 : DIA B) : result (DIA C) :=
  let a := items ctx d1 in
  let b := items ctx d2 in
  if Nat.eqb (length a) (length b)
  then Ok (range_split ctx (map (fun p => f (fst p) (snd p)) (combine a b)))
  else Die ZipSizeMismatch.

(** Modelled from the spec: ZipWithIndex, every record with its global
    index number. The function takes the record first and the index
    second, as the lambda of [RunPageRankEdgePerLine] does, whose
    parameter types [(const Rank&, const PageId&)] fit a [DIA<Rank>]. *)
Definition ZipWithIndex {A B : Type} (ctx : Context) (f : A -> N -> B)
  (d : DIA A) : DIA B :=
  let a := items ctx d in
  range_split ctx
    (map (fun p => f (fst p) (snd p)) (combine a (indices (N.of_nat (length a))))).

(** ** Keyed operators *)

(** Modelled from the spec: the fold of one index slot of ReduceToIndex,
    the records that arrived combined in arrival order, the neutral element
    where none arrived. *)
Definition reduce_slot {V : Type} (reduce_function : V -> V -> V) (neutral : V)
  (xs : list V) : V :=
  match xs with
  | [] => neutral
  | x :: rest => fold_left reduce_function rest x
  end.

(** Modelled from the spec: ReduceToIndex (section 4.2). Every record is
    mapped to an index below [size]; the records sharing an index are
    folded; the result holds exactly [size] records ordered by index, the
    neutral element at an index that received nothing. A key outside the
    range is fatal (section 7). *)
Definition ReduceToIndex {V : Type} (ctx : Context) (key : V -> N)
  (reduce_function : V -> V -> V) (size : N) (neutral : V) (d : DIA V)
  : result (DIA V) :=
  let xs := items ctx d in
  if forallb (fun x => N.ltb (key x) size) xs
  then Ok (range_split ctx
             (map (fun i => reduce_slot reduce_function neutral
                              (filter (fun x => N.eqb (key x) i) xs))
                  (indices size)))
  else Die KeyRangeViolation.

(** Modelled from the spec: GroupToIndex (section 4.2). As ReduceToIndex,
    but the records of an index are handed to [group] as one sequence, in
    arrival order. *)
Definition GroupToIndex {A B : Type} (ctx : Context) (key : A -> N)
  (group : list A -> N -> B) (size : N) (neutral : B) (d : DIA A)
  : result (DIA B) :=
  let xs := items ctx d in
  if forallb (fun x => N.ltb (key x) size) xs
  then Ok (range_split ctx
             (map (fun i => match filter (fun x => N.eqb (key x) i) xs with
                            | [] => neutral
                            | g => group g i
                            end)
                  (indices size)))
  else Die KeyRangeViolation.

(** Modelled from the spec: the table a worker folds its share of a
    ReducePair into; a key seen before has its value combined, a new key is
    appended. *)
Fixpoint reduce_insert {V : Type} (reduce_function : V -> V -> V)
  (k : PageId) (v : V) (table : list (PageId * V)) : list (PageId * V) :=
  match table with
  | [] => [(k, v)]
  | (k', v') :: t =>
      if N.eqb k' k then (k', reduce_function v' v) :: t
      else (k', v') :: reduce_insert reduce_function k v t
  end.

(** Modelled from the spec: what a worker's share of a ReducePair folds
    to, the pairs taken in arrival order. *)
Definition reduce_local {V : Type} (reduce_function : V -> V -> V)
  (xs : list (PageId * V)) : list (PageId * V) :=
  fold_left (fun table kv => reduce_insert reduce_function (fst kv) (snd kv) table)
            xs [].

(** Modelled from the spec: ReducePair (section 4.2). The pairs are
    hash-partitioned by their key and the values of a key folded; a key
    absent from the input is absent from the output. *)
Definition ReducePair {V : Type} (ctx : Context) (reduce_function : V -> V -> V)
  (d : DIA (PageId * V)) : DIA (PageId * V) :=
  map (reduce_local reduce_function) (shuffle ctx fst d).

(** Modelled from the spec: the keys a worker groups by, each once, in
    order of first occurrence. *)
Fixpoint distinct (ks : list PageId) : list PageId :=
  match ks with
  | [] => []
  | k :: t => k :: filter (fun k' => negb (N.eqb k' k)) (distinct t)
  end.

(** Modelled from the spec: what a worker's share of a GroupByKey yields,
    [group] called once per key with the key's records in arrival order. *)
Definition group_local {A B : Type} (key : A -> PageId)
  (group : list A -> PageId -> B) (xs : list A) : list B :=
  map (fun k => group (filter (fun x => N.eqb (key x) k) xs) k)
      (distinct (map key xs)).

(** Modelled from the spec: GroupByKey, the grouping of GroupToIndex over
    keys that are hash-partitioned as in ReducePair: one output record per
    key that occurs. *)
Definition GroupByKey {A B : Type} (ctx : Context) (key : A -> PageId)
  (group : list A -> PageId -> B) (d : DIA A) : DIA B :=
  map (group_local key group) (shuffle ctx key d).

(** Modelled from the spec: Max, a terminal action, the largest record of
    the collection. The spec states no result for an empty collection:
    the 0 returned here is a choice of this definition. *)
Definition Max (ctx : Context) (d : DIA N) : N :=
  fold_left N.max (items ctx d) 0%N.

(** ** InnerJoin with location detection *)

(** Modelled from the spec: the join of two local sequences, one output
    per matching pair, in the product order of the two sides
    (section 4.3). *)
Definition join_local {A B C : Type} (key1 : A -> PageId) (key2 : B -> PageId)
  (join_function : A -> B -> C) (ls : list A) (rs : list B) : list C :=
  flat_map (fun l =>
              flat_map (fun r => if N.eqb (key1 l) (key2 r)
                                 then [join_function l r] else [])
                       rs)
           ls.

(** Modelled from the spec: where the keys of a collection reside,
    (worker, key) per record. *)
Definition placed {A : Type} (ctx : Context) (key : A -> PageId) (d : DIA A)
  : list (nat * PageId) :=
  flat_map (fun w => map (fun x => (w, key x)) (local d w)) (workers ctx).

(** Modelled from the spec: the check of location detection, that all
    records sharing a key, of either side, reside on the same worker
    (section 4.3). *)
Definition co_partitioned {A B : Type} (ctx : Context)
  (key1 : A -> PageId) (key2 : B -> PageId) (d1 : DIA A) (d2 : DIA B) : bool :=
  let ps := placed ctx key1 d1 ++ placed ctx key2 d2 in
  forallb (fun p =>
             forallb (fun q => implb (N.eqb (snd p) (snd q))
                                     (Nat.eqb (fst p) (fst q)))
                     ps)
          ps.

(** Modelled from the spec: InnerJoin (section 4.3). With the flag set and
    both sides placed so that the records sharing a key reside on one
    worker, every worker joins its two local sequences; otherwise both
    sides are shuffled by [hash(key) mod numWorkers] and then joined
    locally per worker. *)
Definition InnerJoin {A B C : Type} (ctx : Context)
  (UseLocationDetection : bool) (d1 : DIA A) (d2 : DIA B)
  (key1 : A -> PageId) (key2 : B -> PageId) (join_function : A -> B -> C)
  : DIA C :=
  if UseLocationDetection && co_partitioned ctx key1 key2 d1 d2
  then map (fun w => join_local key1 key2 join_function (local d1 w) (local d2 w))
           (workers ctx)
  else
    let s1 := shuffle ctx key1 d1 in
    let s2 := shuffle ctx key2 d2 in
    map (fun w => join_local key1 key2 join_function (local s1 w) (local s2 w))
        (workers ctx).

(** ** page_rank.hpp *)

(** A value together with the divisors of the divisions [rank / out-degree]
    that were evaluated to compute it, in the order of evaluation. *)
Definition Observed (A : Type) : Type := (list N * A)%type.

(** Modelled from the spec: FlatMap with a function whose divisions are
    observed. The function is called once per record, worker after worker;
    the result holds the divisors of all calls and the records emitted. *)
Definition FlatMap_observed {A B : Type} (ctx : Context)
  (f : A -> Observed (list B)) (d : DIA A) : Observed (DIA B) :=
  (flat_map (fun x => fst (f x)) (items ctx d), FlatMap (fun x => snd (f x)) d).

Section PageRankAlgorithms.

Context {Rank : Type} {RA : RankArith Rank}.

Local Open Scope rank_scope.

(** [p.second / static_cast<double>(p.first.size())] with the division
    observed: the divisor, as the [size()] that is cast to [double], and
    the quotient. *)
Definition divide_by_size (r : Rank) (size : N) : Observed Rank :=
  ([size], r / rk_of_size size).

(** The FlatMap lambda of [PageRank], statement by statement: it returns
    at once for an empty list of links; else it divides the rank by the
    number of links and emits the quotient once per target. *)
Definition contributions_observed (p : OutgoingLinksRank Rank)
  : Observed (list (PageRankPair Rank)) :=
  if N.eqb (N.of_nat (length (fst p))) 0 then ([], [])
  else
    let rank_contrib := divide_by_size (snd p) (N.of_nat (length (fst p))) in
    (fst rank_contrib,
     map (fun tgt => {| page := tgt; rank := snd rank_contrib |}) (fst p)).

(** What the FlatMap lambda of [PageRank] emits. *)
Definition contributions (p : OutgoingLinksRank Rank) : list (PageRankPair Rank) :=
  snd (contributions_observed p).

(** The FlatMap lambda of [PageRankJoinSelf] and of [PageRankJoin],
    statement by statement: the division and the loop are under the guard
    [p.first.size() > 0]. *)
Definition join_contributions_observed (p : OutgoingLinksRank Rank)
  : Observed (list (PageRankStdPair Rank)) :=
  if N.ltb 0 (N.of_nat (length (fst p)))
  then
    let rank_contrib := divide_by_size (snd p) (N.of_nat (length (fst p))) in
    (fst rank_contrib, map (fun tgt => (tgt, snd rank_contrib)) (fst p))
  else ([], []).

(** What the FlatMap lambda of the join variants emits. *)
Definition join_contributions (p : OutgoingLinksRank Rank)
  : list (PageRankStdPair Rank) :=
  snd (join_contributions_observed p).

(** The Map lambda after ReduceToIndex in [PageRank]. *)
Definition dampen_index (num_pages_d : Rank) (p : PageRankPair Rank) : Rank :=
  dampening * rank p + (rk1 - dampening) / num_pages_d.

(** The Map lambda after ReducePair in [PageRankJoin]. *)
Definition dampen_join (num_pages_d : Rank) (p : PageRankStdPair Rank)
  : RankedPage Rank :=
  (fst p, dampening * snd p + (rk1 - dampening) / num_pages_d).

(** The Map lambda after ReducePair in [PageRankJoinSelf]. *)
Definition dampen_self (p : PageRankStdPair Rank) : RankedPage Rank :=
  (fst p, dampening * snd p + (rk1 - dampening)).

(** One round of the loop of [PageRank]. The neutral element of
    ReduceToIndex is the value-initialised [PageRankPair]. *)
Definition PageRank_iteration (ctx : Context) (links : DIA OutgoingLinks)
  (num_pages : N) (ranks : DIA Rank) : result (DIA Rank) :=
  let num_pages_d := rk_of_size num_pages in
  outs_rank <- Zip ctx (fun ol r => (ol, r)) links ranks ;;
  let contribs := FlatMap contributions outs_rank in
  reduced <- ReduceToIndex ctx (fun p => page p)
               (fun p1 p2 => {| page := page p1; rank := rank p1 + rank p2 |})
               num_pages {| page := 0%N; rank := rk0 |} contribs ;;
  Ok (Collapse (Map (dampen_index num_pages_d) reduced)).

(** [PageRank]: the ranks start at [1 / num_pages]; the loop runs
    [iterations] rounds, or ends with the first fatal error. *)
Definition PageRank (ctx : Context) (links : DIA OutgoingLinks)
  (num_pages : N) (iterations : N) : result (DIA Rank) :=
  let num_pages_d := rk_of_size num_pages in
  let ranks := Collapse (Generate ctx num_pages (fun _ => rk1 / num_pages_d)) in
  N.iter iterations
         (fun r => ranks <- r ;; PageRank_iteration ctx links num_pages ranks)
         (Ok ranks).

(** One round of the loop of [PageRankJoinSelf]; the timing line written to
    the console is left out. *)
Definition PageRankJoinSelf_iteration (ctx : Context)
  (UseLocationDetection : bool) (links : DIA LinkedPage)
  (ranks : DIA (RankedPage Rank)) : DIA (RankedPage Rank) :=
  let outs_rank :=
    InnerJoin ctx UseLocationDetection links ranks
              (fun lp : LinkedPage => fst lp)
              (fun rp : RankedPage Rank => fst rp)
              (fun lp rp => (snd lp, snd rp)) in
  let contribs := FlatMap join_contributions outs_rank in
  Collapse (Map dampen_self (ReducePair ctx rk_add contribs)).

(** [PageRankJoinSelf]: every page of [links] starts at rank 1. *)
Definition PageRankJoinSelf (ctx : Context) (UseLocationDetection : bool)
  (links : DIA LinkedPage) (iterations : N) : DIA (RankedPage Rank) :=
  let ranks := Map (fun lp : LinkedPage => (fst lp, rk1)) links in
  N.iter iterations (PageRankJoinSelf_iteration ctx UseLocationDetection links)
         ranks.

(** One round of the loop of [PageRankJoin]. *)
Definition PageRankJoin_iteration (ctx : Context)
  (UseLocationDetection : bool) (links : DIA LinkedPage) (num_pages : N)
  (ranks : DIA (RankedPage Rank)) : DIA (RankedPage Rank) :=
  let num_pages_d := rk_of_size num_pages in
  let outs_rank :=
    InnerJoin ctx UseLocationDetection links ranks
              (fun lp : LinkedPage => fst lp)
              (fun rp : RankedPage Rank => fst rp)
              (fun lp rp => (snd lp, snd rp)) in
  let contribs := FlatMap join_contributions outs_rank in
  Collapse (Map (dampen_join num_pages_d) (ReducePair ctx rk_add contribs)).

(** [PageRankJoin]: the pages [0 .. num_pages - 1] start at
    [1 / num_pages]. *)
Definition PageRankJoin (ctx : Context) (UseLocationDetection : bool)
  (links : DIA LinkedPage) (num_pages : N) (iterations : N)
  : DIA (RankedPage Rank) :=
  let num_pages_d := rk_of_size num_pages in
  let ranks :=
    Collapse (Generate ctx num_pages (fun idx => (idx, rk1 / num_pages_d))) in
  N.iter iterations
         (PageRankJoin_iteration ctx UseLocationDetection links num_pages)
         ranks.

(** The contribution stage of a round of [PageRank], Zip and then FlatMap,
    with the divisions of the FlatMap lambda observed. *)
Definition PageRank_contribs (ctx : Context) (links : DIA OutgoingLinks)
  (ranks : DIA Rank) : result (Observed (DIA (PageRankPair Rank))) :=
  outs_rank <- Zip ctx (fun ol r => (ol, r)) links ranks ;;
  Ok (FlatMap_observed ctx contributions_observed outs_rank).

(** The contribution stage of a round of [PageRankJoinSelf], InnerJoin and
    then FlatMap, with the divisions of the FlatMap lambda observed. *)
Definition PageRankJoinSelf_contribs (ctx : Context) (UseLocationDetection : bool)
  (links : DIA LinkedPage) (ranks : DIA (RankedPage Rank))
  : Observed (DIA (PageRankStdPair Rank)) :=
  let outs_rank :=
    InnerJoin ctx UseLocationDetection links ranks
              (fun lp : LinkedPage => fst lp)
              (fun rp : RankedPage Rank => fst rp)
              (fun lp rp => (snd lp, snd rp)) in
  FlatMap_observed ctx join_contributions_observed outs_rank.

(** The contribution stage of a round of [PageRankJoin]. *)
Definition PageRankJoin_contribs (ctx : Context) (UseLocationDetection : bool)
  (links : DIA LinkedPage) (ranks : DIA (RankedPage Rank))
  : Observed (DIA (PageRankStdPair Rank)) :=
  let outs_rank :=
    InnerJoin ctx UseLocationDetection links ranks
              (fun lp : LinkedPage => fst lp)
              (fun rp : RankedPage Rank => fst rp)
              (fun lp rp => (snd lp, snd rp)) in
  FlatMap_observed ctx join_contributions_observed outs_rank.

End PageRankAlgorithms.

(** ** page_rank_run.cpp: the line parser *)

Definition isspace (c : ascii) : bool :=
  let n := N_of_ascii c in
  N.eqb n 32 || (N.leb 9 n && N.leb n 13).

Definition digit_value (c : ascii) : option N :=
  let n := N_of_ascii c in
  if N.leb 48 n && N.leb n 57 then Some (n - 48)%N else None.

Fixpoint skip_spaces (s : string) : string :=
  match s with
  | String c t => if isspace c then skip_spaces t else s
  | EmptyString => s
  end.

(** The digits at the head of [s], read in base 10 onto [acc], and what
    follows them. *)
Fixpoint scan_digits (acc : N) (s : string) : N * string :=
  match s with
  | String c t =>
      match digit_value c with
      | Some d => scan_digits (acc * 10 + d)%N t
      | None => (acc, s)
      end
  | EmptyString => (acc, s)
  end.

Definition starts_with_digit (s : string) : bool :=
  match s with
  | String c _ => match digit_value c with Some _ => true | None => false end
  | EmptyString => false
  end.

(** [std::strtoul(nptr, &endptr, 10)] of the C library, returning the value
    and [endptr]: white space is skipped, a sign is accepted, a value out
    of range yields [ULONG_MAX], a minus sign negates in [unsigned long],
    and without any digit the value is 0 and [endptr] is [nptr]. *)
Definition strtoul (nptr : string) : N * string :=
  let s := skip_spaces nptr in
  let signed :=
    match s with
    | String "-"%char t => (true, t)
    | String "+"%char t => (false, t)
    | _ => (false, s)
    end in
  if starts_with_digit (snd signed)
  then
    let scanned := scan_digits 0 (snd signed) in
    let v := fst scanned in
    (if N.leb v SIZE_MAX
     then (if fst signed then wrap (SIZE_MAX + 1 - v) else v)
     else SIZE_MAX,
     snd scanned)
  else (0%N, nptr).

(** [std::string::c_str]: the characters up to the first NUL. *)
Fixpoint c_str (s : string) : string :=
  match s with
  | EmptyString => EmptyString
  | String c t => if N.eqb (N_of_ascii c) 0 then EmptyString else String c (c_str t)
  end.

(** [PageRankLineParser::operator()]; either [die_unless] ends the run. *)
Definition PageRankLineParser (input : string) : result PagePageLink :=
  let first := strtoul (c_str input) in
  match snd first with
  | String " "%char rest =>
      let second := strtoul rest in
      match snd second with
      | EmptyString => Ok {| src := fst first; tgt := fst second |}
      | String _ _ => Die InputFormatError
      end
  | _ => Die InputFormatError
  end.

(** ** page_rank_run.cpp: the four runs *)

(** A function that can end the run, applied along a sequence: the first
    fatal error ends it. *)
Fixpoint map_result {A B : Type} (f : A -> result B) (l : list A)
  : result (list B) :=
  match l with
  | [] => Ok []
  | x :: t => y <- f x ;; ys <- map_result f t ;; Ok (y :: ys)
  end.

(** [Map] over a collection with a function that can end the run. *)
Definition MapDie {A B : Type} (f : A -> result B) (d : DIA A) : result (DIA B) :=
  map_result (map_result f) d.

(** [%zu] and [std::to_string(size_t)]: the decimal numeral. *)
Definition to_string_size (n : N) : string :=
  NilZero.string_of_uint (N.to_uint n).

(** What the run uses and the sources at hand do not hold: the formatting
    of a [double] ([%g] of printf, [std::to_string]), the conversion of a
    [double] to [size_t], [common::from_str<size_t>], the random engine and
    the graph generator of [zipf_graph_gen.hpp]. *)
Class Externals (Rank : Type) : Type := {
  format_g : Rank -> string;
  to_string_double : Rank -> string;
  size_of_double : Rank -> N;
  from_str : string -> option N;
  (** [std::default_random_engine] and its construction from a seed *)
  Engine : Type;
  seed_engine : N -> Engine;
  ZipfGraphGen : Type;
  (** [ZipfGraphGen(base_graph_gen, num_pages)] *)
  ZipfGraphGen_for : ZipfGraphGen -> N -> ZipfGraphGen;
  (** [graph_gen.GenerateOutgoing(rng)]: the links and the state left behind *)
  GenerateOutgoing : ZipfGraphGen * Engine -> OutgoingLinks * (ZipfGraphGen * Engine)
}.

(** A generator function with captured state: the calls thread it. *)
Fixpoint generate_with {S A : Type} (f : S -> N -> A * S) (s : S)
  (idxs : list N) : list A :=
  match idxs with
  | [] => []
  | i :: t => fst (f s i) :: generate_with f (snd (f s i)) t
  end.

(** Modelled from the spec: Generate with a [mutable] generator function.
    Every worker owns a copy of the function, with the state it was created
    with on that worker, and calls it on its index numbers in order. *)
Definition GenerateMutable {S A : Type} (ctx : Context) (size : N)
  (init : nat -> S) (f : S -> N -> A * S) : DIA A :=
  map (fun w => generate_with f (init w) (local (range_split ctx (indices size)) w))
      (workers ctx).

Section Runs.

Context {Rank : Type} {RA : RankArith Rank} {EX : Externals Rank}.

Local Open Scope string_scope.

(** [tlx::ssprintf("%zu: %g", p, r)] *)
Definition ssprintf_zu_g (p : N) (r : Rank) : string :=
  to_string_size p ++ ": " ++ format_g r.

(** [num_pages] of [RunPageRankEdgePerLine]: [Max() + 1] in [size_t]. *)
Definition edge_num_pages (ctx : Context) (input : DIA PagePageLink) : N :=
  wrap (Max ctx (Map (fun ppl => N.max (src ppl) (tgt ppl)) input) + 1).

(** [links] of [RunPageRankEdgePerLine]; an index without an edge holds
    the value-initialised, empty list. *)
Definition edge_links (ctx : Context) (input : DIA PagePageLink) (num_pages : N)
  : result (DIA OutgoingLinks) :=
  GroupToIndex ctx (fun p => src p) (fun r (_ : PageId) => map tgt r)
               num_pages [] input.

(** [RunPageRankEdgePerLine]: [lines] is what ReadLines yields; the result
    is what WriteLines is given, if anything. *)
Definition RunPageRankEdgePerLine (ctx : Context) (lines : DIA string)
  (output_path : string) (iterations : N) : result (option (DIA string)) :=
  input <- MapDie PageRankLineParser lines ;;
  let num_pages := edge_num_pages ctx input in
  links <- edge_links ctx input num_pages ;;
  ranks <- PageRank ctx links num_pages iterations ;;
  if Nat.eqb (String.length output_path) 0 then Ok None
  else Ok (Some (ZipWithIndex ctx (fun (r : Rank) (p : PageId) => ssprintf_zu_g p r)
                              ranks)).

Definition join_links (ctx : Context) (input : DIA PagePageLink) : DIA LinkedPage :=
  GroupByKey ctx (fun p => src p) (fun r (pid : PageId) => (pid, map tgt r)) input.

(** [RunJoinPageRankEdgePerLine]; [UseLocationDetection] is [true]. *)
Definition RunJoinPageRankEdgePerLine (ctx : Context) (lines : DIA string)
  (output_path : string) (iterations : N) : result (option (DIA string)) :=
  input <- MapDie PageRankLineParser lines ;;
  let links := join_links ctx input in
  let ranks := PageRankJoinSelf ctx true links iterations in
  if Nat.eqb (String.length output_path) 0 then Ok None
  else Ok (Some (Map (fun rp : RankedPage Rank => ssprintf_zu_g (fst rp) (snd rp))
                     ranks)).

(** The lambda handed to Generate in the generated runs: its captures are
    the generator and an engine seeded from [std::random_device]. *)
Definition generated_state (random_device : nat -> N) (base_graph_gen : ZipfGraphGen)
  (num_pages : N) (w : nat) : ZipfGraphGen * Engine :=
  (ZipfGraphGen_for base_graph_gen num_pages, seed_engine (random_device w)).

Definition generated_links (ctx : Context) (random_device : nat -> N)
  (base_graph_gen : ZipfGraphGen) (num_pages : N) : DIA OutgoingLinks :=
  GenerateMutable ctx num_pages
    (generated_state random_device base_graph_gen num_pages)
    (fun st (_ : N) => GenerateOutgoing st).

Definition generated_linked_pages (ctx : Context) (random_device : nat -> N)
  (base_graph_gen : ZipfGraphGen) (num_pages : N) : DIA LinkedPage :=
  GenerateMutable ctx num_pages
    (generated_state random_device base_graph_gen num_pages)
    (fun st (index : N) =>
       ((index, fst (GenerateOutgoing st)), snd (GenerateOutgoing st))).

(** [RunPageRankGenerated]; [random_device w] is the value the random
    device returns on worker [w]. The lambda handed to ZipWithIndex names
    its parameters [(const PageId& p, const Rank& r)]: it receives the rank
    as [p] and the index as [r], each converted. *)
Definition RunPageRankGenerated (ctx : Context) (random_device : nat -> N)
  (input_path : string) (base_graph_gen : ZipfGraphGen)
  (output_path : string) (iterations : N) : result (option (DIA string)) :=
  match from_str input_path with
  | None => Die PageCountError
  | Some num_pages =>
      let links := generated_links ctx random_device base_graph_gen num_pages in
      ranks <- PageRank ctx links num_pages iterations ;;
      if Nat.eqb (String.length output_path) 0 then Ok None
      else Ok (Some (ZipWithIndex ctx
                       (fun (item : Rank) (index : N) =>
                          let p : PageId := size_of_double item in
                          let r : Rank := rk_of_size index in
                          to_string_size p ++ ": " ++ to_string_double r)
                       ranks))
  end.

(** [RunPageRankJoinGenerated]; [UseLocationDetection] is [true]. *)
Definition RunPageRankJoinGenerated (ctx : Context) (random_device : nat -> N)
  (input_path : string) (base_graph_gen : ZipfGraphGen)
  (output_path : string) (iterations : N) : result (option (DIA string)) :=
  match from_str input_path with
  | None => Die PageCountError
  | Some num_pages =>
      let links :=
        generated_linked_pages ctx random_device base_graph_gen num_pages in
      let ranks := PageRankJoin ctx true links num_pages iterations in
      if Nat.eqb (String.length output_path) 0 then Ok None
      else Ok (Some (Map (fun rp : RankedPage Rank =>
                            ssprintf_zu_g (fst rp) (snd rp))
                         ranks))
  end.

End Runs.

(** ** page_rank.hpp: the stream output of the records *)

(** [operator <<] of [PagePageLink]: [(src>tgt)], the page ids in decimal
    as a stream prints a [size_t]. *)
Definition print_PagePageLink (a : PagePageLink) : string :=
  ("(" ++ to_string_size (src a) ++ ">" ++ to_string_size (tgt a) ++ ")")%string.

(** [operator <<] of [PageRankPair]: [(page|rank)]. A stream in its
    default state prints a [double] as [%g] does. *)
Definition print_PageRankPair {Rank : Type} {RA : RankArith Rank}
  {EX : Externals Rank} (a : PageRankPair Rank) : string :=
  ("(" ++ to_string_size (page a) ++ "|" ++ format_g (rank a) ++ ")")%string.

(** ** The C library: a [double] as text and as [size_t] *)

(** The value of a binary64 number that is zero or finite, as its sign and
    the fraction [num / den] of its magnitude; nothing for an infinity or a
    NaN. *)
Definition float_fraction (x : float) : option (bool * Z * Z) :=
  match Prim2SF x with
  | S754_zero s => Some (s, 0%Z, 1%Z)
  | S754_finite s m e =>
      if (0 <=? e)%Z then Some (s, (Z.pos m * 2 ^ e)%Z, 1%Z)
      else Some (s, Z.pos m, (2 ^ (- e))%Z)
  | _ => None
  end.

(** [num / den] rounded to the nearest integer, a tie to the even one, as
    the conversions of printf round in the default rounding mode. *)
Definition round_half_even (num den : Z) : Z :=
  let q := (num / den)%Z in
  let r := (num mod den)%Z in
  if (2 * r <? den)%Z then q
  else if (den <? 2 * r)%Z then (q + 1)%Z
  else if Z.even q then q else (q + 1)%Z.

(** A natural number in decimal. *)
Definition decimal (z : Z) : string := to_string_size (Z.to_N z).

Fixpoint zeros (n : nat) : string :=
  match n with
  | O => EmptyString
  | S k => String "0"%char (zeros k)
  end.

(** [s] with zeros before it, up to the width [n]. *)
Definition pad_zeros (n : nat) (s : string) : string :=
  (zeros (n - String.length s) ++ s)%string.

(** [s] without the zeros at its end. *)
Fixpoint strip_zeros (s : string) : string :=
  match s with
  | EmptyString => EmptyString
  | String c t =>
      match strip_zeros t with
      | EmptyString => if Ascii.eqb c "0"%char then EmptyString
                       else String c EmptyString
      | t' => String c t'
      end
  end.

Definition sign_prefix (s : bool) : string :=
  if s then "-"%string else EmptyString.

(** [std::to_string(double)], that is [%f] of printf: six digits after the
    point. *)
Definition to_string_f (x : float) : string :=
  match float_fraction x with
  | Some (s, num, den) =>
      let d := round_half_even (num * 10 ^ 6) den in
      (sign_prefix s ++ decimal (d / 10 ^ 6) ++ "."
         ++ pad_zeros 6 (decimal (d mod 10 ^ 6)))%string
  | None =>
      match Prim2SF x with
      | S754_infinity s => (sign_prefix s ++ "inf")%string
      | _ => "nan"%string
      end
  end.

(** Whether [10 ^ X <= num / den]. *)
Definition pow10_le (X num den : Z) : bool :=
  if (0 <=? X)%Z then (10 ^ X * den <=? num)%Z
  else (den <=? num * 10 ^ (- X))%Z.

(** The largest [X] with [10 ^ X <= num / den], searched upwards from [X]. *)
Fixpoint decimal_exponent (fuel : nat) (X num den : Z) : Z :=
  match fuel with
  | O => X
  | S k => if pow10_le (X + 1) num den then decimal_exponent k (X + 1) num den
           else X
  end.

(** The six significant digits of [num / den] and their decimal exponent,
    as the [%e] conversion of precision 5 has them. *)
Definition significant_digits (num den : Z) : Z * Z :=
  let X := decimal_exponent 800 (-400) num den in
  let d := if (0 <=? X - 5)%Z
           then round_half_even num (den * 10 ^ (X - 5))
           else round_half_even (num * 10 ^ (5 - X)) den in
  if (d =? 10 ^ 6)%Z then ((10 ^ 5)%Z, (X + 1)%Z) else (d, X).

(** A fraction part after its point, nothing when it holds zeros only. *)
Definition fraction_text (digits : string) : string :=
  match strip_zeros digits with
  | EmptyString => EmptyString
  | f => String "."%char f
  end.

(** [%g] of printf with the default precision 6: the style of [%f] when
    the decimal exponent is between -4 and 5, else the style of [%e]; the
    zeros at the end of the fraction are removed. *)
Definition printf_g (x : float) : string :=
  match float_fraction x with
  | Some (s, num, den) =>
      if (num =? 0)%Z then (sign_prefix s ++ "0")%string
      else
        let (d, X) := significant_digits num den in
        let ds := decimal d in
        if ((-4 <=? X) && (X <? 6))%Z
        then
          if (0 <=? X)%Z
          then (sign_prefix s ++ substring 0 (Z.to_nat X + 1) ds
                  ++ fraction_text (substring (Z.to_nat X + 1) (5 - Z.to_nat X) ds))%string
          else (sign_prefix s ++ "0"
                  ++ fraction_text (zeros (Z.to_nat (- X) - 1) ++ ds))%string
        else
          (sign_prefix s ++ substring 0 1 ds ++ fraction_text (substring 1 5 ds)
             ++ "e" ++ (if (X <? 0)%Z then "-" else "+")
             ++ pad_zeros 2 (decimal (Z.abs X)))%string
  | None =>
      match Prim2SF x with
      | S754_infinity s => (sign_prefix s ++ "inf")%string
      | _ => "nan"%string
      end
  end.

(** [static_cast<size_t>(double)]: the fraction is cut off. The conversion
    of a value that does not fit [size_t] is undefined in C++; it is 0
    here. *)
Definition double_to_size_t (x : float) : N :=
  match float_fraction x with
  | Some (false, num, den) =>
      if (num / den <=? Z.of_N SIZE_MAX)%Z then Z.to_N (num / den) else 0%N
  | _ => 0%N
  end.

(** * Definitions used by the statements *)

(** ** Tables and sums *)

Abbreviation keys t := (map fst t).

(** The table of ReducePair, folded from a table [acc] on. *)
Definition reduce_from {V : Type} (f : V -> V -> V) (acc xs : list (PageId * V))
  : list (PageId * V) :=
  fold_left (fun table kv => reduce_insert f (fst kv) (snd kv) table) xs acc.

(** The sum of a list of exact ranks. *)
Definition Qcsum (l : list Qc) : Qc := fold_right Qcplus (Q2Qc 0) l.

(** The values a key holds in a sequence of pairs, summed. *)
Definition total_for (k : PageId) (xs : list (PageId * Qc)) : Qc :=
  Qcsum (map snd (filter (fun x => N.eqb (fst x) k) xs)).

(** The values that land on key [k], in arrival order. *)
Definition values_of {V : Type} (k : PageId) (cs : list (PageId * V)) : list V :=
  map snd (filter (fun c => N.eqb (fst c) k) cs).

(** The values folded from the first one on; nothing without a value. *)
Definition folded {V : Type} (f : V -> V -> V) (vs : list V) : option V :=
  match vs with
  | [] => None
  | v :: rest => Some (fold_left f rest v)
  end.

(** ** A round in the spec's terms (section 4.4) *)

Section SpecRound.

Context {Rank : Type} {RA : RankArith Rank}.

Local Open Scope rank_scope.

(** Step 2: a page with [k] outgoing links and rank [r] contributes [r/k]
    to each target, and nothing when it has no link. *)
Definition spec_contributions (p : OutgoingLinks * Rank) : list (PageId * Rank) :=
  map (fun t => (t, snd p / rk_of_size (N.of_nat (length (fst p))))) (fst p).

(** Step 3: the raw incoming total of page [i], 0 without a contribution. *)
Definition rawTotal (cs : list (PageId * Rank)) (i : PageId) : Rank :=
  match folded rk_add (values_of i cs) with
  | Some v => v
  | None => rk0
  end.

(** Step 4: dampening. *)
Definition newRank (num_pages : N) (raw : Rank) : Rank :=
  dampening * raw + (rk1 - dampening) / rk_of_size num_pages.

(** The ranks after a round of the index-based shape. *)
Definition spec_round (links : list OutgoingLinks) (num_pages : N)
  (ranks : list Rank) : list Rank :=
  map (fun i => newRank num_pages
                  (rawTotal (flat_map spec_contributions (combine links ranks)) i))
      (indices num_pages).

End SpecRound.

(** The value a table holds for a key. *)
Fixpoint table_get {V : Type} (k : PageId) (t : list (PageId * V)) : option V :=
  match t with
  | [] => None
  | (k', v') :: t' => if N.eqb k' k then Some v' else table_get k t'
  end.

Section Records.

Context {Rank : Type} {RA : RankArith Rank}.

Local Open Scope rank_scope.

(** A [PageRankPair] as a (page, rank) pair. *)
Definition to_pair (c : PageRankPair Rank) : PageId * Rank := (page c, rank c).

(** The reduce function of ReduceToIndex in [PageRank]. *)
Definition add_pairs (p1 p2 : PageRankPair Rank) : PageRankPair Rank :=
  {| page := page p1; rank := rank p1 + rank p2 |}.

End Records.

(** ** The records of the contribution stage *)

(** The number of links of a record of the stage, as [size()] returns it. *)
Definition links_of {Rank : Type} (p : OutgoingLinksRank Rank) : N :=
  N.of_nat (length (fst p)).

(** Whether a record of the stage has a link. *)
Definition has_link {Rank : Type} (p : OutgoingLinksRank Rank) : bool :=
  negb (Nat.eqb (length (fst p)) 0).

(** ** Sample inputs *)

(** Contexts of one and of two workers; the hash of a page id is the id. *)
Definition one_worker : Context := {| num_workers := 1; hash := fun k => k |}.

Definition two_workers : Context := {| num_workers := 2; hash := fun k => k |}.

(** Two pages that link to each other, as [PageRankJoinSelf] takes them. *)
Definition two_page_links : DIA LinkedPage := [[(0%N, [1%N]); (1%N, [0%N])]].

(** The contributions of the first round of [PageRankJoinSelf] on them. *)
Definition two_page_contribs : DIA (PageRankStdPair float) :=
  FlatMap join_contributions
          (InnerJoin one_worker true two_page_links
                     (Map (fun lp : LinkedPage => (fst lp, rk1)) two_page_links)
                     (fun lp : LinkedPage => fst lp)
                     (fun rp : RankedPage float => fst rp)
                     (fun lp rp => (snd lp, snd rp))).

(** Three pages that link to page 0, with 1, 1 and 3 outgoing links, placed
    against the hash: the odd page on worker 0, the even pages on worker 1. *)
Definition three_sources : DIA LinkedPage :=
  [[(1%N, [0%N])]; [(2%N, [0%N]); (4%N, [0%N; 5%N; 6%N])]].

(** Scenario A of the spec: 4 pages, edges 0>1, 1>2, 2>0, 3>0; the lists
    of outgoing links by index, placed on two workers. *)
Definition scenario_A : list OutgoingLinks := [[1%N]; [2%N]; [0%N]; [0%N]].

Definition scenario_A_links : DIA OutgoingLinks := [[[1%N]; [2%N]]; [[0%N]; [0%N]]].

(** Scenario A as the join-based shape takes it. *)
Definition scenario_A_linked : DIA LinkedPage :=
  [[(0%N, [1%N]); (1%N, [2%N])]; [(2%N, [0%N]); (3%N, [0%N])]].

(** Scenario A as the lines of an input file, on two workers. *)
Definition scenario_A_lines : DIA string :=
  [["0 1"; "1 2"]; ["2 0"; "3 0"]]%string.

(** A chain of 4 pages, edges 0>1, 1>2, 2>3: no link leads to page 0 and
    page 3 has no outgoing link. The lists of outgoing links by index, the
    records of the join-based shape, and the lines of an input file. *)
Definition chain_links : DIA OutgoingLinks := [[[1%N]; [2%N]]; [[3%N]; []]].

Definition chain_linked : DIA LinkedPage :=
  [[(0%N, [1%N]); (1%N, [2%N])]; [(2%N, [3%N]); (3%N, [])]].

Definition chain_lines : DIA string := [["0 1"; "1 2"]; ["2 3"]]%string.

(** ** Convergence of the two shapes *)

(** The rank a collection of (page, rank) records holds for a page, 0 when
    it holds none. *)
Definition rank_at (p : PageId) (rs : list (RankedPage Qc)) : Qc :=
  match find (fun rp => N.eqb (fst rp) p) rs with
  | Some rp => snd rp
  | None => Q2Qc 0
  end.

(** After [iterations] rounds the two shapes agree within [eps] on every
    page. *)
Definition shapes_agree_within (ctx : Context) (flag : bool)
  (links : DIA OutgoingLinks) (linksJ : DIA LinkedPage) (num_pages : N)
  (eps : Qc) (iterations : N) : Prop :=
  exists ranks,
    PageRank (Rank := Qc) ctx links num_pages iterations = Ok ranks
    /\ forall p, (p < num_pages)%N ->
         (rank_at p (items ctx (PageRankJoin (Rank := Qc) ctx flag linksJ
                                             num_pages iterations))
          - nth (N.to_nat p) (items ctx ranks) (Q2Qc 0) < eps)%Qc
         /\ (nth (N.to_nat p) (items ctx ranks) (Q2Qc 0)
             - rank_at p (items ctx (PageRankJoin (Rank := Qc) ctx flag linksJ
                                                  num_pages iterations))
             < eps)%Qc.

(** Scenario D of the spec: within every epsilon after enough iterations. *)
Definition shapes_converge (ctx : Context) (flag : bool)
  (links : DIA OutgoingLinks) (linksJ : DIA LinkedPage) (num_pages : N) : Prop :=
  forall eps : Qc, (Q2Qc 0 < eps)%Qc ->
    exists enough : N, forall iterations : N,
        (enough <= iterations)%N ->
        shapes_agree_within ctx flag links linksJ num_pages eps iterations.

(** ** The form of an edge line *)

Definition is_digit (c : ascii) : bool :=
  match digit_value c with Some _ => true | None => false end.

Fixpoint all_digits (s : string) : bool :=
  match s with
  | EmptyString => true
  | String c t => is_digit c && all_digits t
  end.

(** A decimal numeral: one digit at least, digits only. *)
Definition is_numeral (s : string) : bool :=
  match s with
  | EmptyString => false
  | String _ _ => all_digits s
  end.

(** What stands before and after the first space of a line. *)
Fixpoint split_at_space (s : string) : option (string * string) :=
  match s with
  | EmptyString => None
  | String c t =>
      if Ascii.eqb c " "%char then Some (EmptyString, t)
      else match split_at_space t with
           | Some (a, b) => Some (String c a, b)
           | None => None
           end
  end.

(** Modelled from the spec: the form of an edge line (section 6), two
    integers separated by a single space, nothing trailing. Page ids start
    at 0, so an integer is read as an unsigned decimal numeral. *)
Definition edge_line_form (s : string) : bool :=
  match split_at_space s with
  | Some (a, b) => is_numeral a && is_numeral b
  | None => false
  end.

(** The digits of [u] read onto [acc], most significant first. *)
Fixpoint acc_value (acc : N) (u : Decimal.uint) : N :=
  match u with
  | Decimal.Nil => acc
  | Decimal.D0 u' => acc_value (acc * 10 + 0) u'
  | Decimal.D1 u' => acc_value (acc * 10 + 1) u'
  | Decimal.D2 u' => acc_value (acc * 10 + 2) u'
  | Decimal.D3 u' => acc_value (acc * 10 + 3) u'
  | Decimal.D4 u' => acc_value (acc * 10 + 4) u'
  | Decimal.D5 u' => acc_value (acc * 10 + 5) u'
  | Decimal.D6 u' => acc_value (acc * 10 + 6) u'
  | Decimal.D7 u' => acc_value (acc * 10 + 7) u'
  | Decimal.D8 u' => acc_value (acc * 10 + 8) u'
  | Decimal.D9 u' => acc_value (acc * 10 + 9) u'
  end%N.

(** ** Stand-ins for the absent helpers *)

(** Stand-ins for what the sources at hand do not hold, to run the
    examples: numbers are printed as a mark, [from_str] reads a decimal
    numeral, the engine is [minstd_rand0] (the [default_random_engine] of
    libstdc++), and the generator draws one link per page from the engine.
    They say nothing about [zipf_graph_gen.hpp] itself. *)
Definition minstd_rand0_seed (s : N) : N :=
  if N.eqb (s mod 2147483647) 0 then 1%N else (s mod 2147483647)%N.

Definition minstd_rand0_next (x : N) : N := ((16807 * x) mod 2147483647)%N.

#[export] Instance sample_externals : Externals float := {
  format_g := fun _ => "#"%string;
  to_string_double := fun _ => "#"%string;
  size_of_double := fun _ => 0%N;
  from_str := fun s => option_map N.of_uint (NilZero.uint_of_string s);
  Engine := N;
  seed_engine := minstd_rand0_seed;
  ZipfGraphGen := N;
  ZipfGraphGen_for := fun _ num_pages => num_pages;
  GenerateOutgoing := fun st =>
    ([(minstd_rand0_next (snd st) mod fst st)%N], (fst st, minstd_rand0_next (snd st)))
}.

(** The formatting and the conversion of the C library for binary64 ranks,
    with the same stand-ins for the engine and the generator. *)
Definition libc_externals : Externals float := {|
  format_g := printf_g;
  to_string_double := to_string_f;
  size_of_double := double_to_size_t;
  from_str := fun s => option_map N.of_uint (NilZero.uint_of_string s);
  Engine := N;
  seed_engine := minstd_rand0_seed;
  ZipfGraphGen := N;
  ZipfGraphGen_for := fun _ num_pages => num_pages;
  GenerateOutgoing := fun st =>
    ([(minstd_rand0_next (snd st) mod fst st)%N], (fst st, minstd_rand0_next (snd st)))
|}.

(** ** Lines that the parser reads *)

(** Whether a line holds a space character. *)
Fixpoint has_space (s : string) : bool :=
  match s with
  | EmptyString => false
  | String c t => Ascii.eqb c " "%char || has_space t
  end.

(** White space only, as [isspace] sees it. *)
Fixpoint all_space (s : string) : bool :=
  match s with
  | EmptyString => true
  | String c t => isspace c && all_space t
  end.

(** The sign a number is written with. *)
Inductive Sign : Type := NoSign | PlusSign | MinusSign.

Definition sign_text (sg : Sign) : string :=
  match sg with
  | NoSign => EmptyString
  | PlusSign => "+"%string
  | MinusSign => "-"%string
  end.

(** The value [strtoul] returns for a number written with a sign: a minus
    sign negates in [unsigned long]. *)
Definition signed (sg : Sign) (v : N) : N :=
  match sg with
  | MinusSign => wrap (SIZE_MAX + 1 - v)
  | _ => v
  end.

(** An edge written as a line: the two page ids in decimal, a space between
    them. *)
Definition edge_line (e : PagePageLink) : string :=
  (to_string_size (src e) ++ String " "%char (to_string_size (tgt e)))%string.

(** ** Outcomes of runs on different placements *)

(** Two outcomes agree: the same fatal error, or collections that hold the
    same records in the same order, each read on its own workers. *)
Definition same_outcome {A : Type} (ctx ctx' : Context)
  (r r' : result (DIA A)) : Prop :=
  match r, r' with
  | Ok d, Ok d' => items ctx d = items ctx' d'
  | Die e, Die e' => e = e'
  | _, _ => False
  end.

(** ** The rank that is passed on *)

(** Whether a page, paired with its rank, has a link to follow. *)
Definition has_links (p : OutgoingLinks * Qc) : bool :=
  negb (Nat.eqb (length (fst p)) 0).

(** The ranks of the pages that have a link to follow, summed: the rank a
    round passes on. The rank of a page without links is not in it. *)
Definition linked_mass (links : list OutgoingLinks) (ranks : list Qc) : Qc :=
  Qcsum (map snd (filter has_links (combine links ranks))).

(** The least rank a round gives a page, [(1 - dampening) / num_pages]. *)
Definition rank_floor (num_pages : N) : Qc :=
  ((rk1 - dampening) / rk_of_size num_pages)%rk.

(** ** The two join variants against each other *)

(** A rank record with its rank multiplied by the number of pages. *)
Definition times_num_pages (num_pages : N) (rp : RankedPage Qc) : RankedPage Qc :=
  (fst rp, (rk_of_size num_pages * snd rp)%rk).

(** ** Links read back as edges *)

(** The edges that a collection of (page, outgoing links) records stands
    for: one edge per link, from the page of the record. *)
Definition linked_as_edges (l : list LinkedPage) : list PagePageLink :=
  flat_map (fun lp => map (fun t => {| src := fst lp; tgt := t |}) (snd lp)) l.

(** The same for lists of outgoing links held by index: the list at index
    [i] holds the links of page [i]. *)
Definition links_as_edges (links : list OutgoingLinks) : list PagePageLink :=
  linked_as_edges (combine (indices (N.of_nat (length links))) links).

(** ** The distance of two rank vectors *)

(** The absolute value of an exact rank. *)
Definition Qcabs (x : Qc) : Qc :=
  if Qclt_le_dec x (Q2Qc 0) then Qcopp x else x.

(** The differences of two rank vectors, page by page, without sign. *)
Definition rank_differences (a b : list Qc) : list Qc :=
  map (fun p => Qcabs (fst p - snd p)%Qc) (combine a b).

(** The L1 distance of two rank vectors: the differences summed. *)
Definition rank_distance (a b : list Qc) : Qc := Qcsum (rank_differences a b).

(** The share of its rank that a page with the links [ol] passes to page
    [i]: what page [i] receives from it at rank 1. *)
Definition link_weight (i : PageId) (ol : OutgoingLinks) : Qc :=
  Qcsum (values_of i (spec_contributions (Rank := Qc) (ol, Q2Qc 1))).

(** * Properties *)

Unset Implicit Arguments.

(** ** Lists *)

Lemma flat_map_ext_In {A B : Type} (f g : A -> list B) (l : list A) :
  (forall a, In a l -> f a = g a) -> flat_map f l = flat_map g l.
Proof.
  induction l as [|a l IH]; simpl; intros H; [reflexivity|].
  rewrite (H a) by (left; reflexivity).
  rewrite IH; [reflexivity|]. intros b Hb. apply H. right. exact Hb.
Qed.

Lemma map_flat_map_comm {A B C : Type} (f : B -> C) (g : A -> list B) (l : list A) :
  map f (flat_map g l) = flat_map (fun a => map f (g a)) l.
Proof.
  induction l as [|a l IH]; simpl; [reflexivity|].
  rewrite map_app, IH. reflexivity.
Qed.

Lemma flat_map_flat_map_comm {A B C : Type} (f : B -> list C) (g : A -> list B)
  (l : list A) :
  flat_map f (flat_map g l) = flat_map (fun a => flat_map f (g a)) l.
Proof.
  induction l as [|a l IH]; simpl; [reflexivity|].
  rewrite flat_map_app, IH. reflexivity.
Qed.

Lemma firstn_then_firstn {A : Type} (a b : nat) (l : list A) :
  firstn a l ++ firstn b (skipn a l) = firstn (a + b) l.
Proof.
  revert l. induction a as [|a IH]; intros l; simpl; [reflexivity|].
  destruct l as [|x l]; simpl.
  - rewrite firstn_nil. reflexivity.
  - rewrite IH. reflexivity.
Qed.

Lemma Permutation_flat_map_pointwise {A B : Type} (f g : A -> list B) (l : list A) :
  (forall a, In a l -> Permutation (f a) (g a)) ->
  Permutation (flat_map f l) (flat_map g l).
Proof.
  induction l as [|a l IH]; simpl; intros H; [constructor|].
  apply Permutation_app.
  - apply H. left. reflexivity.
  - apply IH. intros b Hb. apply H. right. exact Hb.
Qed.

Lemma Permutation_app_swap_middle {A : Type} (a b c d : list A) :
  Permutation ((a ++ b) ++ (c ++ d)) ((a ++ c) ++ (b ++ d)).
Proof.
  rewrite <- !app_assoc. apply Permutation_app_head.
  rewrite !app_assoc. apply Permutation_app_tail. apply Permutation_app_comm.
Qed.

Lemma Permutation_filter_pred {A : Type} (p : A -> bool) (l1 l2 : list A) :
  Permutation l1 l2 -> Permutation (filter p l1) (filter p l2).
Proof.
  induction 1 as [|x l1 l2 _ IH|x y l|l1 l2 l3 _ IH1 _ IH2]; simpl.
  - constructor.
  - destruct (p x); [apply perm_skip|]; exact IH.
  - destruct (p x), (p y); try apply Permutation_refl. apply perm_swap.
  - eapply Permutation_trans; eassumption.
Qed.

Lemma NoDup_map_inj {A B : Type} (f : A -> B) (l : list A) :
  (forall a b, f a = f b -> a = b) -> NoDup l -> NoDup (map f l).
Proof.
  intros Hinj Hl. induction Hl as [|x l Hx Hl IH]; simpl; constructor.
  - intros Hin. apply in_map_iff in Hin. destruct Hin as [y [Hy Hin]].
    apply Hinj in Hy. subst y. contradiction.
  - exact IH.
Qed.

(** ** The records of a collection *)

Lemma nworkers_pos (ctx : Context) : 0 < nworkers ctx.
Proof. unfold nworkers. apply Pos2Nat.is_pos. Qed.

Lemma local_map_workers {A : Type} (ctx : Context) (g : nat -> list A) (w : nat) :
  In w (workers ctx) -> local (map g (workers ctx)) w = g w.
Proof.
  unfold workers, local. intros Hw. apply in_seq in Hw.
  rewrite (nth_indep _ [] (g 0)) by (rewrite length_map, length_seq; lia).
  rewrite map_nth, seq_nth by lia. reflexivity.
Qed.

Lemma items_map_workers {A : Type} (ctx : Context) (g : nat -> list A) :
  items ctx (map g (workers ctx)) = flat_map g (workers ctx).
Proof.
  unfold items. apply flat_map_ext_In. intros w Hw.
  apply local_map_workers. exact Hw.
Qed.

Lemma range_lo_mono (n W w : nat) : range_lo n W w <= range_lo n W (S w).
Proof.
  unfold range_lo. apply Nat.Div0.div_le_mono. simpl. lia.
Qed.

Lemma range_split_prefix {A : Type} (l : list A) (W k : nat) :
  flat_map (fun w =>
              firstn (range_lo (length l) W (S w) - range_lo (length l) W w)
                     (skipn (range_lo (length l) W w) l))
           (seq 0 k)
  = firstn (range_lo (length l) W k) l.
Proof.
  induction k as [|k IH].
  - simpl. unfold range_lo. simpl. rewrite Nat.Div0.div_0_l. reflexivity.
  - rewrite seq_S, flat_map_app, IH. simpl. rewrite app_nil_r.
    rewrite firstn_then_firstn. f_equal.
    pose proof (range_lo_mono (length l) W k). lia.
Qed.

Lemma items_range_split {A : Type} (ctx : Context) (l : list A) :
  items ctx (range_split ctx l) = l.
Proof.
  unfold range_split. rewrite items_map_workers. unfold workers.
  rewrite range_split_prefix. unfold range_lo.
  rewrite Nat.mul_comm, Nat.div_mul by (pose proof (nworkers_pos ctx); lia).
  apply firstn_all.
Qed.

Lemma local_Map {A B : Type} (f : A -> B) (d : DIA A) (w : nat) :
  local (Map f d) w = map f (local d w).
Proof.
  unfold local, Map. change (@nil B) with (map f []). apply map_nth.
Qed.

Lemma local_FlatMap {A B : Type} (f : A -> list B) (d : DIA A) (w : nat) :
  local (FlatMap f d) w = flat_map f (local d w).
Proof.
  unfold local, FlatMap. change (@nil B) with (flat_map f []). apply map_nth.
Qed.

Lemma items_Map {A B : Type} (ctx : Context) (f : A -> B) (d : DIA A) :
  items ctx (Map f d) = map f (items ctx d).
Proof.
  unfold items. rewrite map_flat_map_comm. apply flat_map_ext.
  intros w. apply local_Map.
Qed.

Lemma items_FlatMap {A B : Type} (ctx : Context) (f : A -> list B) (d : DIA A) :
  items ctx (FlatMap f d) = flat_map f (items ctx d).
Proof.
  unfold items. rewrite flat_map_flat_map_comm. apply flat_map_ext.
  intros w. apply local_FlatMap.
Qed.

Lemma items_Generate {A : Type} (ctx : Context) (size : N) (f : N -> A) :
  items ctx (Generate ctx size f) = map f (indices size).
Proof. unfold Generate. apply items_range_split. Qed.

Lemma items_Collapse {A : Type} (ctx : Context) (d : DIA A) :
  items ctx (Collapse d) = items ctx d.
Proof. reflexivity. Qed.

Lemma length_indices (n : N) : length (indices n) = N.to_nat n.
Proof. unfold indices. rewrite length_map, length_seq. reflexivity. Qed.

Lemma In_indices (n i : N) : In i (indices n) <-> (i < n)%N.
Proof.
  unfold indices. rewrite in_map_iff. split.
  - intros [k [<- Hk]]. apply in_seq in Hk. lia.
  - intros Hi. exists (N.to_nat i). split; [apply N2Nat.id|].
    apply in_seq. lia.
Qed.

Lemma NoDup_indices (n : N) : NoDup (indices n).
Proof.
  unfold indices. apply NoDup_map_inj.
  - intros a b H. apply Nat2N.inj. exact H.
  - apply seq_NoDup.
Qed.

(** ** Shuffling keeps the records *)

Lemma dest_lt (ctx : Context) (k : PageId) : dest ctx k < nworkers ctx.
Proof.
  unfold dest, nworkers.
  assert (H : (hash ctx k mod N.pos (num_workers ctx) < N.pos (num_workers ctx))%N)
    by (apply N.mod_lt; discriminate).
  lia.
Qed.

Lemma dest_In_workers (ctx : Context) (k : PageId) : In (dest ctx k) (workers ctx).
Proof. unfold workers. apply in_seq. pose proof (dest_lt ctx k). lia. Qed.

(** A record put in front of the sequence that is dealt out arrives at
    exactly one of the workers. *)
Lemma deal_cons {A : Type} (x : A) (w0 : nat) (F : nat -> list A) (ws : list nat) :
  NoDup ws -> In w0 ws ->
  Permutation
    (flat_map (fun w => (if Nat.eqb w0 w then [x] else []) ++ F w) ws)
    (x :: flat_map F ws).
Proof.
  intros Hnd. induction Hnd as [|w ws Hw Hnd IH]; intros Hin; [destruct Hin|].
  simpl. destruct (Nat.eqb_spec w0 w) as [->|Hne].
  - simpl. apply perm_skip. apply Permutation_app_head.
    erewrite flat_map_ext_In; [apply Permutation_refl|].
    intros a Ha. destruct (Nat.eqb_spec w a) as [->|_]; [contradiction|reflexivity].
  - destruct Hin as [->|Hin]; [contradiction|]. simpl.
    eapply Permutation_trans; [apply Permutation_app_head, IH, Hin|].
    apply Permutation_sym, Permutation_middle.
Qed.

Lemma deal_all {A : Type} (f : A -> nat) (ws : list nat) (xs : list A) :
  NoDup ws -> (forall x, In x xs -> In (f x) ws) ->
  Permutation (flat_map (fun w => filter (fun x => Nat.eqb (f x) w) xs) ws) xs.
Proof.
  intros Hnd. induction xs as [|x xs IH]; intros Hin.
  - clear Hnd Hin. induction ws as [|w ws IHw]; simpl; [constructor|exact IHw].
  - eapply Permutation_trans; [|apply perm_skip, IH].
    + erewrite flat_map_ext; [apply (deal_cons x (f x)); [exact Hnd|]|].
      * apply Hin. left. reflexivity.
      * intros w. simpl. destruct (Nat.eqb (f x) w); reflexivity.
    + intros y Hy. apply Hin. right. exact Hy.
Qed.

Lemma workers_NoDup (ctx : Context) : NoDup (workers ctx).
Proof. apply seq_NoDup. Qed.

Lemma items_shuffle {A : Type} (ctx : Context) (key : A -> PageId) (d : DIA A) :
  Permutation (items ctx (shuffle ctx key d)) (items ctx d).
Proof.
  unfold shuffle. rewrite items_map_workers.
  apply (deal_all (fun x => dest ctx (key x))).
  - apply workers_NoDup.
  - intros x _. apply dest_In_workers.
Qed.

Lemma local_shuffle {A : Type} (ctx : Context) (key : A -> PageId) (d : DIA A)
  (w : nat) :
  In w (workers ctx) ->
  local (shuffle ctx key d) w
  = filter (fun x => Nat.eqb (dest ctx (key x)) w) (items ctx d).
Proof.
  intros Hw. unfold shuffle.
  apply (local_map_workers ctx
           (fun w => filter (fun x => Nat.eqb (dest ctx (key x)) w) (items ctx d))).
  exact Hw.
Qed.

(** ** The join of local sequences *)

Section JoinLocal.

Variables A B C : Type.
Variable key1 : A -> PageId.
Variable key2 : B -> PageId.
Variable join_function : A -> B -> C.

Let join := join_local key1 key2 join_function.

Lemma join_local_nil_r (ls : list A) : join ls [] = [].
Proof. induction ls as [|l ls IH]; simpl; [reflexivity|exact IH]. Qed.

Lemma join_local_app_l (l1 l2 : list A) (rs : list B) :
  join (l1 ++ l2) rs = join l1 rs ++ join l2 rs.
Proof. apply flat_map_app. Qed.

Lemma join_local_app_r (ls : list A) (r1 r2 : list B) :
  Permutation (join ls (r1 ++ r2)) (join ls r1 ++ join ls r2).
Proof.
  induction ls as [|l ls IH]; simpl; [constructor|].
  rewrite flat_map_app.
  eapply Permutation_trans; [apply Permutation_app_head, IH|].
  apply Permutation_app_swap_middle.
Qed.

Lemma join_local_no_match (ls : list A) (rs : list B) :
  (forall l r, In l ls -> In r rs -> key1 l <> key2 r) -> join ls rs = [].
Proof.
  induction ls as [|l ls IH]; intros H; simpl; [reflexivity|].
  rewrite IH by (intros l' r Hl Hr; apply H; [right|]; assumption).
  rewrite app_nil_r.
  assert (Hl : forall r, In r rs -> key1 l <> key2 r)
    by (intros r Hr; apply H; [left; reflexivity|assumption]).
  clear H IH. induction rs as [|r rs IHr]; simpl; [reflexivity|].
  destruct (N.eqb_spec (key1 l) (key2 r)) as [E|_].
  - exfalso. apply (Hl r); [left; reflexivity|exact E].
  - apply IHr. intros r' Hr'. apply Hl. right. exact Hr'.
Qed.

Lemma join_local_Permutation (l1 l2 : list A) (r1 r2 : list B) :
  Permutation l1 l2 -> Permutation r1 r2 ->
  Permutation (join l1 r1) (join l2 r2).
Proof.
  intros Hl Hr.
  apply Permutation_trans with (join l1 r2).
  - apply Permutation_flat_map_pointwise. intros l _.
    apply Permutation_flat_map. exact Hr.
  - apply Permutation_flat_map. exact Hl.
Qed.

Lemma join_local_In (ls : list A) (rs : list B) (c : C) :
  In c (join ls rs) <->
  exists l r, In l ls /\ In r rs /\ key1 l = key2 r /\ c = join_function l r.
Proof.
  unfold join, join_local. rewrite in_flat_map. split.
  - intros [l [Hl Hc]]. apply in_flat_map in Hc. destruct Hc as [r [Hr Hc]].
    destruct (N.eqb_spec (key1 l) (key2 r)) as [E|_]; [|destruct Hc].
    destruct Hc as [<-|[]]. exists l, r. auto.
  - intros [l [r [Hl [Hr [E ->]]]]]. exists l. split; [exact Hl|].
    apply in_flat_map. exists r. split; [exact Hr|].
    rewrite E, N.eqb_refl. left. reflexivity.
Qed.

(** Workers that hold no matching pair across each other join their local
    sequences to what the join of everything yields. *)
Lemma join_workers (Lp : nat -> list A) (Rp : nat -> list B) (ws : list nat) :
  NoDup ws ->
  (forall i j l r, In i ws -> In j ws -> i <> j ->
                   In l (Lp i) -> In r (Rp j) -> key1 l <> key2 r) ->
  Permutation (flat_map (fun w => join (Lp w) (Rp w)) ws)
              (join (flat_map Lp ws) (flat_map Rp ws)).
Proof.
  intros Hnd. induction Hnd as [|w ws Hw Hnd IH]; intros Hsep; [constructor|].
  simpl. rewrite join_local_app_l.
  assert (E1 : join (Lp w) (flat_map Rp ws) = []).
  { apply join_local_no_match. intros l r Hl Hr.
    apply in_flat_map in Hr. destruct Hr as [j [Hj Hr]].
    apply (Hsep w j); auto with datatypes. intros ->. contradiction. }
  assert (E2 : join (flat_map Lp ws) (Rp w) = []).
  { apply join_local_no_match. intros l r Hl Hr.
    apply in_flat_map in Hl. destruct Hl as [i [Hi Hl]].
    apply (Hsep i w); auto with datatypes. intros ->. contradiction. }
  apply Permutation_sym. apply Permutation_app.
  - eapply Permutation_trans; [apply join_local_app_r|].
    fold join. rewrite E1, app_nil_r. apply Permutation_refl.
  - eapply Permutation_trans; [apply join_local_app_r|].
    fold join. rewrite E2. simpl. apply Permutation_sym, IH.
    intros i j l r Hi Hj. apply Hsep; right; assumption.
Qed.

End JoinLocal.

(** ** InnerJoin yields the join of the records, however they are placed *)

Lemma In_placed {A : Type} (ctx : Context) (key : A -> PageId) (d : DIA A)
  (w : nat) (x : A) :
  In w (workers ctx) -> In x (local d w) -> In (w, key x) (placed ctx key d).
Proof.
  intros Hw Hx. unfold placed. apply in_flat_map. exists w. split; [exact Hw|].
  apply in_map_iff. exists x. split; [reflexivity|exact Hx].
Qed.

Lemma co_partitioned_separates {A B : Type} (ctx : Context)
  (key1 : A -> PageId) (key2 : B -> PageId) (d1 : DIA A) (d2 : DIA B) :
  co_partitioned ctx key1 key2 d1 d2 = true ->
  forall i j l r, In i (workers ctx) -> In j (workers ctx) -> i <> j ->
                  In l (local d1 i) -> In r (local d2 j) -> key1 l <> key2 r.
Proof.
  unfold co_partitioned. intros H i j l r Hi Hj Hij Hl Hr E.
  rewrite forallb_forall in H.
  specialize (H (i, key1 l)). rewrite forallb_forall in H.
  assert (H1 : In (i, key1 l) (placed ctx key1 d1 ++ placed ctx key2 d2))
    by (apply in_or_app; left; apply In_placed; assumption).
  assert (H2 : In (j, key2 r) (placed ctx key1 d1 ++ placed ctx key2 d2))
    by (apply in_or_app; right; apply In_placed; assumption).
  specialize (H H1 _ H2). simpl in H.
  rewrite E, N.eqb_refl in H. simpl in H.
  apply Nat.eqb_eq in H. contradiction.
Qed.

Lemma items_InnerJoin {A B C : Type} (ctx : Context) (flag : bool)
  (d1 : DIA A) (d2 : DIA B) (key1 : A -> PageId) (key2 : B -> PageId)
  (join_function : A -> B -> C) :
  Permutation (items ctx (InnerJoin ctx flag d1 d2 key1 key2 join_function))
              (join_local key1 key2 join_function (items ctx d1) (items ctx d2)).
Proof.
  unfold InnerJoin.
  destruct (flag && co_partitioned ctx key1 key2 d1 d2) eqn:Hdet.
  - apply andb_true_iff in Hdet. destruct Hdet as [_ Hco].
    rewrite items_map_workers. unfold items.
    apply join_workers; [apply workers_NoDup|].
    intros i j l r. apply co_partitioned_separates. exact Hco.
  - cbv zeta. rewrite items_map_workers.
    erewrite flat_map_ext_In.
    2:{ intros w Hw.
        rewrite (local_shuffle ctx key1 d1 w Hw), (local_shuffle ctx key2 d2 w Hw).
        reflexivity. }
    eapply Permutation_trans.
    + apply (join_workers _ _ _ key1 key2 join_function
               (fun w => filter (fun x => Nat.eqb (dest ctx (key1 x)) w) (items ctx d1))
               (fun w => filter (fun x => Nat.eqb (dest ctx (key2 x)) w) (items ctx d2))).
      * apply workers_NoDup.
      * intros i j l r _ _ Hij Hl Hr E.
        apply filter_In in Hl. destruct Hl as [_ Hl].
        apply filter_In in Hr. destruct Hr as [_ Hr].
        apply Nat.eqb_eq in Hl. apply Nat.eqb_eq in Hr.
        rewrite E in Hl. congruence.
    + apply join_local_Permutation.
      * apply (deal_all (fun x => dest ctx (key1 x))); [apply workers_NoDup|].
        intros x _. apply dest_In_workers.
      * apply (deal_all (fun x => dest ctx (key2 x))); [apply workers_NoDup|].
        intros x _. apply dest_In_workers.
Qed.

(** ** The table of ReducePair *)

Section ReduceTable.

Variable V : Type.
Variable f : V -> V -> V.

Lemma keys_reduce_insert (k0 : PageId) (v : V) (t : list (PageId * V)) (k : PageId) :
  In k (keys (reduce_insert f k0 v t)) <-> k = k0 \/ In k (keys t).
Proof.
  induction t as [|[k' v'] t IH]; simpl.
  - intuition congruence.
  - destruct (N.eqb_spec k' k0) as [->|Hne]; simpl.
    + intuition congruence.
    + rewrite IH. intuition congruence.
Qed.

Lemma NoDup_reduce_insert (k0 : PageId) (v : V) (t : list (PageId * V)) :
  NoDup (keys t) -> NoDup (keys (reduce_insert f k0 v t)).
Proof.
  induction t as [|[k' v'] t IH]; simpl; intros Hnd.
  - constructor; [intros []|constructor].
  - inversion Hnd as [|? ? Hk' Hnd']; subst.
    destruct (N.eqb_spec k' k0) as [->|Hne]; simpl.
    + constructor; assumption.
    + constructor; [|apply IH; exact Hnd'].
      intros Hin. apply keys_reduce_insert in Hin.
      destruct Hin as [->|Hin]; [congruence|contradiction].
Qed.

Lemma keys_reduce_from (xs acc : list (PageId * V)) (k : PageId) :
  In k (keys (reduce_from f acc xs)) <-> In k (keys acc) \/ In k (keys xs).
Proof.
  revert acc. induction xs as [|[k0 v] xs IH]; intros acc.
  - simpl. intuition.
  - change (reduce_from f acc ((k0, v) :: xs))
      with (reduce_from f (reduce_insert f k0 v acc) xs).
    rewrite IH, keys_reduce_insert. simpl. intuition congruence.
Qed.

Lemma NoDup_reduce_from (xs acc : list (PageId * V)) :
  NoDup (keys acc) -> NoDup (keys (reduce_from f acc xs)).
Proof.
  revert acc. induction xs as [|[k0 v] xs IH]; intros acc Hnd.
  - exact Hnd.
  - change (reduce_from f acc ((k0, v) :: xs))
      with (reduce_from f (reduce_insert f k0 v acc) xs).
    apply IH. apply NoDup_reduce_insert. exact Hnd.
Qed.

Lemma keys_reduce_local (xs : list (PageId * V)) (k : PageId) :
  In k (keys (reduce_local f xs)) <-> In k (keys xs).
Proof.
  change (reduce_local f xs) with (reduce_from f [] xs).
  rewrite keys_reduce_from. simpl. intuition.
Qed.

Lemma NoDup_reduce_local (xs : list (PageId * V)) :
  NoDup (keys (reduce_local f xs)).
Proof.
  change (reduce_local f xs) with (reduce_from f [] xs).
  apply NoDup_reduce_from. constructor.
Qed.

End ReduceTable.

Lemma NoDup_flat_map_disjoint {A B : Type} (F : A -> list B) (ws : list A) :
  NoDup ws ->
  (forall w, In w ws -> NoDup (F w)) ->
  (forall i j x, In i ws -> In j ws -> i <> j -> In x (F i) -> ~ In x (F j)) ->
  NoDup (flat_map F ws).
Proof.
  intros Hnd. induction Hnd as [|w ws Hw Hnd IH]; intros Hloc Hdis; simpl.
  - constructor.
  - apply NoDup_app.
    + apply Hloc. left. reflexivity.
    + apply IH.
      * intros w' Hw'. apply Hloc. right. exact Hw'.
      * intros i j x Hi Hj. apply Hdis; right; assumption.
    + intros x Hx Hx'. apply in_flat_map in Hx'. destruct Hx' as [j [Hj Hx']].
      apply (Hdis w j x); auto with datatypes. intros ->. contradiction.
Qed.

Lemma items_ReducePair {V : Type} (ctx : Context) (f : V -> V -> V)
  (d : DIA (PageId * V)) :
  items ctx (ReducePair ctx f d)
  = flat_map (fun w => reduce_local f
                         (filter (fun x => Nat.eqb (dest ctx (fst x)) w) (items ctx d)))
             (workers ctx).
Proof.
  unfold ReducePair, shuffle. rewrite map_map. apply items_map_workers.
Qed.

Lemma keys_filter_dest {V : Type} (ctx : Context) (xs : list (PageId * V))
  (w : nat) (k : PageId) :
  In k (keys (filter (fun x => Nat.eqb (dest ctx (fst x)) w) xs))
  <-> In k (keys xs) /\ dest ctx k = w.
Proof.
  rewrite !in_map_iff. split.
  - intros [[k' v] [E Hin]]. simpl in E. subst k'.
    apply filter_In in Hin. destruct Hin as [Hin Hd]. simpl in Hd.
    apply Nat.eqb_eq in Hd. split; [|exact Hd]. exists (k, v). auto.
  - intros [[[k' v] [E Hin]] Hd]. simpl in E. subst k'.
    exists (k, v). split; [reflexivity|]. apply filter_In. split; [exact Hin|].
    simpl. apply Nat.eqb_eq. exact Hd.
Qed.

Lemma keys_ReducePair {V : Type} (ctx : Context) (f : V -> V -> V)
  (d : DIA (PageId * V)) (k : PageId) :
  In k (keys (items ctx (ReducePair ctx f d))) <-> In k (keys (items ctx d)).
Proof.
  rewrite items_ReducePair, map_flat_map_comm, in_flat_map.
  split.
  - intros [w [_ Hk]]. rewrite keys_reduce_local, keys_filter_dest in Hk. tauto.
  - intros Hk. exists (dest ctx k). split; [apply dest_In_workers|].
    rewrite keys_reduce_local, keys_filter_dest. auto.
Qed.

Lemma NoDup_keys_ReducePair {V : Type} (ctx : Context) (f : V -> V -> V)
  (d : DIA (PageId * V)) :
  NoDup (keys (items ctx (ReducePair ctx f d))).
Proof.
  rewrite items_ReducePair, map_flat_map_comm.
  apply NoDup_flat_map_disjoint.
  - apply workers_NoDup.
  - intros w _. apply NoDup_reduce_local.
  - intros i j k _ _ Hij Hi Hj.
    rewrite keys_reduce_local, keys_filter_dest in Hi.
    rewrite keys_reduce_local, keys_filter_dest in Hj.
    destruct Hi as [_ Hi]. destruct Hj as [_ Hj]. congruence.
Qed.

(** ** Exact arithmetic: sums of ranks *)

Section ExactSums.

Local Open Scope Qc_scope.

Lemma Qcsum_app (l1 l2 : list Qc) : Qcsum (l1 ++ l2) = Qcsum l1 + Qcsum l2.
Proof.
  induction l1 as [|x l1 IH]; simpl; [ring|]. rewrite IH. ring.
Qed.

Lemma Qcsum_Permutation (l1 l2 : list Qc) :
  Permutation l1 l2 -> Qcsum l1 = Qcsum l2.
Proof.
  induction 1 as [|x l1 l2 _ IH|x y l|l1 l2 l3 _ IH1 _ IH2]; simpl.
  - reflexivity.
  - rewrite IH. reflexivity.
  - ring.
  - congruence.
Qed.

Lemma Qcsum_flat_map {A : Type} (g : A -> list Qc) (l : list A) :
  Qcsum (flat_map g l) = Qcsum (map (fun a => Qcsum (g a)) l).
Proof.
  induction l as [|a l IH]; simpl; [reflexivity|].
  rewrite Qcsum_app, IH. reflexivity.
Qed.

Lemma Qcsum_map_plus {A : Type} (g h : A -> Qc) (l : list A) :
  Qcsum (map (fun a => g a + h a) l) = Qcsum (map g l) + Qcsum (map h l).
Proof.
  induction l as [|a l IH]; simpl; [ring|]. rewrite IH. ring.
Qed.

Lemma Qcsum_map_scale {A : Type} (c : Qc) (g : A -> Qc) (l : list A) :
  Qcsum (map (fun a => c * g a) l) = c * Qcsum (map g l).
Proof.
  induction l as [|a l IH]; simpl; [ring|]. rewrite IH. ring.
Qed.

Lemma Qcsum_map_const {A : Type} (c : Qc) (l : list A) :
  Qcsum (map (fun _ => c) l) = Q2Qc (inject_Z (Z.of_nat (length l))) * c.
Proof.
  induction l as [|a l IH].
  - change (0 = 0 * c). ring.
  - cbn [map Qcsum fold_right length]. fold (Qcsum (map (fun _ : A => c) l)).
    rewrite IH, Nat2Z.inj_succ.
    assert (E : Q2Qc (inject_Z (Z.succ (Z.of_nat (length l))))
                = Q2Qc (inject_Z (Z.of_nat (length l))) + 1).
    { unfold Qcplus. apply Q2Qc_eq_iff. cbn [this Q2Qc].
      rewrite !Qred_correct. unfold Z.succ. rewrite inject_Z_plus. reflexivity. }
    rewrite E. ring.
Qed.

(** A value added at one index of a sum over distinct indices. *)
Lemma Qcsum_map_spike (k : N) (v : Qc) (g : N -> Qc) (l : list N) :
  NoDup l -> In k l ->
  Qcsum (map (fun i => (if N.eqb k i then v else 0) + g i) l)
  = v + Qcsum (map g l).
Proof.
  intros Hnd. induction Hnd as [|i l Hi Hnd IH]; intros Hin; [destruct Hin|].
  simpl. destruct (N.eqb_spec k i) as [->|Hne].
  - assert (E : Qcsum (map (fun i0 => (if N.eqb i i0 then v else 0) + g i0) l)
                = Qcsum (map g l)).
    { f_equal. apply map_ext_in. intros j Hj.
      destruct (N.eqb_spec i j) as [->|_]; [contradiction|ring]. }
    rewrite E. ring.
  - destruct Hin as [->|Hin]; [congruence|]. rewrite IH by exact Hin. ring.
Qed.

(** Sums taken index by index add up to the sum of everything, when every
    key is one of the indices. *)
Lemma Qcsum_by_index {A : Type} (key : A -> N) (val : A -> Qc) (n : N)
  (xs : list A) :
  (forall x, In x xs -> (key x < n)%N) ->
  Qcsum (map (fun i => Qcsum (map val (filter (fun x => N.eqb (key x) i) xs)))
             (indices n))
  = Qcsum (map val xs).
Proof.
  induction xs as [|x xs IH]; intros Hin.
  - simpl. rewrite (Qcsum_map_const 0). ring.
  - simpl. rewrite <- IH by (intros y Hy; apply Hin; right; exact Hy).
    rewrite <- (Qcsum_map_spike (key x) (val x)).
    + f_equal. apply map_ext. intros i.
      destruct (N.eqb (key x) i); simpl; ring.
    + apply NoDup_indices.
    + apply In_indices. apply Hin. left. reflexivity.
Qed.

Lemma total_for_cons (k k' : PageId) (v' : Qc) (xs : list (PageId * Qc)) :
  total_for k ((k', v') :: xs)
  = (if N.eqb k' k then v' else 0) + total_for k xs.
Proof.
  unfold total_for. simpl. destruct (N.eqb k' k); simpl; ring.
Qed.

Lemma total_for_absent (k : PageId) (xs : list (PageId * Qc)) :
  ~ In k (keys xs) -> total_for k xs = 0.
Proof.
  unfold total_for. induction xs as [|[k' v'] xs IH]; simpl; intros H.
  - reflexivity.
  - destruct (N.eqb_spec k' k) as [->|_]; [exfalso; apply H; left; reflexivity|].
    apply IH. intros Hin. apply H. right. exact Hin.
Qed.

Lemma total_for_Permutation (k : PageId) (xs ys : list (PageId * Qc)) :
  Permutation xs ys -> total_for k xs = total_for k ys.
Proof.
  intros H. unfold total_for.
  apply Qcsum_Permutation, Permutation_map, Permutation_filter_pred. exact H.
Qed.

Lemma total_reduce_insert (k k0 : PageId) (v : Qc) (t : list (PageId * Qc)) :
  total_for k (reduce_insert Qcplus k0 v t)
  = total_for k t + (if N.eqb k0 k then v else 0).
Proof.
  unfold total_for. induction t as [|[k' v'] t IH]; simpl.
  - destruct (N.eqb k0 k); simpl; ring.
  - destruct (N.eqb_spec k' k0) as [->|Hne]; simpl.
    + destruct (N.eqb k0 k); simpl; ring.
    + destruct (N.eqb k' k); simpl; rewrite IH; ring.
Qed.

Lemma total_reduce_from (k : PageId) (xs acc : list (PageId * Qc)) :
  total_for k (reduce_from Qcplus acc xs) = total_for k acc + total_for k xs.
Proof.
  revert acc. induction xs as [|[k0 v] xs IH]; intros acc.
  - simpl. unfold total_for at 3. simpl. ring.
  - change (reduce_from Qcplus acc ((k0, v) :: xs))
      with (reduce_from Qcplus (reduce_insert Qcplus k0 v acc) xs).
    rewrite IH, total_reduce_insert. unfold total_for. simpl.
    destruct (N.eqb k0 k); simpl; ring.
Qed.

Lemma total_reduce_local (k : PageId) (xs : list (PageId * Qc)) :
  total_for k (reduce_local Qcplus xs) = total_for k xs.
Proof.
  change (reduce_local Qcplus xs) with (reduce_from Qcplus [] xs).
  rewrite total_reduce_from. unfold total_for at 1. simpl. ring.
Qed.

(** A table without a repeated key holds, for each of its keys, the total. *)
Lemma table_In (t : list (PageId * Qc)) (k : PageId) (v : Qc) :
  NoDup (keys t) -> (In (k, v) t <-> In k (keys t) /\ v = total_for k t).
Proof.
  induction t as [|[k' v'] t IH]; simpl; intros Hnd.
  - tauto.
  - inversion Hnd as [|? ? Hk' Hnd']; subst. specialize (IH Hnd').
    rewrite total_for_cons.
    destruct (N.eqb_spec k' k) as [->|Hne].
    + rewrite (total_for_absent _ _ Hk'). split.
      * intros [E|Hin].
        -- injection E as ->. split; [left; reflexivity|ring].
        -- exfalso. apply Hk'. apply in_map_iff. exists (k, v). auto.
      * intros [_ ->]. left. f_equal. ring.
    + rewrite Qcplus_0_l, IH. split.
      * intros [E|H]; [congruence|tauto].
      * intros [[E|H] Hv]; [congruence|tauto].
Qed.

End ExactSums.

(** ** ReducePair in exact arithmetic *)

Section ExactReducePair.

Local Open Scope Qc_scope.

Variable ctx : Context.

Lemma total_filter_dest (k : PageId) (w : nat) (xs : list (PageId * Qc)) :
  dest ctx k = w ->
  total_for k (filter (fun x => Nat.eqb (dest ctx (fst x)) w) xs) = total_for k xs.
Proof.
  intros Hd. induction xs as [|[k' v'] xs IH]; [reflexivity|].
  cbn [filter fst]. rewrite total_for_cons.
  destruct (Nat.eqb_spec (dest ctx k') w) as [E|Hne].
  - rewrite total_for_cons, IH. reflexivity.
  - rewrite IH. destruct (N.eqb_spec k' k) as [->|_]; [contradiction|ring].
Qed.

(** The output of ReducePair with addition: one pair per key that occurs,
    holding the sum of the key's values. *)
Lemma ReducePair_In (d : DIA (PageId * Qc)) (k : PageId) (v : Qc) :
  In (k, v) (items ctx (ReducePair ctx Qcplus d))
  <-> In k (keys (items ctx d)) /\ v = total_for k (items ctx d).
Proof.
  rewrite items_ReducePair, in_flat_map. split.
  - intros [w [_ Hin]].
    apply table_In in Hin; [|apply NoDup_reduce_local].
    rewrite keys_reduce_local, keys_filter_dest, total_reduce_local in Hin.
    destruct Hin as [[Hk Hd] ->]. split; [exact Hk|].
    apply total_filter_dest. exact Hd.
  - intros [Hk ->]. exists (dest ctx k). split; [apply dest_In_workers|].
    apply table_In; [apply NoDup_reduce_local|].
    rewrite keys_reduce_local, keys_filter_dest, total_reduce_local.
    split; [auto|]. symmetry. apply total_filter_dest. reflexivity.
Qed.

Lemma ReducePair_Permutation (d d' : DIA (PageId * Qc)) :
  Permutation (items ctx d) (items ctx d') ->
  Permutation (items ctx (ReducePair ctx Qcplus d))
              (items ctx (ReducePair ctx Qcplus d')).
Proof.
  intros H. apply NoDup_Permutation.
  - apply (NoDup_map_inv fst). apply NoDup_keys_ReducePair.
  - apply (NoDup_map_inv fst). apply NoDup_keys_ReducePair.
  - intros [k v]. rewrite !ReducePair_In.
    rewrite (total_for_Permutation k _ _ H). split.
    + intros [Hk Hv]. split; [|exact Hv].
      eapply Permutation_in; [apply Permutation_map, H|exact Hk].
    + intros [Hk Hv]. split; [|exact Hv].
      eapply Permutation_in; [apply Permutation_map, Permutation_sym, H|exact Hk].
Qed.

(** A round of either join variant sees its inputs as multisets. *)
Lemma join_round_Permutation (flag flag' : bool) (links : DIA LinkedPage)
  (ranks ranks' : DIA (RankedPage Qc)) (g : PageRankStdPair Qc -> RankedPage Qc) :
  Permutation (items ctx ranks) (items ctx ranks') ->
  Permutation
    (items ctx
       (Map g (ReducePair ctx Qcplus
                 (FlatMap join_contributions
                    (InnerJoin ctx flag links ranks
                               (fun lp : LinkedPage => fst lp)
                               (fun rp : RankedPage Qc => fst rp)
                               (fun lp rp => (snd lp, snd rp)))))))
    (items ctx
       (Map g (ReducePair ctx Qcplus
                 (FlatMap join_contributions
                    (InnerJoin ctx flag' links ranks'
                               (fun lp : LinkedPage => fst lp)
                               (fun rp : RankedPage Qc => fst rp)
                               (fun lp rp => (snd lp, snd rp))))))).
Proof.
  intros H. rewrite !items_Map. apply Permutation_map.
  apply ReducePair_Permutation. rewrite !items_FlatMap.
  apply Permutation_flat_map.
  eapply Permutation_trans; [apply items_InnerJoin|].
  eapply Permutation_trans; [|apply Permutation_sym, items_InnerJoin].
  apply join_local_Permutation; [apply Permutation_refl|exact H].
Qed.

Lemma PageRankJoinSelf_flag (flag flag' : bool) (links : DIA LinkedPage)
  (iterations : N) :
  Permutation (items ctx (PageRankJoinSelf ctx flag links iterations))
              (items ctx (PageRankJoinSelf ctx flag' links iterations)).
Proof.
  unfold PageRankJoinSelf.
  induction iterations as [|n IH] using N.peano_ind.
  - apply Permutation_refl.
  - rewrite !N.iter_succ. apply (join_round_Permutation _ _ _ _ _ dampen_self IH).
Qed.

Lemma PageRankJoin_flag (flag flag' : bool) (links : DIA LinkedPage)
  (num_pages iterations : N) :
  Permutation (items ctx (PageRankJoin ctx flag links num_pages iterations))
              (items ctx (PageRankJoin ctx flag' links num_pages iterations)).
Proof.
  unfold PageRankJoin.
  induction iterations as [|n IH] using N.peano_ind.
  - apply Permutation_refl.
  - rewrite !N.iter_succ.
    apply (join_round_Permutation _ _ _ _ _ (dampen_join (rk_of_size num_pages)) IH).
Qed.

End ExactReducePair.

(** C1, as amended. InnerJoin yields the same multiset of records with
    location detection as without, for all collections, key functions and
    join function; with the rank sums taken in exact arithmetic,
    [PageRankJoinSelf] and [PageRankJoin] therefore end with the same
    multiset of (page, rank) records under either setting of the flag. In
    binary64 the ranks agree up to rounding only. *)
Theorem location_detection_keeps_results :
  (forall (A B C : Type) (ctx : Context) (d1 : DIA A) (d2 : DIA B)
          (key1 : A -> PageId) (key2 : B -> PageId) (join_function : A -> B -> C),
      Permutation (items ctx (InnerJoin ctx true d1 d2 key1 key2 join_function))
                  (items ctx (InnerJoin ctx false d1 d2 key1 key2 join_function)))
  /\ (forall (ctx : Context) (links : DIA LinkedPage) (iterations : N),
         Permutation
           (items ctx (PageRankJoinSelf (Rank := Qc) ctx true links iterations))
           (items ctx (PageRankJoinSelf (Rank := Qc) ctx false links iterations)))
  /\ (forall (ctx : Context) (links : DIA LinkedPage) (num_pages iterations : N),
         Permutation
           (items ctx (PageRankJoin (Rank := Qc) ctx true links num_pages iterations))
           (items ctx (PageRankJoin (Rank := Qc) ctx false links num_pages iterations))).
Proof.
  split; [|split].
  - intros A B C ctx d1 d2 key1 key2 join_function.
    eapply Permutation_trans; [apply items_InnerJoin|].
    apply Permutation_sym, items_InnerJoin.
  - intros ctx links iterations. apply PageRankJoinSelf_flag.
  - intros ctx links num_pages iterations. apply PageRankJoin_flag.
Qed.

(** C1, the claim as stated fails in binary64: the three contributions to
    page 0, 1, 1 and 1/3, are added as (1 + 1) + 1/3 where the records are
    joined in place and as (1 + 1/3) + 1 after the shuffle, and the two
    sums round differently. *)
Lemma detection_changes_the_rounding :
  PageRankJoinSelf (Rank := float) two_workers true three_sources 1
  = [[(0%N, 0x1.1111111111111p+1%float); (6%N, 0x1.bbbbbbbbbbbbcp-2%float)];
     [(5%N, 0x1.bbbbbbbbbbbbcp-2%float)]]
  /\ PageRankJoinSelf (Rank := float) two_workers false three_sources 1
     = [[(0%N, 0x1.1111111111110p+1%float); (6%N, 0x1.bbbbbbbbbbbbcp-2%float)];
        [(5%N, 0x1.bbbbbbbbbbbbcp-2%float)]]
  /\ ~ Permutation
        (items two_workers
               (PageRankJoinSelf (Rank := float) two_workers true three_sources 1))
        (items two_workers
               (PageRankJoinSelf (Rank := float) two_workers false three_sources 1)).
Proof.
  assert (E1 : PageRankJoinSelf (Rank := float) two_workers true three_sources 1
               = [[(0%N, 0x1.1111111111111p+1%float);
                   (6%N, 0x1.bbbbbbbbbbbbcp-2%float)];
                  [(5%N, 0x1.bbbbbbbbbbbbcp-2%float)]])
    by (vm_compute; reflexivity).
  assert (E2 : PageRankJoinSelf (Rank := float) two_workers false three_sources 1
               = [[(0%N, 0x1.1111111111110p+1%float);
                   (6%N, 0x1.bbbbbbbbbbbbcp-2%float)];
                  [(5%N, 0x1.bbbbbbbbbbbbcp-2%float)]])
    by (vm_compute; reflexivity).
  split; [exact E1|]. split; [exact E2|].
  rewrite E1, E2. intros H.
  assert (Hin : In (0%N, 0x1.1111111111111p+1%float)
                   (items two_workers
                      [[(0%N, 0x1.1111111111110p+1%float);
                        (6%N, 0x1.bbbbbbbbbbbbcp-2%float)];
                       [(5%N, 0x1.bbbbbbbbbbbbcp-2%float)]])).
  { eapply Permutation_in; [exact H|]. left. reflexivity. }
  vm_compute in Hin.
  destruct Hin as [E|[E|[E|[]]]]; discriminate E.
Qed.

(** ** Looking a key up in the table of ReducePair *)

Section TableLookup.

Variable V : Type.
Variable f : V -> V -> V.

Lemma table_get_insert (k k0 : PageId) (v : V) (t : list (PageId * V)) :
  table_get k (reduce_insert f k0 v t)
  = if N.eqb k0 k
    then Some (match table_get k0 t with Some v0 => f v0 v | None => v end)
    else table_get k t.
Proof.
  induction t as [|[k' v'] t IH]; simpl.
  - destruct (N.eqb k0 k); reflexivity.
  - destruct (N.eqb_spec k' k0) as [->|Hne]; simpl.
    + destruct (N.eqb k0 k); reflexivity.
    + rewrite IH. destruct (N.eqb_spec k' k) as [->|Hne'].
      * destruct (N.eqb_spec k0 k) as [->|_]; [congruence|reflexivity].
      * reflexivity.
Qed.

Lemma values_of_cons (k k0 : PageId) (v : V) (xs : list (PageId * V)) :
  values_of k ((k0, v) :: xs)
  = if N.eqb k0 k then v :: values_of k xs else values_of k xs.
Proof. unfold values_of. simpl. destruct (N.eqb k0 k); reflexivity. Qed.

Lemma table_get_reduce_from (k : PageId) (xs acc : list (PageId * V)) :
  table_get k (reduce_from f acc xs)
  = match table_get k acc with
    | Some a => Some (fold_left f (values_of k xs) a)
    | None => folded f (values_of k xs)
    end.
Proof.
  revert acc. induction xs as [|[k0 v] xs IH]; intros acc.
  - simpl. destruct (table_get k acc); reflexivity.
  - change (reduce_from f acc ((k0, v) :: xs))
      with (reduce_from f (reduce_insert f k0 v acc) xs).
    rewrite IH, table_get_insert, values_of_cons.
    destruct (N.eqb_spec k0 k) as [->|Hne].
    + destruct (table_get k acc); reflexivity.
    + reflexivity.
Qed.

Lemma table_get_In (t : list (PageId * V)) (k : PageId) (v : V) :
  NoDup (keys t) -> (In (k, v) t <-> table_get k t = Some v).
Proof.
  induction t as [|[k' v'] t IH]; simpl; intros Hnd.
  - split; [intros []|discriminate].
  - inversion Hnd as [|? ? Hk' Hnd']; subst. specialize (IH Hnd').
    destruct (N.eqb_spec k' k) as [->|Hne].
    + split.
      * intros [E|Hin]; [congruence|].
        exfalso. apply Hk'. apply in_map_iff. exists (k, v). auto.
      * intros E. left. congruence.
    + rewrite <- IH. split.
      * intros [E|H]; [congruence|exact H].
      * intros H. right. exact H.
Qed.

Lemma reduce_local_In (xs : list (PageId * V)) (k : PageId) (v : V) :
  In (k, v) (reduce_local f xs) <-> folded f (values_of k xs) = Some v.
Proof.
  rewrite table_get_In by apply NoDup_reduce_local.
  change (reduce_local f xs) with (reduce_from f [] xs).
  rewrite table_get_reduce_from. reflexivity.
Qed.

Lemma values_of_filter_dest (ctx : Context) (k : PageId) (w : nat)
  (xs : list (PageId * V)) :
  dest ctx k = w ->
  values_of k (filter (fun x => Nat.eqb (dest ctx (fst x)) w) xs) = values_of k xs.
Proof.
  intros Hd. induction xs as [|[k' v'] xs IH]; [reflexivity|].
  cbn [filter fst]. rewrite values_of_cons.
  destruct (Nat.eqb_spec (dest ctx k') w) as [E|Hne].
  - rewrite values_of_cons, IH. reflexivity.
  - rewrite IH. destruct (N.eqb_spec k' k) as [->|_]; [contradiction|reflexivity].
Qed.

Lemma values_of_nonempty (k : PageId) (xs : list (PageId * V)) :
  values_of k xs <> [] <-> In k (keys xs).
Proof.
  induction xs as [|[k' v'] xs IH]; simpl.
  - unfold values_of. simpl. tauto.
  - rewrite values_of_cons. destruct (N.eqb_spec k' k) as [->|Hne].
    + split; [auto|discriminate].
    + rewrite IH. split; [auto|]. intros [E|H]; [contradiction|exact H].
Qed.

(** ReducePair, read off its input: the key's values folded in the order
    in which the input holds them. *)
Lemma ReducePair_folded (ctx : Context) (d : DIA (PageId * V)) (k : PageId) (v : V) :
  In (k, v) (items ctx (ReducePair ctx f d))
  <-> folded f (values_of k (items ctx d)) = Some v.
Proof.
  rewrite items_ReducePair, in_flat_map. split.
  - intros [w [_ Hin]].
    assert (Hk : In k (keys (reduce_local f
              (filter (fun x => Nat.eqb (dest ctx (fst x)) w) (items ctx d)))))
      by (apply in_map_iff; exists (k, v); auto).
    rewrite keys_reduce_local, keys_filter_dest in Hk. destruct Hk as [_ Hd].
    apply reduce_local_In in Hin.
    rewrite values_of_filter_dest in Hin by exact Hd. exact Hin.
  - intros H. exists (dest ctx k). split; [apply dest_In_workers|].
    apply reduce_local_In.
    rewrite values_of_filter_dest by reflexivity. exact H.
Qed.

End TableLookup.

(** ** The index-based round computes the spec's round *)

Lemma filter_map_comm {A B : Type} (p : B -> bool) (g : A -> B) (l : list A) :
  filter p (map g l) = map g (filter (fun a => p (g a)) l).
Proof.
  induction l as [|a l IH]; simpl; [reflexivity|].
  rewrite IH. destruct (p (g a)); reflexivity.
Qed.

Lemma forallb_map_comm {A B : Type} (p : B -> bool) (g : A -> B) (l : list A) :
  forallb p (map g l) = forallb (fun a => p (g a)) l.
Proof.
  induction l as [|a l IH]; simpl; [reflexivity|]. rewrite IH. reflexivity.
Qed.

Lemma map_pair_eta {A B : Type} (l : list (A * B)) :
  map (fun p => (fst p, snd p)) l = l.
Proof.
  induction l as [|[a b] l IH]; simpl; [reflexivity|]. rewrite IH. reflexivity.
Qed.

Section IndexRound.

Context {Rank : Type} {RA : RankArith Rank}.

Local Open Scope rank_scope.

Lemma contributions_spec (p : OutgoingLinksRank Rank) :
  map to_pair (contributions p) = spec_contributions p.
Proof.
  unfold contributions, contributions_observed, divide_by_size, spec_contributions.
  destruct p as [ol r]. cbn [fst snd].
  destruct ol as [|t ol]; [reflexivity|].
  destruct (N.eqb_spec (N.of_nat (length (t :: ol))) 0) as [E|_].
  - simpl in E. lia.
  - cbn [fst snd]. rewrite map_map. reflexivity.
Qed.

Lemma join_contributions_spec (p : OutgoingLinksRank Rank) :
  join_contributions p = spec_contributions p.
Proof.
  unfold join_contributions, join_contributions_observed, divide_by_size,
    spec_contributions.
  destruct p as [ol r]. cbn [fst snd].
  destruct ol as [|t ol]; [reflexivity|].
  destruct (N.ltb_spec 0 (N.of_nat (length (t :: ol)))) as [_|E].
  - reflexivity.
  - simpl in E. lia.
Qed.

Lemma all_contributions_spec (l : list (OutgoingLinksRank Rank)) :
  map to_pair (flat_map contributions l) = flat_map spec_contributions l.
Proof.
  rewrite map_flat_map_comm. apply flat_map_ext. intros p.
  apply contributions_spec.
Qed.

Lemma rank_fold_add_pairs (rest : list (PageRankPair Rank)) (x : PageRankPair Rank) :
  rank (fold_left add_pairs rest x) = fold_left rk_add (map rank rest) (rank x).
Proof.
  revert x. induction rest as [|y rest IH]; intros x; simpl; [reflexivity|].
  rewrite IH. reflexivity.
Qed.

Lemma reduce_slot_rawTotal (recs : list (PageRankPair Rank)) (i : PageId) :
  rank (reduce_slot add_pairs {| page := 0%N; rank := rk0 |}
                    (filter (fun c => N.eqb (page c) i) recs))
  = rawTotal (map to_pair recs) i.
Proof.
  unfold rawTotal, values_of.
  rewrite (filter_map_comm (fun c => N.eqb (fst c) i) to_pair), map_map.
  cbn [to_pair fst snd].
  destruct (filter (fun c => N.eqb (page c) i) recs) as [|x rest]; simpl.
  - reflexivity.
  - apply rank_fold_add_pairs.
Qed.

(** The round succeeds exactly when the two collections have the same size
    and every contribution lands on an index below [num_pages]; it then
    yields the spec's round. *)
Lemma PageRank_iteration_char (ctx : Context) (links : DIA OutgoingLinks)
  (num_pages : N) (ranks : DIA Rank) :
  PageRank_iteration ctx links num_pages ranks
  = if Nat.eqb (length (items ctx links)) (length (items ctx ranks))
    then
      if forallb (fun c => N.ltb (fst c) num_pages)
                 (flat_map spec_contributions
                           (combine (items ctx links) (items ctx ranks)))
      then Ok (Map (dampen_index (rk_of_size num_pages))
                   (range_split ctx
                      (map (fun i =>
                              reduce_slot add_pairs {| page := 0%N; rank := rk0 |}
                                (filter (fun c => N.eqb (page c) i)
                                   (flat_map contributions
                                      (combine (items ctx links) (items ctx ranks)))))
                           (indices num_pages))))
      else Die KeyRangeViolation
    else Die ZipSizeMismatch.
Proof.
  unfold PageRank_iteration, Zip.
  destruct (Nat.eqb (length (items ctx links)) (length (items ctx ranks)));
    [|reflexivity].
  cbn [bind]. unfold ReduceToIndex.
  rewrite items_FlatMap, items_range_split, map_pair_eta.
  rewrite <- all_contributions_spec, forallb_map_comm. cbn [to_pair fst].
  destruct (forallb _ _); reflexivity.
Qed.

Lemma PageRank_iteration_spec (ctx : Context) (links : DIA OutgoingLinks)
  (num_pages : N) (ranks ranks' : DIA Rank) :
  PageRank_iteration ctx links num_pages ranks = Ok ranks' ->
  items ctx ranks' = spec_round (items ctx links) num_pages (items ctx ranks).
Proof.
  rewrite PageRank_iteration_char.
  destruct (Nat.eqb _ _); [|discriminate].
  destruct (forallb _ _); [|discriminate].
  intros E. injection E as <-.
  rewrite items_Map, items_range_split, map_map. unfold spec_round.
  apply map_ext. intros i. unfold dampen_index, newRank.
  change (fun p1 p2 : PageRankPair Rank =>
            {| page := page p1; rank := rank p1 + rank p2 |}) with add_pairs.
  rewrite reduce_slot_rawTotal, all_contributions_spec. reflexivity.
Qed.

Lemma PageRank_iteration_total (ctx : Context) (links : DIA OutgoingLinks)
  (num_pages : N) (ranks : DIA Rank) :
  length (items ctx links) = length (items ctx ranks) ->
  (forall ol t, In ol (items ctx links) -> In t ol -> (t < num_pages)%N) ->
  exists ranks', PageRank_iteration ctx links num_pages ranks = Ok ranks'.
Proof.
  intros Hlen Hin. rewrite PageRank_iteration_char.
  rewrite Hlen, Nat.eqb_refl.
  match goal with
  | |- context [forallb ?p ?l] => assert (E : forallb p l = true)
  end.
  { apply forallb_forall. intros [t v] Hc. apply in_flat_map in Hc.
    destruct Hc as [[ol r] [Hp Hc]]. unfold spec_contributions in Hc.
    apply in_map_iff in Hc. destruct Hc as [t' [E Ht']]. simpl in E, Ht'.
    injection E as <- _. simpl. apply N.ltb_lt.
    apply (Hin ol); [|exact Ht']. eapply in_combine_l. exact Hp. }
  rewrite E. eexists. reflexivity.
Qed.

Lemma length_spec_round (links : list OutgoingLinks) (num_pages : N)
  (ranks : list Rank) :
  length (spec_round links num_pages ranks) = N.to_nat num_pages.
Proof. unfold spec_round. rewrite length_map. apply length_indices. Qed.

End IndexRound.

(** ** The loops *)

Section Loops.

Context {Rank : Type} {RA : RankArith Rank}.

Local Open Scope rank_scope.

Lemma PageRank_zero (ctx : Context) (links : DIA OutgoingLinks) (num_pages : N) :
  PageRank ctx links num_pages 0
  = Ok (Generate ctx num_pages (fun _ => rk1 / rk_of_size num_pages)).
Proof. reflexivity. Qed.

Lemma PageRank_succ (ctx : Context) (links : DIA OutgoingLinks)
  (num_pages iterations : N) :
  PageRank ctx links num_pages (N.succ iterations)
  = (ranks <- PageRank ctx links num_pages iterations ;;
     PageRank_iteration ctx links num_pages ranks).
Proof. unfold PageRank. rewrite N.iter_succ. reflexivity. Qed.

(** [PageRank] runs through when [links] holds one list per page and every
    target is a page; the ranks it returns are one per page. *)
Lemma PageRank_total (ctx : Context) (links : DIA OutgoingLinks)
  (num_pages iterations : N) :
  length (items ctx links) = N.to_nat num_pages ->
  (forall ol t, In ol (items ctx links) -> In t ol -> (t < num_pages)%N) ->
  exists ranks,
    PageRank ctx links num_pages iterations = Ok ranks
    /\ length (items ctx ranks) = N.to_nat num_pages.
Proof.
  intros Hlen Hin. induction iterations as [|n IH] using N.peano_ind.
  - eexists. split; [apply PageRank_zero|].
    rewrite items_Generate, length_map. apply length_indices.
  - destruct IH as [ranks [E Hr]]. rewrite PageRank_succ, E. cbn [bind].
    destruct (PageRank_iteration_total ctx links num_pages ranks) as [ranks' E'];
      [congruence|exact Hin|].
    exists ranks'. split; [exact E'|].
    rewrite (PageRank_iteration_spec _ _ _ _ _ E'). apply length_spec_round.
Qed.

Lemma ReducePair_rawTotal (ctx : Context) (d : DIA (PageId * Rank))
  (k : PageId) (v : Rank) :
  In (k, v) (items ctx (ReducePair ctx rk_add d))
  <-> In k (keys (items ctx d)) /\ v = rawTotal (items ctx d) k.
Proof.
  rewrite ReducePair_folded, <- values_of_nonempty. unfold rawTotal.
  destruct (values_of k (items ctx d)) as [|x rest]; simpl.
  - split; [discriminate|]. intros [H _]. contradiction.
  - split.
    + intros E. injection E as <-. split; [discriminate|reflexivity].
    + intros [_ ->]. reflexivity.
Qed.

Lemma In_map_second {A B : Type} (g : B -> B) (l : list (A * B)) (a : A) (b : B) :
  In (a, b) (map (fun p => (fst p, g (snd p))) l)
  <-> exists b0, In (a, b0) l /\ b = g b0.
Proof.
  rewrite in_map_iff. split.
  - intros [[a' b'] [E H]]. simpl in E. injection E as <- <-. exists b'. auto.
  - intros [b0 [H ->]]. exists (a, b0). auto.
Qed.

End Loops.

Lemma rational_of_size_nonzero (k : N) :
  k <> 0%N -> rk_of_size (Rank := Qc) k <> Q2Qc 0.
Proof.
  intros Hk E. cbn [rk_of_size rational] in E. apply Q2Qc_eq_iff in E.
  unfold Qeq in E. simpl in E. lia.
Qed.

Section ContributionStage.

Context {Rank : Type} {RA : RankArith Rank}.

Local Open Scope rank_scope.

Lemma contributions_observed_nil (r : Rank) :
  contributions_observed (([] : OutgoingLinks), r) = ([], [])
  /\ join_contributions_observed (([] : OutgoingLinks), r) = ([], []).
Proof. split; reflexivity. Qed.

Lemma contributions_observed_cons (ol : OutgoingLinks) (r : Rank) :
  ol <> [] ->
  N.of_nat (length ol) <> 0%N
  /\ contributions_observed (ol, r)
     = ([N.of_nat (length ol)],
        map (fun t => {| page := t; rank := r / rk_of_size (N.of_nat (length ol)) |})
            ol)
  /\ join_contributions_observed (ol, r)
     = ([N.of_nat (length ol)],
        map (fun t => (t, r / rk_of_size (N.of_nat (length ol)))) ol).
Proof.
  intros Hne. destruct ol as [|t ol]; [congruence|].
  assert (Hk : N.of_nat (length (t :: ol)) <> 0%N) by (simpl; lia).
  split; [exact Hk|].
  unfold contributions_observed, join_contributions_observed, divide_by_size.
  cbn [fst snd].
  destruct (N.eqb_spec (N.of_nat (length (t :: ol))) 0) as [E|_]; [contradiction|].
  destruct (N.ltb_spec 0 (N.of_nat (length (t :: ol)))) as [_|E]; [|lia].
  split; reflexivity.
Qed.

(** The divisions of a FlatMap stage: one for each record with a link, by
    the number of its links. *)
Lemma stage_divisors (ctx : Context) (d : DIA (OutgoingLinksRank Rank)) :
  fst (FlatMap_observed ctx contributions_observed d)
  = map links_of (filter has_link (items ctx d))
  /\ fst (FlatMap_observed ctx join_contributions_observed d)
     = map links_of (filter has_link (items ctx d)).
Proof.
  unfold FlatMap_observed. cbn [fst].
  induction (items ctx d) as [|[ol r] l [IH1 IH2]]; [split; reflexivity|].
  cbn [flat_map filter map]. rewrite IH1, IH2.
  destruct ol as [|t ol].
  - split; reflexivity.
  - destruct (contributions_observed_cons (t :: ol) r) as [_ [E1 E2]];
      [discriminate|].
    rewrite E1, E2. split; reflexivity.
Qed.

Lemma stage_records (ctx : Context) (d : DIA (OutgoingLinksRank Rank)) :
  items ctx (snd (FlatMap_observed ctx contributions_observed d))
  = flat_map (fun p => map (fun t => {| page := t;
                                        rank := snd p / rk_of_size (links_of p) |})
                           (fst p))
             (items ctx d)
  /\ items ctx (snd (FlatMap_observed ctx join_contributions_observed d))
     = flat_map (fun p => map (fun t => (t, snd p / rk_of_size (links_of p))) (fst p))
                (items ctx d).
Proof.
  unfold FlatMap_observed. cbn [snd]. rewrite !items_FlatMap.
  split; apply flat_map_ext; intros [ol r]; unfold links_of; cbn [fst snd];
    (destruct ol as [|t ol]; [reflexivity|]);
    destruct (contributions_observed_cons (t :: ol) r) as [_ [E1 E2]];
    try discriminate; [rewrite E1|rewrite E2]; reflexivity.
Qed.

Lemma divisors_nonzero (l : list (OutgoingLinksRank Rank)) :
  ~ In 0%N (map links_of (filter has_link l)).
Proof.
  intros H. apply in_map_iff in H. destruct H as [[ol r] [E H]].
  apply filter_In in H. destruct H as [_ H].
  unfold links_of, has_link in *. cbn [fst] in *.
  destruct ol; [discriminate H|simpl in E; lia].
Qed.

End ContributionStage.

(** C7. In the FlatMap stage of every variant a record with an empty list of
    outgoing links emits nothing and evaluates no division; a record with
    [k > 0] links and rank [r] evaluates one division, by [k], and emits
    exactly [k] records, one per target in order, each valued [r/k]. Over a
    whole collection the stage divides once for each record that has a
    link, never by zero, and emits the records of all its records. The
    round of each variant feeds the records of this stage to its reduce
    operator, and no round divides by zero. *)
Theorem contribution_stage :
  forall (Rank : Type) (RA : RankArith Rank) (ctx : Context),
    (forall (ol : OutgoingLinks) (r : Rank),
        (ol = [] ->
         contributions_observed (ol, r) = ([], [])
         /\ join_contributions_observed (ol, r) = ([], []))
        /\ (ol <> [] ->
            N.of_nat (length ol) <> 0%N
            /\ contributions_observed (ol, r)
               = ([N.of_nat (length ol)],
                  map (fun t => {| page := t;
                                   rank := (r / rk_of_size (N.of_nat (length ol)))%rk |})
                      ol)
            /\ join_contributions_observed (ol, r)
               = ([N.of_nat (length ol)],
                  map (fun t => (t, (r / rk_of_size (N.of_nat (length ol)))%rk)) ol)
            /\ length (contributions (ol, r)) = length ol
            /\ length (join_contributions (ol, r)) = length ol))
    /\ (forall d : DIA (OutgoingLinksRank Rank),
           fst (FlatMap_observed ctx contributions_observed d)
           = map links_of (filter has_link (items ctx d))
           /\ fst (FlatMap_observed ctx join_contributions_observed d)
              = map links_of (filter has_link (items ctx d))
           /\ ~ In 0%N (fst (FlatMap_observed ctx contributions_observed d))
           /\ ~ In 0%N (fst (FlatMap_observed ctx join_contributions_observed d))
           /\ items ctx (FlatMap contributions d)
              = flat_map (fun p =>
                            map (fun t => {| page := t;
                                             rank := (snd p / rk_of_size (links_of p))%rk |})
                                (fst p))
                         (items ctx d)
           /\ items ctx (FlatMap join_contributions d)
              = flat_map (fun p =>
                            map (fun t => (t, (snd p / rk_of_size (links_of p))%rk))
                                (fst p))
                         (items ctx d))
    /\ (forall (links : DIA OutgoingLinks) (num_pages : N) (ranks : DIA Rank),
           PageRank_iteration ctx links num_pages ranks
           = (contribs <- PageRank_contribs ctx links ranks ;;
              reduced <- ReduceToIndex ctx (fun p => page p)
                           (fun p1 p2 => {| page := page p1;
                                            rank := (rank p1 + rank p2)%rk |})
                           num_pages {| page := 0%N; rank := rk0 |} (snd contribs) ;;
              Ok (Collapse (Map (dampen_index (rk_of_size num_pages)) reduced)))
           /\ forall contribs,
               PageRank_contribs ctx links ranks = Ok contribs ->
               ~ In 0%N (fst contribs))
    /\ (forall (flag : bool) (links : DIA LinkedPage) (ranks : DIA (RankedPage Rank)),
           PageRankJoinSelf_iteration ctx flag links ranks
           = Collapse (Map dampen_self
                           (ReducePair ctx rk_add
                              (snd (PageRankJoinSelf_contribs ctx flag links ranks))))
           /\ ~ In 0%N (fst (PageRankJoinSelf_contribs ctx flag links ranks)))
    /\ (forall (flag : bool) (links : DIA LinkedPage) (num_pages : N)
               (ranks : DIA (RankedPage Rank)),
           PageRankJoin_iteration ctx flag links num_pages ranks
           = Collapse (Map (dampen_join (rk_of_size num_pages))
                           (ReducePair ctx rk_add
                              (snd (PageRankJoin_contribs ctx flag links ranks))))
           /\ ~ In 0%N (fst (PageRankJoin_contribs ctx flag links ranks))).
Proof.
  intros Rank RA ctx. split; [|split; [|split; [|split]]].
  - intros ol r. split.
    + intros ->. apply contributions_observed_nil.
    + intros Hne. destruct (contributions_observed_cons ol r Hne) as [Hk [E1 E2]].
      split; [exact Hk|]. split; [exact E1|]. split; [exact E2|].
      unfold contributions, join_contributions. rewrite E1, E2. cbn [snd].
      rewrite !length_map. split; reflexivity.
  - intros d. destruct (stage_divisors ctx d) as [D1 D2].
    destruct (stage_records ctx d) as [R1 R2].
    split; [exact D1|]. split; [exact D2|].
    split; [rewrite D1; apply divisors_nonzero|].
    split; [rewrite D2; apply divisors_nonzero|].
    split; [exact R1|exact R2].
  - intros links num_pages ranks. split.
    + unfold PageRank_iteration, PageRank_contribs.
      destruct (Zip ctx (fun ol r => (ol, r)) links ranks); reflexivity.
    + unfold PageRank_contribs. intros contribs.
      destruct (Zip ctx (fun ol r => (ol, r)) links ranks) as [outs_rank|e];
        [|discriminate].
      cbn [bind]. intros E. injection E as <-.
      rewrite (proj1 (stage_divisors ctx outs_rank)). apply divisors_nonzero.
  - intros flag links ranks. split; [reflexivity|].
    unfold PageRankJoinSelf_contribs.
    rewrite (proj2 (stage_divisors ctx _)). apply divisors_nonzero.
  - intros flag links num_pages ranks. split; [reflexivity|].
    unfold PageRankJoin_contribs.
    rewrite (proj2 (stage_divisors ctx _)). apply divisors_nonzero.
Qed.

Lemma contribution_stage_witness :
  ([1%N; 2%N] <> []
   -> N.of_nat (length [1%N; 2%N]) <> 0%N
      /\ contributions_observed (Rank := float) ([1%N; 2%N], 1%float)
         = ([2%N], [ {| page := 1%N; rank := 0.5%float |};
                     {| page := 2%N; rank := 0.5%float |} ]))
  /\ (([] : OutgoingLinks) = []
      -> contributions_observed (Rank := float) ([], 1%float) = ([], [])
         /\ join_contributions_observed (Rank := float) ([], 1%float) = ([], []))
  /\ (forall contribs,
         PageRank_contribs (Rank := float) two_workers scenario_A_links
                           [[1%float; 1%float]; [1%float; 1%float]]
         = Ok contribs ->
         ~ In 0%N (fst contribs)).
Proof.
  destruct (contribution_stage float binary64 two_workers) as [H1 [_ [H3 _]]].
  split; [|split].
  - intros H. destruct (H1 [1%N; 2%N] 1%float) as [_ H2].
    destruct (H2 H) as [Hk [Hc _]]. split; [exact Hk|].
    eapply eq_trans; [exact Hc|]. vm_compute. reflexivity.
  - intros H. destruct (H1 [] 1%float) as [H0 _]. exact (H0 H).
  - apply (H3 scenario_A_links 4%N [[1%float; 1%float]; [1%float; 1%float]]).
Defined.

(** ** The formula of the new rank *)

(** C2, as amended. In a round of [PageRank] and of [PageRankJoin] the new
    rank of a page is [d * rawTotal + (1 - d) / num_pages], where
    [rawTotal] sums the contributions that landed on the page (0 without
    any) and [d] is the constant 0.85; in a round of [PageRankJoinSelf] it
    is [d * rawTotal + (1 - d)], not divided by the number of pages. The
    join variants hold a rank for the pages that received a contribution
    only. This holds for every rank arithmetic, binary64 included. *)
Theorem new_rank_formula :
  forall (Rank : Type) (RA : RankArith Rank) (ctx : Context),
    (forall (links : DIA OutgoingLinks) (num_pages : N) (ranks ranks' : DIA Rank),
        PageRank_iteration ctx links num_pages ranks = Ok ranks' ->
        items ctx ranks'
        = map (fun i =>
                 (dampening
                  * rawTotal (flat_map spec_contributions
                                (combine (items ctx links) (items ctx ranks))) i
                  + (rk1 - dampening) / rk_of_size num_pages)%rk)
              (indices num_pages))
    /\ (forall (flag : bool) (links : DIA LinkedPage) (num_pages : N)
               (ranks : DIA (RankedPage Rank)) (p : PageId) (r : Rank),
           In (p, r) (items ctx (PageRankJoin_iteration ctx flag links num_pages ranks))
           <-> In p (keys (items ctx (FlatMap join_contributions
                                (InnerJoin ctx flag links ranks
                                   (fun lp : LinkedPage => fst lp)
                                   (fun rp : RankedPage Rank => fst rp)
                                   (fun lp rp => (snd lp, snd rp))))))
               /\ r = (dampening
                       * rawTotal (items ctx (FlatMap join_contributions
                                     (InnerJoin ctx flag links ranks
                                        (fun lp : LinkedPage => fst lp)
                                        (fun rp : RankedPage Rank => fst rp)
                                        (fun lp rp => (snd lp, snd rp))))) p
                       + (rk1 - dampening) / rk_of_size num_pages)%rk)
    /\ (forall (flag : bool) (links : DIA LinkedPage)
               (ranks : DIA (RankedPage Rank)) (p : PageId) (r : Rank),
           In (p, r) (items ctx (PageRankJoinSelf_iteration ctx flag links ranks))
           <-> In p (keys (items ctx (FlatMap join_contributions
                                (InnerJoin ctx flag links ranks
                                   (fun lp : LinkedPage => fst lp)
                                   (fun rp : RankedPage Rank => fst rp)
                                   (fun lp rp => (snd lp, snd rp))))))
               /\ r = (dampening
                       * rawTotal (items ctx (FlatMap join_contributions
                                     (InnerJoin ctx flag links ranks
                                        (fun lp : LinkedPage => fst lp)
                                        (fun rp : RankedPage Rank => fst rp)
                                        (fun lp rp => (snd lp, snd rp))))) p
                       + (rk1 - dampening))%rk).
Proof.
  intros Rank RA ctx. split; [|split].
  - intros links num_pages ranks ranks' E.
    rewrite (PageRank_iteration_spec _ _ _ _ _ E). reflexivity.
  - intros flag links num_pages ranks p r.
    unfold PageRankJoin_iteration. cbv zeta.
    rewrite items_Collapse, items_Map. unfold dampen_join.
    rewrite (In_map_second
               (fun raw => (dampening * raw + (rk1 - dampening) / rk_of_size num_pages)%rk)).
    split.
    + intros [raw [Hin ->]]. apply ReducePair_rawTotal in Hin.
      destruct Hin as [Hk ->]. split; [exact Hk|reflexivity].
    + intros [Hk ->]. eexists. split; [|reflexivity].
      apply ReducePair_rawTotal. split; [exact Hk|reflexivity].
  - intros flag links ranks p r.
    unfold PageRankJoinSelf_iteration. cbv zeta.
    rewrite items_Collapse, items_Map. unfold dampen_self.
    rewrite (In_map_second (fun raw => (dampening * raw + (rk1 - dampening))%rk)).
    split.
    + intros [raw [Hin ->]]. apply ReducePair_rawTotal in Hin.
      destruct Hin as [Hk ->]. split; [exact Hk|reflexivity].
    + intros [Hk ->]. eexists. split; [|reflexivity].
      apply ReducePair_rawTotal. split; [exact Hk|reflexivity].
Qed.

Lemma new_rank_formula_witness :
  PageRank_iteration (Rank := float) one_worker [[[1%N]; [0%N]]] 2
                     [[0.5%float; 0.5%float]]
  = Ok [[0.5%float; 0.5%float]]
  /\ items one_worker [[0.5%float; 0.5%float]]
     = map (fun i =>
              (dampening
               * rawTotal (flat_map spec_contributions
                             (combine (items one_worker [[[1%N]; [0%N]]])
                                      (items one_worker [[0.5%float; 0.5%float]]))) i
               + (rk1 - dampening) / rk_of_size 2)%rk)
           (indices 2).
Proof.
  assert (E : PageRank_iteration (Rank := float) one_worker [[[1%N]; [0%N]]] 2
                                 [[0.5%float; 0.5%float]]
              = Ok [[0.5%float; 0.5%float]])
    by (vm_compute; reflexivity).
  split; [exact E|].
  destruct (new_rank_formula float binary64 one_worker) as [H _].
  exact (H _ _ _ _ E).
Defined.

(** C2, the claim as stated fails for [PageRankJoinSelf]: on two pages
    linking to each other, page 0 receives the raw total 1 in the first
    round and its new rank is [0.85 * 1 + (1 - 0.85)], which is 1, not
    [0.85 * 1 + (1 - 0.85) / 2]. *)
Lemma self_join_rank_is_not_divided :
  In (0%N, 1%float) (items one_worker (ReducePair one_worker rk_add two_page_contribs))
  /\ In (0%N, 1%float)
        (items one_worker
               (PageRankJoinSelf (Rank := float) one_worker true two_page_links 1))
  /\ (dampening * 1%float + (rk1 - dampening) / rk_of_size 2)%rk <> 1%float.
Proof.
  split; [|split].
  - vm_compute. right. left. reflexivity.
  - vm_compute. right. left. reflexivity.
  - vm_compute. intros E. discriminate E.
Qed.

(** C6, as amended. On scenario A with [num_pages = 4], one iteration of
    [PageRank] leaves page 3 without incoming contribution, at the floor
    [(1 - d) / 4]; pages 1 and 2 receive one contribution of 1/4 each and
    end at [d * (1/4) + (1 - d) / 4]; page 0 receives two (from pages 2
    and 3) and ends at [d * (1/4 + 1/4) + (1 - d) / 4]. In binary64 these
    are 0.4625, 0.25, 0.25 and 0.0375 to 16 digits; exactly they are
    37/80, 1/4, 1/4 and 3/80. *)
Theorem scenario_A_one_iteration :
  forall (ctx : Context) (links : DIA OutgoingLinks),
    items ctx links = scenario_A ->
    (forall (Rank : Type) (RA : RankArith Rank),
        exists ranks,
          PageRank ctx links 4 1 = Ok ranks
          /\ items ctx ranks
             = [ (dampening * (rk1 / rk_of_size 4 / rk_of_size 1
                               + rk1 / rk_of_size 4 / rk_of_size 1)
                  + (rk1 - dampening) / rk_of_size 4)%rk;
                 (dampening * (rk1 / rk_of_size 4 / rk_of_size 1)
                  + (rk1 - dampening) / rk_of_size 4)%rk;
                 (dampening * (rk1 / rk_of_size 4 / rk_of_size 1)
                  + (rk1 - dampening) / rk_of_size 4)%rk;
                 (dampening * rk0 + (rk1 - dampening) / rk_of_size 4)%rk ])
    /\ (exists ranks,
           PageRank (Rank := float) ctx links 4 1 = Ok ranks
           /\ items ctx ranks
              = [ 0x1.d99999999999ap-2%float; 0.25%float; 0.25%float;
                  0x1.3333333333334p-5%float ])
    /\ (exists ranks,
           PageRank (Rank := Qc) ctx links 4 1 = Ok ranks
           /\ map this (items ctx ranks) = [ 37 # 80; 1 # 4; 1 # 4; 3 # 80 ]%Q).
Proof.
  intros ctx links Hl.
  assert (G : forall (Rank : Type) (RA : RankArith Rank),
             exists ranks,
               PageRank ctx links 4 1 = Ok ranks
               /\ items ctx ranks
                  = spec_round scenario_A 4
                               (map (fun _ => (rk1 / rk_of_size 4)%rk) (indices 4))).
  { intros Rank RA.
    change 1%N with (N.succ 0). rewrite PageRank_succ, PageRank_zero. cbn [bind].
    destruct (PageRank_iteration_total ctx links 4
                (Generate ctx 4 (fun _ => (rk1 / rk_of_size 4)%rk))) as [ranks E].
    - rewrite Hl, items_Generate. reflexivity.
    - rewrite Hl. intros ol t Hol Ht. unfold scenario_A in Hol. simpl in Hol.
      destruct Hol as [<-|[<-|[<-|[<-|[]]]]]; simpl in Ht;
        destruct Ht as [<-|[]]; reflexivity.
    - exists ranks. split; [exact E|].
      rewrite (PageRank_iteration_spec _ _ _ _ _ E), Hl, items_Generate.
      reflexivity. }
  split; [|split].
  - intros Rank RA. destruct (G Rank RA) as [ranks [E Hr]].
    exists ranks. split; [exact E|]. rewrite Hr. reflexivity.
  - destruct (G float binary64) as [ranks [E Hr]].
    exists ranks. split; [exact E|]. rewrite Hr. vm_compute. reflexivity.
  - destruct (G Qc rational) as [ranks [E Hr]].
    exists ranks. split; [exact E|]. rewrite Hr. vm_compute. reflexivity.
Qed.

Lemma scenario_A_one_iteration_witness :
  items two_workers scenario_A_links = scenario_A
  /\ exists ranks,
       PageRank (Rank := float) two_workers scenario_A_links 4 1 = Ok ranks
       /\ items two_workers ranks
          = [ 0x1.d99999999999ap-2%float; 0.25%float; 0.25%float;
              0x1.3333333333334p-5%float ].
Proof.
  assert (H : items two_workers scenario_A_links = scenario_A) by reflexivity.
  split; [exact H|].
  destruct (scenario_A_one_iteration two_workers scenario_A_links H) as [_ [F _]].
  exact F.
Defined.

(** C6, the claim as stated fails for page 0: after the iteration its rank
    is 0.4625 (37/80), not [0.85 * (1/4) + 0.0375]. *)
Lemma scenario_A_page_0_has_two_sources :
  (exists ranks,
      PageRank (Rank := float) two_workers scenario_A_links 4 1 = Ok ranks
      /\ nth 0 (items two_workers ranks) 0%float = 0x1.d99999999999ap-2%float
      /\ 0x1.d99999999999ap-2%float
         <> (0x1.b333333333333p-1 * (1 / 4) + 0x1.3333333333333p-5)%float)
  /\ (exists ranks,
         PageRank (Rank := Qc) two_workers scenario_A_links 4 1 = Ok ranks
         /\ this (nth 0 (items two_workers ranks) (Q2Qc 0)) = (37 # 80)%Q
         /\ ~ ((37 # 80) == (85 # 100) * (1 # 4) + (375 # 10000))%Q).
Proof.
  split.
  - eexists. split; [vm_compute; reflexivity|]. split.
    + vm_compute. reflexivity.
    + vm_compute. intros E. discriminate E.
  - eexists. split; [vm_compute; reflexivity|]. split.
    + vm_compute. reflexivity.
    + vm_compute. intros E. discriminate E.
Qed.

(** ** Mass conservation in exact arithmetic *)

Lemma map_snd_combine {A B : Type} (a : list A) (b : list B) :
  length a = length b -> map snd (combine a b) = b.
Proof.
  revert b. induction a as [|x a IH]; intros [|y b] H; simpl in *;
    try discriminate; [reflexivity|].
  rewrite IH by congruence. reflexivity.
Qed.

Section ExactIndexRound.

Local Open Scope Qc_scope.

Lemma fold_left_Qcplus (rest : list Qc) (v : Qc) :
  fold_left Qcplus rest v = v + Qcsum rest.
Proof.
  revert v. induction rest as [|x rest IH]; intros v; simpl; [ring|].
  rewrite IH. ring.
Qed.

Lemma rawTotal_exact (cs : list (PageId * Qc)) (i : PageId) :
  rawTotal (Rank := Qc) cs i = Qcsum (values_of i cs).
Proof.
  unfold rawTotal. destruct (values_of i cs) as [|v rest]; simpl.
  - reflexivity.
  - apply fold_left_Qcplus.
Qed.

Lemma rational_of_nat (k : nat) :
  rk_of_size (Rank := Qc) (N.of_nat k) = Q2Qc (inject_Z (Z.of_nat k)).
Proof. cbn [rk_of_size rational]. rewrite nat_N_Z. reflexivity. Qed.

Lemma Qcsum_spec_contributions (ol : OutgoingLinks) (r : Qc) :
  ol <> [] -> Qcsum (map snd (spec_contributions (Rank := Qc) (ol, r))) = r.
Proof.
  intros Hne. unfold spec_contributions. cbn [fst snd]. rewrite map_map.
  cbn [snd]. rewrite Qcsum_map_const, <- rational_of_nat.
  assert (Hk : rk_of_size (Rank := Qc) (N.of_nat (length ol)) <> 0).
  { apply rational_of_size_nonzero. destruct ol; [congruence|simpl; lia]. }
  cbn [rk_div rational]. field. exact Hk.
Qed.

Lemma Qcsum_all_contributions (links : list OutgoingLinks) (ranks : list Qc) :
  length links = length ranks ->
  (forall ol, In ol links -> ol <> []) ->
  Qcsum (map snd (flat_map (spec_contributions (Rank := Qc)) (combine links ranks)))
  = Qcsum ranks.
Proof.
  revert ranks. induction links as [|ol links IH]; intros [|r ranks] Hlen Hne;
    simpl in Hlen; try discriminate; [reflexivity|].
  cbn [combine flat_map]. rewrite map_app, Qcsum_app.
  rewrite Qcsum_spec_contributions by (apply Hne; left; reflexivity).
  rewrite IH; [reflexivity|congruence|].
  intros ol' H. apply Hne. right. exact H.
Qed.

Lemma In_all_contributions (links : list OutgoingLinks) (ranks : list Qc)
  (t : PageId) (v : Qc) :
  In (t, v) (flat_map (spec_contributions (Rank := Qc)) (combine links ranks)) ->
  exists ol, In ol links /\ In t ol.
Proof.
  intros H. apply in_flat_map in H. destruct H as [[ol r] [Hp H]].
  unfold spec_contributions in H. apply in_map_iff in H.
  destruct H as [t' [E Ht]]. cbn [fst snd] in *. injection E as <- _.
  exists ol. split; [|exact Ht]. eapply in_combine_l. exact Hp.
Qed.

(** A round keeps the sum of the ranks when every page has a link to
    follow and every link leads to a page. *)
Lemma Qcsum_spec_round (links : list OutgoingLinks) (num_pages : N)
  (ranks : list Qc) :
  (0 < num_pages)%N ->
  length links = length ranks ->
  (forall ol, In ol links -> ol <> []) ->
  (forall ol t, In ol links -> In t ol -> (t < num_pages)%N) ->
  Qcsum (spec_round links num_pages ranks)
  = dampening * Qcsum ranks + (rk1 - dampening).
Proof.
  intros Hn Hlen Hne Hin. unfold spec_round, newRank.
  cbn [rk_add rk_mul rational].
  rewrite (Qcsum_map_plus
             (fun i => dampening
                       * rawTotal (flat_map spec_contributions (combine links ranks)) i)
             (fun _ => rk_div (rk_sub rk1 dampening) (rk_of_size num_pages))).
  rewrite Qcsum_map_scale, Qcsum_map_const, length_indices.
  rewrite (map_ext _ (fun i => Qcsum (map snd
             (filter (fun c => N.eqb (fst c) i)
                     (flat_map (spec_contributions (Rank := Qc))
                               (combine links ranks))))))
    by (intros i; apply rawTotal_exact).
  rewrite Qcsum_by_index.
  - rewrite Qcsum_all_contributions by assumption.
    rewrite <- (N2Nat.id num_pages) at 2. rewrite <- rational_of_nat, N2Nat.id.
    assert (Hk : rk_of_size (Rank := Qc) num_pages <> 0)
      by (apply rational_of_size_nonzero; lia).
    cbn [rk_div rk_sub rational]. field. exact Hk.
  - intros [t v] Hc. apply In_all_contributions in Hc.
    destruct Hc as [ol [Hol Ht]]. exact (Hin ol t Hol Ht).
Qed.

Lemma Qcsum_initial_ranks (num_pages : N) :
  (0 < num_pages)%N ->
  Qcsum (map (fun _ : N => (rk1 / rk_of_size num_pages)%rk) (indices num_pages)) = 1.
Proof.
  intros Hn. rewrite Qcsum_map_const, length_indices.
  rewrite <- (N2Nat.id num_pages) at 2. rewrite <- rational_of_nat, N2Nat.id.
  assert (Hk : rk_of_size (Rank := Qc) num_pages <> 0)
    by (apply rational_of_size_nonzero; lia).
  cbn [rk_div rk1 rational]. field. exact Hk.
Qed.

End ExactIndexRound.

(** C3, as amended. For at least one page, with one list of links per page,
    every list non-empty and every target a page, [PageRank] runs through
    for every iteration count, and the ranks it returns -- after Init and
    after each iteration -- sum to 1 in exact arithmetic, that is, to 1.0
    up to the rounding of binary64. *)
Theorem ranks_sum_to_one :
  forall (ctx : Context) (links : DIA OutgoingLinks) (num_pages iterations : N),
    (0 < num_pages)%N ->
    length (items ctx links) = N.to_nat num_pages ->
    (forall ol, In ol (items ctx links) -> ol <> []) ->
    (forall ol t, In ol (items ctx links) -> In t ol -> (t < num_pages)%N) ->
    exists ranks,
      PageRank (Rank := Qc) ctx links num_pages iterations = Ok ranks
      /\ length (items ctx ranks) = N.to_nat num_pages
      /\ Qcsum (items ctx ranks) = Q2Qc 1.
Proof.
  intros ctx links num_pages iterations Hn Hlen Hne Hin.
  induction iterations as [|n IH] using N.peano_ind.
  - eexists. split; [apply PageRank_zero|]. rewrite items_Generate. split.
    + rewrite length_map. apply length_indices.
    + apply Qcsum_initial_ranks. exact Hn.
  - destruct IH as [ranks [E [Hr Hs]]]. rewrite PageRank_succ, E. cbn [bind].
    destruct (PageRank_iteration_total ctx links num_pages ranks) as [ranks' E'];
      [congruence|exact Hin|].
    exists ranks'. split; [exact E'|].
    rewrite (PageRank_iteration_spec _ _ _ _ _ E'). split.
    + apply length_spec_round.
    + rewrite Qcsum_spec_round; [|exact Hn|congruence|exact Hne|exact Hin].
      rewrite Hs. cbn [rk_sub rk1 dampening rational]. ring.
Qed.

Lemma ranks_sum_to_one_witness :
  exists ranks,
    PageRank (Rank := Qc) two_workers scenario_A_links 4 3 = Ok ranks
    /\ length (items two_workers ranks) = N.to_nat 4
    /\ Qcsum (items two_workers ranks) = Q2Qc 1.
Proof.
  apply (ranks_sum_to_one two_workers scenario_A_links 4 3).
  - reflexivity.
  - reflexivity.
  - intros ol H. simpl in H.
    destruct H as [<-|[<-|[<-|[<-|[]]]]]; discriminate.
  - intros ol t H Ht. simpl in H.
    destruct H as [<-|[<-|[<-|[<-|[]]]]]; simpl in Ht;
      destruct Ht as [<-|[]]; reflexivity.
Defined.

(** C3, the claim as stated fails for a graph without pages: the
    hypothesis holds of no page, and the ranks, none, sum to 0. *)
Lemma no_pages_sum_to_zero :
  (forall ol, In ol (items one_worker (@nil (list OutgoingLinks))) -> ol <> [])
  /\ PageRank (Rank := Qc) one_worker [] 0 1 = Ok [[]]
  /\ Qcsum (items one_worker ([[]] : DIA Qc)) = Q2Qc 0
  /\ Q2Qc 0 <> Q2Qc 1.
Proof.
  split; [|split; [|split]].
  - intros ol H. destruct H.
  - vm_compute. reflexivity.
  - reflexivity.
  - intros E. discriminate E.
Qed.

(** ** The join-based shape against the index-based shape *)

Lemma combine_map_r {A B : Type} (g : A -> B) (l : list A) :
  combine l (map g l) = map (fun x => (x, g x)) l.
Proof.
  induction l as [|x l IH]; simpl; [reflexivity|]. rewrite IH. reflexivity.
Qed.

Lemma map_fst_combine {A B : Type} (a : list A) (b : list B) :
  length a = length b -> map fst (combine a b) = a.
Proof.
  revert b. induction a as [|x a IH]; intros [|y b] H; simpl in *;
    try discriminate; [reflexivity|].
  rewrite IH by congruence. reflexivity.
Qed.

Lemma in_combine_exists_r {A B : Type} (a : list A) (b : list B) (x : A) :
  length a = length b -> In x a -> exists y, In (x, y) (combine a b).
Proof.
  revert b. induction a as [|x' a IH]; intros [|y b] H Hin; simpl in *;
    try discriminate; [destruct Hin|].
  destruct Hin as [->|Hin].
  - exists y. left. reflexivity.
  - destruct (IH b) as [y' Hy]; [congruence|exact Hin|].
    exists y'. right. exact Hy.
Qed.

Lemma flat_map_no_match {B C : Type} (k : PageId) (key2 : B -> PageId)
  (g : B -> C) (rs : list B) :
  (forall r, In r rs -> k <> key2 r) ->
  flat_map (fun r => if N.eqb k (key2 r) then [g r] else []) rs = [].
Proof.
  induction rs as [|r rs IH]; intros H; simpl; [reflexivity|].
  destruct (N.eqb_spec k (key2 r)) as [E|_].
  - exfalso. apply (H r); [left; reflexivity|exact E].
  - apply IH. intros r' Hr'. apply H. right. exact Hr'.
Qed.

(** Two sequences keyed by the same distinct keys join to their zip. *)
Lemma join_local_keyed {A B : Type} (idx : list PageId) (a : list A) (b : list B) :
  NoDup idx -> length a = length idx -> length b = length idx ->
  join_local (fun l : PageId * A => fst l) (fun r : PageId * B => fst r)
             (fun l r => (snd l, snd r)) (combine idx a) (combine idx b)
  = combine a b.
Proof.
  intros Hnd. revert a b.
  induction Hnd as [|i idx Hi Hnd IH]; intros [|x a] [|y b] Ha Hb;
    simpl in Ha, Hb; try discriminate; [reflexivity|].
  cbn [combine]. unfold join_local. cbn [flat_map fst snd].
  rewrite N.eqb_refl. cbn [app]. f_equal.
  assert (E1 : flat_map (fun r : PageId * B =>
                           if N.eqb i (fst r) then [(x, snd r)] else [])
                        (combine idx b) = []).
  { apply (flat_map_no_match i (fun r : PageId * B => fst r)
                              (fun r => (x, snd r))).
    intros [k r] Hr E. cbn [fst] in E. subst k.
    apply Hi. apply in_combine_l in Hr. exact Hr. }
  rewrite E1. cbn [app].
  rewrite <- (IH a b) by congruence. unfold join_local.
  apply flat_map_ext_In. intros [k l] Hl. cbn [fst snd].
  destruct (N.eqb_spec k i) as [->|_]; [|reflexivity].
  exfalso. apply Hi. apply in_combine_l in Hl. exact Hl.
Qed.

Section ExactJoinRound.

Local Open Scope Qc_scope.

Variable ctx : Context.

Lemma values_of_Permutation (k : PageId) (xs ys : list (PageId * Qc)) :
  Permutation xs ys -> Permutation (values_of k xs) (values_of k ys).
Proof.
  intros H. unfold values_of. apply Permutation_map, Permutation_filter_pred.
  exact H.
Qed.

Lemma rawTotal_Permutation (k : PageId) (xs ys : list (PageId * Qc)) :
  Permutation xs ys -> rawTotal (Rank := Qc) xs k = rawTotal (Rank := Qc) ys k.
Proof.
  intros H. rewrite !rawTotal_exact.
  apply Qcsum_Permutation, values_of_Permutation. exact H.
Qed.

(** The contributions of a round of a join variant, as a multiset: those
    of the joined (links, rank) pairs. *)
Lemma join_contributions_Permutation (flag : bool) (links : DIA LinkedPage)
  (ranks : DIA (RankedPage Qc)) :
  Permutation
    (items ctx (FlatMap join_contributions
                  (InnerJoin ctx flag links ranks
                             (fun lp : LinkedPage => fst lp)
                             (fun rp : RankedPage Qc => fst rp)
                             (fun lp rp => (snd lp, snd rp)))))
    (flat_map spec_contributions
       (join_local (fun lp : LinkedPage => fst lp)
                   (fun rp : RankedPage Qc => fst rp)
                   (fun lp rp => (snd lp, snd rp))
                   (items ctx links) (items ctx ranks))).
Proof.
  rewrite items_FlatMap.
  rewrite (flat_map_ext _ _ join_contributions_spec).
  apply Permutation_flat_map, items_InnerJoin.
Qed.

(** One round of [PageRankJoin] on ranks that cover every page, when every
    page is the target of a link: the ranks of the index-based round,
    page by page. *)
Lemma PageRankJoin_iteration_indexed (flag : bool) (linksJ : DIA LinkedPage)
  (links : list OutgoingLinks) (num_pages : N)
  (ranksJ : DIA (RankedPage Qc)) (ranks : list Qc) :
  length links = N.to_nat num_pages ->
  length ranks = N.to_nat num_pages ->
  Permutation (items ctx linksJ) (combine (indices num_pages) links) ->
  Permutation (items ctx ranksJ) (combine (indices num_pages) ranks) ->
  (forall ol t, In ol links -> In t ol -> (t < num_pages)%N) ->
  (forall i, (i < num_pages)%N -> exists ol, In ol links /\ In i ol) ->
  Permutation
    (items ctx (PageRankJoin_iteration ctx flag linksJ num_pages ranksJ))
    (combine (indices num_pages) (spec_round links num_pages ranks)).
Proof.
  intros Hl Hr HlJ HrJ Hin Hcov.
  set (cs := flat_map (spec_contributions (Rank := Qc)) (combine links ranks)).
  assert (Hcs : Permutation
                  (items ctx (FlatMap join_contributions
                     (InnerJoin ctx flag linksJ ranksJ
                                (fun lp : LinkedPage => fst lp)
                                (fun rp : RankedPage Qc => fst rp)
                                (fun lp rp => (snd lp, snd rp)))))
                  cs).
  { eapply Permutation_trans; [apply join_contributions_Permutation|].
    unfold cs. apply Permutation_flat_map.
    eapply Permutation_trans; [apply join_local_Permutation; eassumption|].
    match goal with
    | |- Permutation ?x ?y => replace x with y; [apply Permutation_refl|]
    end.
    symmetry. apply (join_local_keyed (indices num_pages) links ranks);
      [apply NoDup_indices| |]; rewrite length_indices; assumption. }
  assert (Hkeys : forall k, In k (keys cs) <-> (k < num_pages)%N).
  { intros k. split.
    - intros Hk. apply in_map_iff in Hk. destruct Hk as [[k' v] [E Hk]].
      cbn [fst] in E. subst k'. apply In_all_contributions in Hk.
      destruct Hk as [ol [Hol Ht]]. exact (Hin ol k Hol Ht).
    - intros Hk. destruct (Hcov k Hk) as [ol [Hol Ht]].
      destruct (in_combine_exists_r links ranks ol) as [r Hp];
        [congruence|exact Hol|].
      apply in_map_iff.
      exists (k, (r / rk_of_size (N.of_nat (length ol)))%rk). split; [reflexivity|].
      unfold cs. apply in_flat_map. exists (ol, r). split; [exact Hp|].
      unfold spec_contributions. cbn [fst snd]. apply in_map_iff.
      exists k. split; [reflexivity|exact Ht]. }
  unfold PageRankJoin_iteration. cbv zeta. rewrite items_Collapse, items_Map.
  unfold spec_round. rewrite combine_map_r.
  apply Permutation_trans
    with (map (dampen_join (rk_of_size num_pages))
              (map (fun i => (i, rawTotal cs i)) (indices num_pages)));
    [|rewrite map_map; apply Permutation_refl].
  apply Permutation_map. apply NoDup_Permutation.
  - apply (NoDup_map_inv fst). apply NoDup_keys_ReducePair.
  - apply (NoDup_map_inv fst). rewrite map_map. cbn [fst]. rewrite map_id.
    apply NoDup_indices.
  - intros [k v]. rewrite ReducePair_rawTotal. split.
    + intros [Hk ->]. apply in_map_iff. exists k. split.
      * f_equal. symmetry. apply rawTotal_Permutation. exact Hcs.
      * apply In_indices. apply Hkeys.
        eapply Permutation_in; [apply Permutation_map, Hcs|exact Hk].
    + intros H. apply in_map_iff in H. destruct H as [i [E Hi]].
      injection E as -> <-. split.
      * eapply Permutation_in; [apply Permutation_map, Permutation_sym, Hcs|].
        apply Hkeys. apply In_indices. exact Hi.
      * symmetry. apply rawTotal_Permutation. exact Hcs.
Qed.

End ExactJoinRound.

Lemma PageRankJoin_succ {Rank : Type} {RA : RankArith Rank} (ctx : Context)
  (flag : bool) (links : DIA LinkedPage) (num_pages iterations : N) :
  PageRankJoin ctx flag links num_pages (N.succ iterations)
  = PageRankJoin_iteration ctx flag links num_pages
      (PageRankJoin ctx flag links num_pages iterations).
Proof. unfold PageRankJoin. rewrite N.iter_succ. reflexivity. Qed.

(** X27. When every page is the target of at least one link (and the
    join-based input holds, for each page, the list of links that the
    index-based input holds at the page's index, every target being a
    page), [PageRankJoin] and [PageRank] return, after every number of
    iterations and under either setting of location detection, the same
    rank for every page, in exact arithmetic. *)
Theorem join_shape_follows_index_shape :
  forall (ctx : Context) (flag : bool) (links : DIA OutgoingLinks)
         (linksJ : DIA LinkedPage) (num_pages iterations : N),
    length (items ctx links) = N.to_nat num_pages ->
    Permutation (items ctx linksJ) (combine (indices num_pages) (items ctx links)) ->
    (forall ol t, In ol (items ctx links) -> In t ol -> (t < num_pages)%N) ->
    (forall i, (i < num_pages)%N -> exists ol, In ol (items ctx links) /\ In i ol) ->
    exists ranks,
      PageRank (Rank := Qc) ctx links num_pages iterations = Ok ranks
      /\ Permutation
           (items ctx (PageRankJoin (Rank := Qc) ctx flag linksJ num_pages iterations))
           (combine (indices num_pages) (items ctx ranks)).
Proof.
  intros ctx flag links linksJ num_pages iterations Hl HlJ Hin Hcov.
  assert (G : exists ranks,
             PageRank (Rank := Qc) ctx links num_pages iterations = Ok ranks
             /\ length (items ctx ranks) = N.to_nat num_pages
             /\ Permutation
                  (items ctx (PageRankJoin (Rank := Qc) ctx flag linksJ
                                           num_pages iterations))
                  (combine (indices num_pages) (items ctx ranks))).
  { induction iterations as [|n IH] using N.peano_ind.
    - eexists. split; [apply PageRank_zero|]. rewrite items_Generate. split.
      + rewrite length_map. apply length_indices.
      + unfold PageRankJoin. cbn [N.iter]. rewrite items_Collapse, items_Generate.
        rewrite combine_map_r. apply Permutation_refl.
    - destruct IH as [ranks [E [Hr HrJ]]].
      rewrite PageRank_succ, E. cbn [bind].
      destruct (PageRank_iteration_total ctx links num_pages ranks) as [ranks' E'];
        [congruence|exact Hin|].
      exists ranks'. split; [exact E'|].
      rewrite (PageRank_iteration_spec _ _ _ _ _ E'). split.
      + apply length_spec_round.
      + rewrite PageRankJoin_succ.
        apply PageRankJoin_iteration_indexed; assumption. }
  destruct G as [ranks [E [_ H]]]. exists ranks. split; assumption.
Qed.

Lemma join_shape_follows_index_shape_witness :
  exists ranks,
    PageRank (Rank := Qc) one_worker [[[1%N]; [0%N]]] 2 2 = Ok ranks
    /\ Permutation
         (items one_worker (PageRankJoin (Rank := Qc) one_worker true two_page_links 2 2))
         (combine (indices 2) (items one_worker ranks)).
Proof.
  apply (join_shape_follows_index_shape one_worker true [[[1%N]; [0%N]]]
                                        two_page_links 2 2).
  - reflexivity.
  - apply Permutation_refl.
  - intros ol t H Ht. simpl in H.
    destruct H as [<-|[<-|[]]]; simpl in Ht; destruct Ht as [<-|[]]; reflexivity.
  - intros i Hi.
    assert (E : i = 0%N \/ i = 1%N) by lia.
    destruct E as [-> | ->].
    + exists [0%N]. simpl. auto.
    + exists [1%N]. simpl. auto.
Defined.

(** The pages that hold a rank after a round of a join variant are targets
    of links. *)
Lemma join_round_targets {Rank : Type} {RA : RankArith Rank} (ctx : Context)
  (flag : bool) (links : DIA LinkedPage) (ranks : DIA (RankedPage Rank))
  (g : PageRankStdPair Rank -> RankedPage Rank) (p : PageId) :
  (forall c, fst (g c) = fst c) ->
  In p (keys (items ctx
          (Map g (ReducePair ctx rk_add
                    (FlatMap join_contributions
                       (InnerJoin ctx flag links ranks
                                  (fun lp : LinkedPage => fst lp)
                                  (fun rp : RankedPage Rank => fst rp)
                                  (fun lp rp => (snd lp, snd rp)))))))) ->
  exists lp, In lp (items ctx links) /\ In p (snd lp).
Proof.
  intros Hg Hp. rewrite items_Map, map_map in Hp.
  rewrite (map_ext _ fst Hg) in Hp.
  apply keys_ReducePair in Hp. rewrite items_FlatMap in Hp.
  apply in_map_iff in Hp. destruct Hp as [[p' v] [E Hp]]. cbn [fst] in E. subst p'.
  apply in_flat_map in Hp. destruct Hp as [[ol r] [Hj Hp]].
  rewrite join_contributions_spec in Hp. unfold spec_contributions in Hp.
  apply in_map_iff in Hp. destruct Hp as [t [E Ht]]. cbn [fst snd] in *.
  injection E as -> _.
  apply (Permutation_in _ (items_InnerJoin ctx flag links ranks _ _ _)) in Hj.
  apply join_local_In in Hj. destruct Hj as [lp [rp [Hlp [_ [_ E]]]]].
  injection E as -> _. exists lp. split; assumption.
Qed.

Lemma find_absent_key (p : PageId) (rs : list (RankedPage Qc)) :
  ~ In p (keys rs) -> find (fun rp => N.eqb (fst rp) p) rs = None.
Proof.
  induction rs as [|[k v] rs IH]; simpl; intros H; [reflexivity|].
  destruct (N.eqb_spec k p) as [->|_]; [exfalso; apply H; left; reflexivity|].
  apply IH. intros Hin. apply H. right. exact Hin.
Qed.

Lemma scenario_A_page_3_join (flag : bool) (iterations : N) :
  rank_at 3%N (items two_workers
               (PageRankJoin (Rank := Qc) two_workers flag scenario_A_linked 4
                             (N.succ iterations)))
  = Q2Qc 0.
Proof.
  unfold rank_at. rewrite find_absent_key; [reflexivity|].
  rewrite PageRankJoin_succ. intros H.
  apply (join_round_targets two_workers flag scenario_A_linked _
           (dampen_join (rk_of_size 4)) 3%N (fun c => eq_refl)) in H.
  destruct H as [lp [Hlp H3]]. simpl in Hlp.
  destruct Hlp as [<-|[<-|[<-|[<-|[]]]]]; simpl in H3;
    destruct H3 as [E|[]]; discriminate E.
Qed.

Lemma scenario_A_page_3_index (iterations : N) (ranks : DIA Qc) :
  PageRank (Rank := Qc) two_workers scenario_A_links 4 (N.succ iterations) = Ok ranks ->
  nth 3 (items two_workers ranks) (Q2Qc 0) = Q2Qc (3 # 80).
Proof.
  rewrite PageRank_succ.
  destruct (PageRank two_workers scenario_A_links 4 iterations) as [prev|e];
    [|discriminate].
  cbn [bind]. intros E. rewrite (PageRank_iteration_spec _ _ _ _ _ E).
  change (items two_workers scenario_A_links) with scenario_A.
  unfold spec_round. change (indices 4) with [0%N; 1%N; 2%N; 3%N]. cbn [map nth].
  assert (V : rawTotal (Rank := Qc)
                (flat_map spec_contributions (combine scenario_A (items two_workers prev))) 3%N
              = Q2Qc 0).
  { unfold rawTotal.
    assert (V0 : values_of 3%N
                   (flat_map (spec_contributions (Rank := Qc))
                             (combine scenario_A (items two_workers prev))) = []).
    { destruct (items two_workers prev) as [|a [|b [|c [|d rs]]]]; reflexivity. }
    rewrite V0. reflexivity. }
  rewrite V. apply Qc_is_canon. vm_compute. reflexivity.
Qed.

(** On scenario A page 3 is the target of no link, so from the first
    iteration on the join-based shape holds no rank for it (0 at best)
    while the index-based shape holds (1 - d) / 4 = 3/80; the two never
    come within 3/80 of each other, with location detection or without. *)
Lemma scenario_A_shapes_stay_apart :
  ~ shapes_converge two_workers true scenario_A_links scenario_A_linked 4
  /\ ~ shapes_converge two_workers false scenario_A_links scenario_A_linked 4.
Proof.
  assert (G : forall flag,
             ~ shapes_converge two_workers flag scenario_A_links scenario_A_linked 4).
  { intros flag H.
    destruct (H (Q2Qc (3 # 80))) as [enough Hn]; [reflexivity|].
    destruct (Hn (N.succ enough)) as [ranks [E Hp]]; [lia|].
    destruct (Hp 3%N) as [_ H3]; [reflexivity|].
    change (N.to_nat 3) with 3 in H3.
    rewrite (scenario_A_page_3_index _ _ E), scenario_A_page_3_join in H3.
    vm_compute in H3. discriminate H3. }
  split; apply G.
Qed.

(** C4. The join-based shape loses the pages that no link leads to, which
    the index-based shape keeps. On scenario A, after two iterations,
    [PageRank] holds 451/1600 for page 0 and 3/80 for page 3, while
    [PageRankJoin] holds 1/4 for page 0 and no rank for page 3, with
    location detection or without; the two never come within 3/80 of each
    other. On the chain 0>1>2>3 [PageRank] holds four ranks after four
    iterations and [PageRankJoin] holds none. *)
Theorem join_shape_loses_pages_without_incoming_link :
  (exists ranks,
      PageRank (Rank := Qc) two_workers scenario_A_links 4 2 = Ok ranks
      /\ map this (items two_workers ranks)
         = [451 # 1600; 689 # 1600; 1 # 4; 3 # 80]%Q)
  /\ (forall flag : bool,
         map (fun rp => (fst rp, this (snd rp)))
             (items two_workers
                (PageRankJoin (Rank := Qc) two_workers flag scenario_A_linked 4 2))
         = [(0%N, 1 # 4); (2%N, 1 # 4); (1%N, 689 # 1600)]%Q)
  /\ (forall flag : bool,
         ~ shapes_converge two_workers flag scenario_A_links scenario_A_linked 4)
  /\ (exists ranks,
         PageRank (Rank := Qc) two_workers chain_links 4 4 = Ok ranks
         /\ map this (items two_workers ranks)
            = [3 # 80; 111 # 1600; 3087 # 32000; 76479 # 640000]%Q)
  /\ (forall flag : bool,
         items two_workers
           (PageRankJoin (Rank := Qc) two_workers flag chain_linked 4 4) = []).
Proof.
  split; [|split; [|split; [|split]]].
  - destruct (PageRank (Rank := Qc) two_workers scenario_A_links 4 2) as [ranks|e] eqn:E;
      [|vm_compute in E; discriminate E].
    exists ranks. split; [reflexivity|].
    assert (G : match PageRank (Rank := Qc) two_workers scenario_A_links 4 2 with
                | Ok d => map this (items two_workers d)
                | Die _ => []
                end = [451 # 1600; 689 # 1600; 1 # 4; 3 # 80]%Q)
      by (vm_compute; reflexivity).
    rewrite E in G. exact G.
  - intros [|]; vm_compute; reflexivity.
  - intros [|]; apply scenario_A_shapes_stay_apart.
  - destruct (PageRank (Rank := Qc) two_workers chain_links 4 4) as [ranks|e] eqn:E;
      [|vm_compute in E; discriminate E].
    exists ranks. split; [reflexivity|].
    assert (G : match PageRank (Rank := Qc) two_workers chain_links 4 4 with
                | Ok d => map this (items two_workers d)
                | Die _ => []
                end = [3 # 80; 111 # 1600; 3087 # 32000; 76479 # 640000]%Q)
      by (vm_compute; reflexivity).
    rewrite E in G. exact G.
  - intros [|]; vm_compute; reflexivity.
Qed.

(** ** The line parser *)

Local Open Scope string_scope.

Lemma acc_value_pos (u : Decimal.uint) (p : positive) :
  acc_value (N.pos p) u = N.pos (Pos.of_uint_acc u p).
Proof.
  revert p. induction u as [|u IH|u IH|u IH|u IH|u IH|u IH|u IH|u IH|u IH|u IH];
    intros p; cbn [acc_value Pos.of_uint_acc]; [reflexivity|..];
    rewrite <- IH; f_equal; lia.
Qed.

Lemma acc_value_zero (u : Decimal.uint) : acc_value 0 u = N.of_uint u.
Proof.
  unfold N.of_uint.
  induction u as [|u IH|u IH|u IH|u IH|u IH|u IH|u IH|u IH|u IH|u IH];
    cbn [acc_value Pos.of_uint]; [reflexivity|exact IH|..];
    apply acc_value_pos.
Qed.

Lemma scan_digits_numeral (u : Decimal.uint) (acc : N) (rest : string) :
  scan_digits acc (NilEmpty.string_of_uint u ++ rest)
  = scan_digits (acc_value acc u) rest.
Proof.
  revert acc. induction u as [|u IH|u IH|u IH|u IH|u IH|u IH|u IH|u IH|u IH|u IH];
    intros acc; [reflexivity|..];
    cbn [NilEmpty.string_of_uint append scan_digits acc_value];
    (match goal with
     | |- context [digit_value ?c] =>
         change (digit_value c) with (Some (N_of_ascii c - 48)%N)
     end);
    cbn [N_of_ascii N_of_digits N.sub]; apply IH.
Qed.

Lemma scan_digits_stop (acc : N) (rest : string) :
  starts_with_digit rest = false -> scan_digits acc rest = (acc, rest).
Proof.
  destruct rest as [|c t]; simpl; [reflexivity|].
  destruct (digit_value c); [discriminate|reflexivity].
Qed.

Lemma c_str_numeral (u : Decimal.uint) (rest : string) :
  c_str (NilEmpty.string_of_uint u ++ rest) = NilEmpty.string_of_uint u ++ c_str rest.
Proof.
  induction u as [|u IH|u IH|u IH|u IH|u IH|u IH|u IH|u IH|u IH|u IH];
    [reflexivity|..];
    cbn [NilEmpty.string_of_uint append c_str]; rewrite IH; reflexivity.
Qed.

Lemma strtoul_numeral (u : Decimal.uint) (rest : string) :
  u <> Decimal.Nil -> starts_with_digit rest = false ->
  strtoul (NilEmpty.string_of_uint u ++ rest) = (N.min (N.of_uint u) SIZE_MAX, rest).
Proof.
  intros Hu Hrest.
  assert (E : strtoul (NilEmpty.string_of_uint u ++ rest)
              = (if N.leb (acc_value 0 u) SIZE_MAX then acc_value 0 u else SIZE_MAX,
                 rest)).
  { destruct u as [|u|u|u|u|u|u|u|u|u|u]; [congruence|..];
      unfold strtoul; cbn [NilEmpty.string_of_uint append skip_spaces];
      (match goal with
       | |- context [isspace ?c] => change (isspace c) with false
       end);
      cbv iota; cbn [fst snd starts_with_digit];
      (match goal with
       | |- context [digit_value ?c] =>
           change (digit_value c) with (Some (N_of_ascii c - 48)%N)
       end);
      cbv iota;
      (match goal with
       | |- context [scan_digits 0 (String ?c ?t)] =>
           change (scan_digits 0 (String c t))
             with (scan_digits (0 * 10 + (N_of_ascii c - 48))%N t)
       end);
      rewrite scan_digits_numeral, (scan_digits_stop _ _ Hrest);
      reflexivity. }
  rewrite E, acc_value_zero. f_equal.
  destruct (N.leb_spec (N.of_uint u) SIZE_MAX) as [H|H].
  - symmetry. apply N.min_l. exact H.
  - symmetry. apply N.min_r. lia.
Qed.

Lemma is_digit_char (c : ascii) (d : Decimal.uint) :
  is_digit c = true -> exists d', uint_of_char c (Some d) = Some d'.
Proof.
  destruct c as [[|] [|] [|] [|] [|] [|] [|] [|]]; intros H;
    try discriminate H; eexists; reflexivity.
Qed.

Lemma all_digits_numeral (s : string) :
  all_digits s = true -> exists u, NilEmpty.string_of_uint u = s.
Proof.
  intros H.
  assert (G : exists u, NilEmpty.uint_of_string s = Some u).
  { induction s as [|c t IH]; [eexists; reflexivity|].
    simpl in H. apply andb_true_iff in H. destruct H as [Hc Ht].
    destruct (IH Ht) as [u' E]. cbn [NilEmpty.uint_of_string]. rewrite E.
    apply is_digit_char. exact Hc. }
  destruct G as [u E]. exists u. apply NilEmpty.sus. exact E.
Qed.

Lemma is_numeral_uint (s : string) :
  is_numeral s = true ->
  exists u, u <> Decimal.Nil /\ NilEmpty.string_of_uint u = s.
Proof.
  destruct s as [|c t]; [discriminate|]. intros H.
  destruct (all_digits_numeral (String c t) H) as [u E].
  exists u. split; [|exact E]. intros ->. discriminate E.
Qed.

Lemma split_at_space_app (s a b : string) :
  split_at_space s = Some (a, b) -> s = a ++ String " "%char b.
Proof.
  revert a. induction s as [|c t IH]; intros a; simpl; [discriminate|].
  destruct (Ascii.eqb_spec c " "%char) as [->|_].
  - intros E. injection E as <- <-. reflexivity.
  - destruct (split_at_space t) as [[a' b']|]; [|discriminate].
    intros E. injection E as <- <-. simpl. f_equal. apply IH. reflexivity.
Qed.

Lemma string_app_nil_r (s : string) : s ++ EmptyString = s.
Proof. induction s as [|c t IH]; simpl; [reflexivity|]. rewrite IH. reflexivity. Qed.

Lemma c_str_numeral_alone (u : Decimal.uint) :
  c_str (NilEmpty.string_of_uint u) = NilEmpty.string_of_uint u.
Proof.
  rewrite <- (string_app_nil_r (NilEmpty.string_of_uint u)) at 1.
  rewrite c_str_numeral. apply string_app_nil_r.
Qed.

Lemma strtoul_numeral_alone (u : Decimal.uint) :
  u <> Decimal.Nil ->
  strtoul (NilEmpty.string_of_uint u) = (N.min (N.of_uint u) SIZE_MAX, EmptyString).
Proof.
  intros Hu. rewrite <- (string_app_nil_r (NilEmpty.string_of_uint u)) at 1.
  apply strtoul_numeral; [exact Hu|reflexivity].
Qed.

Lemma PageRankLineParser_numerals (ua ub : Decimal.uint) :
  ua <> Decimal.Nil -> ub <> Decimal.Nil ->
  PageRankLineParser
    (NilEmpty.string_of_uint ua ++ String " "%char (NilEmpty.string_of_uint ub))
  = Ok {| src := N.min (N.of_uint ua) SIZE_MAX;
          tgt := N.min (N.of_uint ub) SIZE_MAX |}.
Proof.
  intros Ha Hb. unfold PageRankLineParser.
  rewrite c_str_numeral. cbn [c_str].
  change (N.eqb (N_of_ascii " "%char) 0) with false. cbv iota.
  rewrite c_str_numeral_alone.
  rewrite (strtoul_numeral ua (String " "%char (NilEmpty.string_of_uint ub)) Ha eq_refl).
  cbn [fst snd].
  rewrite (strtoul_numeral_alone ub Hb). cbn [fst snd].
  reflexivity.
Qed.

(** C9, as amended. Every line that consists of two unsigned decimal
    numerals separated by a single space, with nothing trailing, is parsed:
    the parser returns the Edge of the two numbers (a number above 2^64 - 1
    is read as 2^64 - 1, as [strtoul] does). A line on which the parser
    ends the run is therefore not of that form, and the error is the input
    format error. The converse does not hold: [strtoul] skips white space,
    accepts a sign and reads an absent numeral as 0, so lines that are not
    of that form are accepted too. *)
Theorem edge_lines_parse :
  (forall s : string,
      edge_line_form s = true ->
      exists ua ub : Decimal.uint,
        s = NilEmpty.string_of_uint ua ++ String " "%char (NilEmpty.string_of_uint ub)
        /\ PageRankLineParser s
           = Ok {| src := N.min (N.of_uint ua) SIZE_MAX;
                   tgt := N.min (N.of_uint ub) SIZE_MAX |})
  /\ (forall (s : string) (e : Fatal),
         PageRankLineParser s = Die e ->
         e = InputFormatError /\ edge_line_form s = false).
Proof.
  assert (G : forall s : string,
             edge_line_form s = true ->
             exists ua ub : Decimal.uint,
               s = NilEmpty.string_of_uint ua
                   ++ String " "%char (NilEmpty.string_of_uint ub)
               /\ PageRankLineParser s
                  = Ok {| src := N.min (N.of_uint ua) SIZE_MAX;
                          tgt := N.min (N.of_uint ub) SIZE_MAX |}).
  { intros s H. unfold edge_line_form in H.
    destruct (split_at_space s) as [[a b]|] eqn:Es; [|discriminate].
    apply andb_true_iff in H. destruct H as [Ha Hb].
    destruct (is_numeral_uint a Ha) as [ua [Hua Ea]].
    destruct (is_numeral_uint b Hb) as [ub [Hub Eb]].
    exists ua, ub. apply split_at_space_app in Es. subst a b s.
    split; [reflexivity|]. apply PageRankLineParser_numerals; assumption. }
  split; [exact G|].
  intros s e H. split.
  - unfold PageRankLineParser in H.
    destruct (snd (strtoul (c_str s))) as [|c t]; [congruence|].
    destruct c as [[|] [|] [|] [|] [|] [|] [|] [|]]; try congruence.
    destruct (snd (strtoul t)); congruence.
  - destruct (edge_line_form s) eqn:E; [|reflexivity].
    destruct (G s E) as [ua [ub [_ H']]]. congruence.
Qed.

Lemma edge_lines_parse_witness :
  edge_line_form "12 7" = true
  /\ exists ua ub : Decimal.uint,
       "12 7" = NilEmpty.string_of_uint ua ++ String " "%char (NilEmpty.string_of_uint ub)
       /\ PageRankLineParser "12 7"
          = Ok {| src := N.min (N.of_uint ua) SIZE_MAX;
                  tgt := N.min (N.of_uint ub) SIZE_MAX |}.
Proof.
  assert (H : edge_line_form "12 7" = true) by reflexivity.
  split; [exact H|].
  destruct edge_lines_parse as [G _]. exact (G "12 7" H).
Defined.

(** C9, the claim as stated fails: a line that holds a space only parses to
    the Edge (0, 0), and a line with two spaces between the numbers parses
    too; neither is of the form of two integers separated by a single
    space. *)
Lemma blank_line_is_accepted :
  PageRankLineParser " " = Ok {| src := 0%N; tgt := 0%N |}
  /\ edge_line_form " " = false
  /\ PageRankLineParser "1  2" = Ok {| src := 1%N; tgt := 2%N |}
  /\ edge_line_form "1  2" = false.
Proof. repeat split; reflexivity. Qed.

(** ** The file-based run of the index shape *)

Local Close Scope string_scope.

Lemma fold_left_max_le_init (l : list N) (a : N) : (a <= fold_left N.max l a)%N.
Proof.
  revert a. induction l as [|x l IH]; intros a; simpl; [lia|].
  specialize (IH (N.max a x)). lia.
Qed.

Lemma fold_left_max_ge (l : list N) (a x : N) :
  In x l -> (x <= fold_left N.max l a)%N.
Proof.
  revert a. induction l as [|y l IH]; intros a Hin; [destruct Hin|].
  simpl. destruct Hin as [->|Hin].
  - pose proof (fold_left_max_le_init l (N.max a x)). lia.
  - apply IH. exact Hin.
Qed.

Lemma Max_ge (ctx : Context) (d : DIA N) (x : N) :
  In x (items ctx d) -> (x <= Max ctx d)%N.
Proof. apply fold_left_max_ge. Qed.

Lemma GroupToIndex_Ok {A B : Type} (ctx : Context) (key : A -> N)
  (group : list A -> N -> B) (size : N) (neutral : B) (d : DIA A) :
  (forall x, In x (items ctx d) -> (key x < size)%N) ->
  GroupToIndex ctx key group size neutral d
  = Ok (range_split ctx
          (map (fun i => match filter (fun x => N.eqb (key x) i) (items ctx d) with
                         | [] => neutral
                         | g => group g i
                         end)
               (indices size))).
Proof.
  intros H. unfold GroupToIndex.
  assert (E : forallb (fun x => N.ltb (key x) size) (items ctx d) = true).
  { apply forallb_forall. intros x Hx. apply N.ltb_lt. apply H. exact Hx. }
  rewrite E. reflexivity.
Qed.

Lemma PageRank_length {Rank : Type} {RA : RankArith Rank} (ctx : Context)
  (links : DIA OutgoingLinks) (num_pages iterations : N) (ranks : DIA Rank) :
  PageRank ctx links num_pages iterations = Ok ranks ->
  length (items ctx ranks) = N.to_nat num_pages.
Proof.
  destruct iterations as [|p] using N.peano_ind.
  - rewrite PageRank_zero. intros E. injection E as <-.
    rewrite items_Generate, length_map. apply length_indices.
  - rewrite PageRank_succ.
    destruct (PageRank ctx links num_pages p) as [prev|e]; [|discriminate].
    cbn [bind]. intros E. rewrite (PageRank_iteration_spec _ _ _ _ _ E).
    apply length_spec_round.
Qed.

(** The edges below a maximum that leaves room for [+ 1]: every page id is
    below [num_pages], and the grouped links fit [PageRank]. *)
Lemma edge_input_in_range (ctx : Context) (input : DIA PagePageLink) :
  (Max ctx (Map (fun ppl => N.max (src ppl) (tgt ppl)) input) < SIZE_MAX)%N ->
  edge_num_pages ctx input
  = (Max ctx (Map (fun ppl => N.max (src ppl) (tgt ppl)) input) + 1)%N
  /\ (forall e, In e (items ctx input) ->
                (src e < edge_num_pages ctx input)%N
                /\ (tgt e < edge_num_pages ctx input)%N)
  /\ exists links,
       edge_links ctx input (edge_num_pages ctx input) = Ok links
       /\ length (items ctx links) = N.to_nat (edge_num_pages ctx input)
       /\ (forall ol t, In ol (items ctx links) -> In t ol ->
                        (t < edge_num_pages ctx input)%N).
Proof.
  intros HM.
  assert (En : edge_num_pages ctx input
               = (Max ctx (Map (fun ppl => N.max (src ppl) (tgt ppl)) input) + 1)%N).
  { unfold edge_num_pages, wrap. apply N.mod_small. unfold SIZE_MAX in *. lia. }
  assert (Hid : forall e, In e (items ctx input) ->
                          (src e < edge_num_pages ctx input)%N
                          /\ (tgt e < edge_num_pages ctx input)%N).
  { intros e He.
    assert (H : (N.max (src e) (tgt e)
                 <= Max ctx (Map (fun ppl => N.max (src ppl) (tgt ppl)) input))%N).
    { apply Max_ge. rewrite items_Map. apply in_map_iff. exists e. auto. }
    rewrite En. lia. }
  split; [exact En|]. split; [exact Hid|].
  eexists. split; [|split].
  - unfold edge_links. apply GroupToIndex_Ok. intros e He. apply Hid. exact He.
  - rewrite items_range_split, length_map. apply length_indices.
  - rewrite items_range_split. intros ol t Hol Ht.
    apply in_map_iff in Hol. destruct Hol as [i [E _]].
    destruct (filter (fun x => N.eqb (src x) i) (items ctx input)) as [|e g] eqn:Ef.
    + subst ol. destruct Ht.
    + subst ol. apply in_map_iff in Ht. destruct Ht as [e' [<- He']].
      apply Hid. rewrite <- Ef in He'. apply filter_In in He'. tauto.
Qed.

(** C10, as amended. In [RunPageRankEdgePerLine], [num_pages] is one plus
    the maximum page id of the parsed edges, computed in [size_t]: when
    that maximum is below 2^64 - 1, [num_pages] is the maximum plus one,
    every source and target is below [num_pages], GroupToIndex and every
    ReduceToIndex of [PageRank] are fed keys in range, and the run ends
    without a fatal error. *)
Theorem page_ids_below_num_pages :
  forall (Rank : Type) (RA : RankArith Rank) (EX : Externals Rank) (ctx : Context)
         (lines : DIA string) (input : DIA PagePageLink)
         (output_path : string) (iterations : N),
    MapDie PageRankLineParser lines = Ok input ->
    (Max ctx (Map (fun ppl => N.max (src ppl) (tgt ppl)) input) < SIZE_MAX)%N ->
    edge_num_pages ctx input
    = (Max ctx (Map (fun ppl => N.max (src ppl) (tgt ppl)) input) + 1)%N
    /\ (forall e, In e (items ctx input) ->
                  (src e < edge_num_pages ctx input)%N
                  /\ (tgt e < edge_num_pages ctx input)%N)
    /\ (exists links ranks,
           edge_links ctx input (edge_num_pages ctx input) = Ok links
           /\ PageRank ctx links (edge_num_pages ctx input) iterations = Ok ranks)
    /\ (exists out,
           RunPageRankEdgePerLine ctx lines output_path iterations = Ok out).
Proof.
  intros Rank RA EX ctx lines input output_path iterations Hparse HM.
  destruct (edge_input_in_range ctx input HM) as [En [Hid [links [El [Hlen Hin]]]]].
  destruct (PageRank_total ctx links (edge_num_pages ctx input) iterations Hlen Hin)
    as [ranks [Er _]].
  split; [exact En|]. split; [exact Hid|]. split.
  - exists links, ranks. split; assumption.
  - unfold RunPageRankEdgePerLine. rewrite Hparse. cbn [bind].
    rewrite El. cbn [bind]. rewrite Er. cbn [bind].
    destruct (Nat.eqb (String.length output_path) 0); eexists; reflexivity.
Qed.

Lemma page_ids_below_num_pages_witness :
  MapDie PageRankLineParser [["0 1"; "1 2"]; ["2 0"; "3 0"]]%string
  = Ok [[{| src := 0; tgt := 1 |}; {| src := 1; tgt := 2 |}];
        [{| src := 2; tgt := 0 |}; {| src := 3; tgt := 0 |}]]%N
  /\ exists out,
       RunPageRankEdgePerLine (Rank := float) two_workers
         [["0 1"; "1 2"]; ["2 0"; "3 0"]]%string "out"%string 2 = Ok out.
Proof.
  assert (H : MapDie PageRankLineParser [["0 1"; "1 2"]; ["2 0"; "3 0"]]%string
              = Ok [[{| src := 0; tgt := 1 |}; {| src := 1; tgt := 2 |}];
                    [{| src := 2; tgt := 0 |}; {| src := 3; tgt := 0 |}]]%N)
    by reflexivity.
  split; [exact H|].
  destruct (page_ids_below_num_pages float binary64 sample_externals two_workers
              _ _ "out"%string 2%N H) as [_ [_ [_ G]]].
  - vm_compute. reflexivity.
  - exact G.
Defined.

(** C10, the claim as stated fails at the largest page id: the line
    [18446744073709551615 0] parses, [Max() + 1] wraps to [num_pages = 0],
    and GroupToIndex is fed a key outside the empty range. *)
Lemma largest_page_id_wraps_num_pages :
  MapDie PageRankLineParser [["18446744073709551615 0"%string]]
  = Ok [[{| src := SIZE_MAX; tgt := 0%N |}]]
  /\ edge_num_pages one_worker [[{| src := SIZE_MAX; tgt := 0%N |}]] = 0%N
  /\ RunPageRankEdgePerLine (Rank := float) one_worker
       [["18446744073709551615 0"%string]] ""%string 1
     = Die KeyRangeViolation.
Proof.
  split; [|split]; vm_compute; reflexivity.
Qed.

(** ** What the runs write *)

Lemma output_path_given (output_path : string) :
  output_path <> EmptyString -> Nat.eqb (String.length output_path) 0 = false.
Proof. destruct output_path; [congruence|reflexivity]. Qed.

Lemma items_ZipWithIndex {A B : Type} (ctx : Context) (f : A -> N -> B) (d : DIA A) :
  items ctx (ZipWithIndex ctx f d)
  = map (fun p => f (fst p) (snd p))
        (combine (items ctx d) (indices (N.of_nat (length (items ctx d))))).
Proof. unfold ZipWithIndex. apply items_range_split. Qed.

(** With an output path, the file-based index mode writes exactly
    [num_pages] lines, line [i] being the index [i], a colon and a space,
    and the rank of page [i] as [%g] prints it; the two join modes write
    one such line per record of the final rank collection. *)
Lemma output_lines :
  forall (Rank : Type) (RA : RankArith Rank) (EX : Externals Rank) (ctx : Context),
    (forall (lines : DIA string) (output_path : string) (iterations : N)
            (input : DIA PagePageLink) (links : DIA OutgoingLinks)
            (ranks : DIA Rank),
        output_path <> EmptyString ->
        MapDie PageRankLineParser lines = Ok input ->
        edge_links ctx input (edge_num_pages ctx input) = Ok links ->
        PageRank ctx links (edge_num_pages ctx input) iterations = Ok ranks ->
        exists written,
          RunPageRankEdgePerLine ctx lines output_path iterations = Ok (Some written)
          /\ length (items ctx written) = N.to_nat (edge_num_pages ctx input)
          /\ items ctx written
             = map (fun p => (to_string_size (snd p) ++ ": " ++ format_g (fst p))%string)
                   (combine (items ctx ranks) (indices (edge_num_pages ctx input))))
    /\ (forall (lines : DIA string) (output_path : string) (iterations : N)
               (input : DIA PagePageLink),
           output_path <> EmptyString ->
           MapDie PageRankLineParser lines = Ok input ->
           exists written,
             RunJoinPageRankEdgePerLine ctx lines output_path iterations
             = Ok (Some written)
             /\ items ctx written
                = map (fun rp => (to_string_size (fst rp) ++ ": "
                                  ++ format_g (snd rp))%string)
                      (items ctx (PageRankJoinSelf ctx true (join_links ctx input)
                                                   iterations)))
    /\ (forall (random_device : nat -> N) (input_path : string)
               (base_graph_gen : ZipfGraphGen) (output_path : string)
               (iterations num_pages : N),
           output_path <> EmptyString ->
           from_str input_path = Some num_pages ->
           exists written,
             RunPageRankJoinGenerated ctx random_device input_path base_graph_gen
                                      output_path iterations
             = Ok (Some written)
             /\ items ctx written
                = map (fun rp => (to_string_size (fst rp) ++ ": "
                                  ++ format_g (snd rp))%string)
                      (items ctx
                         (PageRankJoin ctx true
                            (generated_linked_pages ctx random_device
                                                    base_graph_gen num_pages)
                            num_pages iterations))).
Proof.
  intros Rank RA EX ctx. split; [|split].
  - intros lines output_path iterations input links ranks Hout Hparse El Er.
    unfold RunPageRankEdgePerLine. rewrite Hparse. cbn [bind].
    rewrite El. cbn [bind]. rewrite Er. cbn [bind].
    rewrite (output_path_given _ Hout). eexists. split; [reflexivity|].
    rewrite items_ZipWithIndex, (PageRank_length _ _ _ _ _ Er), N2Nat.id.
    split; [|reflexivity].
    rewrite length_map, length_combine, length_indices,
      (PageRank_length _ _ _ _ _ Er).
    apply Nat.min_id.
  - intros lines output_path iterations input Hout Hparse.
    unfold RunJoinPageRankEdgePerLine. rewrite Hparse. cbn [bind].
    rewrite (output_path_given _ Hout). eexists. split; [reflexivity|].
    apply items_Map.
  - intros random_device input_path base_graph_gen output_path iterations
           num_pages Hout Hn.
    unfold RunPageRankJoinGenerated. rewrite Hn.
    rewrite (output_path_given _ Hout). eexists. split; [reflexivity|].
    apply items_Map.
Qed.

(** C5. The lines that the four runs write with the formatting of the C
    library. On scenario A, after one iteration, [RunPageRankEdgePerLine]
    writes one line per page, the index, a colon and a space, then the
    rank as [%g] prints it. [RunJoinPageRankEdgePerLine] writes three lines
    for the four pages, none for page 3; on the chain 0>1>2>3 it writes no
    line at all after ten iterations, where [RunPageRankEdgePerLine]
    writes four. [RunPageRankJoinGenerated] writes two lines for four
    pages after one iteration. [RunPageRankGenerated] writes one line per
    page, but each holds the rank, cut to the integer 0, before the colon
    and the index, printed as a [double], after it. *)
Theorem lines_of_the_four_runs :
  RunPageRankEdgePerLine (EX := libc_externals) two_workers scenario_A_lines
                         "out" 1
  = Ok (Some [["0: 0.4625"; "1: 0.25"]; ["2: 0.25"; "3: 0.0375"]]%string)
  /\ RunJoinPageRankEdgePerLine (EX := libc_externals) two_workers
                                scenario_A_lines "out" 1
     = Ok (Some [["0: 1.85"; "2: 1"]; ["1: 1"]]%string)
  /\ RunPageRankEdgePerLine (EX := libc_externals) two_workers chain_lines
                            "out" 10
     = Ok (Some [["0: 0.0375"; "1: 0.069375"];
                 ["2: 0.0964688"; "3: 0.119498"]]%string)
  /\ RunJoinPageRankEdgePerLine (EX := libc_externals) two_workers chain_lines
                                "out" 10
     = Ok (Some [[]; []])
  /\ RunPageRankJoinGenerated (EX := libc_externals) two_workers
                              (fun _ => 1%N) "4" 0%N "out" 1
     = Ok (Some [[]; ["3: 0.4625"; "1: 0.4625"]]%string)
  /\ RunPageRankGenerated (EX := libc_externals) two_workers
                          (fun _ => 1%N) "4" 0%N "out" 10
     = Ok (Some [["0: 0.000000"; "0: 1.000000"];
                 ["0: 2.000000"; "0: 3.000000"]]%string).
Proof.
  repeat split; vm_compute; reflexivity.
Qed.

(** [RunPageRankGenerated] hands ZipWithIndex a lambda whose
    parameters are named in the other order, page id first: whenever the
    run writes, each line holds the rank converted to an integer, then the
    index converted to a [double] and printed by [std::to_string]. *)
Lemma generated_index_mode_swaps_fields {Rank : Type} {RA : RankArith Rank}
  {EX : Externals Rank} (ctx : Context) (random_device : nat -> N)
  (input_path : string) (base_graph_gen : ZipfGraphGen) (output_path : string)
  (iterations num_pages : N) (ranks : DIA Rank) :
  output_path <> EmptyString ->
  from_str input_path = Some num_pages ->
  PageRank ctx (generated_links ctx random_device base_graph_gen num_pages)
           num_pages iterations = Ok ranks ->
  exists written,
    RunPageRankGenerated ctx random_device input_path base_graph_gen
                         output_path iterations = Ok (Some written)
    /\ items ctx written
       = map (fun p => (to_string_size (size_of_double (fst p)) ++ ": "
                        ++ to_string_double (rk_of_size (snd p)))%string)
             (combine (items ctx ranks) (indices num_pages)).
Proof.
  intros Hout Hn Er. unfold RunPageRankGenerated. rewrite Hn, Er. cbn [bind].
  rewrite (output_path_given _ Hout). eexists. split; [reflexivity|].
  rewrite items_ZipWithIndex, (PageRank_length _ _ _ _ _ Er), N2Nat.id.
  reflexivity.
Qed.

(** ** The generated graph *)

Lemma length_generate_with {S A : Type} (f : S -> N -> A * S) (s : S)
  (idxs : list N) :
  length (generate_with f s idxs) = length idxs.
Proof.
  revert s. induction idxs as [|i idxs IH]; intros s; simpl; [reflexivity|].
  rewrite IH. reflexivity.
Qed.

Lemma length_flat_map_pointwise {A B C : Type} (F : A -> list B) (G : A -> list C)
  (l : list A) :
  (forall a, length (F a) = length (G a)) ->
  length (flat_map F l) = length (flat_map G l).
Proof.
  intros H. induction l as [|a l IH]; simpl; [reflexivity|].
  rewrite !length_app, H, IH. reflexivity.
Qed.

Lemma length_GenerateMutable {S A : Type} (ctx : Context) (size : N)
  (init : nat -> S) (f : S -> N -> A * S) :
  length (items ctx (GenerateMutable ctx size init f)) = N.to_nat size.
Proof.
  unfold GenerateMutable. rewrite items_map_workers.
  rewrite (length_flat_map_pointwise _ (local (range_split ctx (indices size))))
    by (intros w; apply length_generate_with).
  change (flat_map (local (range_split ctx (indices size))) (workers ctx))
    with (items ctx (range_split ctx (indices size))).
  rewrite items_range_split. apply length_indices.
Qed.

Lemma GenerateMutable_ext {S A : Type} (ctx : Context) (size : N)
  (init init' : nat -> S) (f : S -> N -> A * S) :
  (forall w, In w (workers ctx) -> init w = init' w) ->
  GenerateMutable ctx size init f = GenerateMutable ctx size init' f.
Proof.
  intros H. unfold GenerateMutable. apply map_ext_in. intros w Hw.
  rewrite (H w Hw). reflexivity.
Qed.

(** C8, as amended. The generated modes seed the engine of every worker
    from [std::random_device]: the collection of [num_pages] records they
    generate is determined by the page count, the parameters of the
    generator and the values the random device returned. Two runs produce
    the same collection when their engines start in the same states; the
    code does not make them do so. *)
Theorem generated_graph_follows_the_seeds :
  forall (Rank : Type) (EX : Externals Rank) (ctx : Context)
         (random_device random_device' : nat -> N)
         (base_graph_gen : ZipfGraphGen) (num_pages : N),
    (forall w, In w (workers ctx) ->
               seed_engine (random_device w) = seed_engine (random_device' w)) ->
    generated_links ctx random_device base_graph_gen num_pages
    = generated_links ctx random_device' base_graph_gen num_pages
    /\ generated_linked_pages ctx random_device base_graph_gen num_pages
       = generated_linked_pages ctx random_device' base_graph_gen num_pages
    /\ length (items ctx (generated_links ctx random_device base_graph_gen num_pages))
       = N.to_nat num_pages
    /\ length (items ctx (generated_linked_pages ctx random_device base_graph_gen
                                                 num_pages))
       = N.to_nat num_pages.
Proof.
  intros Rank EX ctx rd rd' gg n H.
  assert (E : forall w, In w (workers ctx) ->
                        generated_state rd gg n w = generated_state rd' gg n w).
  { intros w Hw. unfold generated_state. rewrite (H w Hw). reflexivity. }
  split; [|split; [|split]].
  - apply GenerateMutable_ext. exact E.
  - apply GenerateMutable_ext. exact E.
  - apply length_GenerateMutable.
  - apply length_GenerateMutable.
Qed.

Lemma generated_graph_follows_the_seeds_witness :
  (forall w, In w (workers two_workers) ->
             seed_engine (Externals := sample_externals) ((fun _ => 5%N) w)
             = seed_engine ((fun _ => 2147483652%N) w))
  /\ generated_links (Rank := float) two_workers (fun _ => 5%N) 0%N 4
     = generated_links two_workers (fun _ => 2147483652%N) 0%N 4.
Proof.
  assert (H : forall w, In w (workers two_workers) ->
                        seed_engine (Externals := sample_externals) ((fun _ => 5%N) w)
                        = seed_engine ((fun _ => 2147483652%N) w))
    by (intros w _; reflexivity).
  split; [exact H|].
  destruct (generated_graph_follows_the_seeds float sample_externals two_workers
              (fun _ => 5%N) (fun _ => 2147483652%N) 0%N 4%N H) as [G _].
  exact G.
Defined.

(** C8, the claim as stated fails: with the page count and the parameters
    fixed, a run whose random device returns 1 and a run whose random
    device returns 2 start their engines in different states, and a
    generator that draws from the engine yields different links. *)
Lemma two_runs_two_graphs :
  seed_engine (Externals := sample_externals) 1%N
  <> seed_engine (Externals := sample_externals) 2%N
  /\ generated_links (Rank := float) one_worker (fun _ => 1%N) 0%N 4
     = [[[3%N]; [1%N]; [1%N]; [2%N]]]
  /\ generated_links (Rank := float) one_worker (fun _ => 2%N) 0%N 4
     = [[[2%N]; [2%N]; [3%N]; [0%N]]].
Proof.
  split; [|split].
  - vm_compute. intros E. discriminate E.
  - vm_compute. reflexivity.
  - vm_compute. reflexivity.
Qed.

(** ** More on the line parser *)

Local Open Scope string_scope.

Lemma has_space_app (a b : string) :
  has_space (a ++ b) = has_space a || has_space b.
Proof.
  induction a as [|c t IH]; simpl; [reflexivity|].
  rewrite IH. apply orb_assoc.
Qed.

Lemma has_space_c_str (s : string) :
  has_space s = false -> has_space (c_str s) = false.
Proof.
  induction s as [|c t IH]; simpl; [reflexivity|].
  intros H. apply orb_false_iff in H. destruct H as [Hc Ht].
  destruct (N.eqb (N_of_ascii c) 0); simpl; [reflexivity|].
  rewrite Hc, (IH Ht). reflexivity.
Qed.

Lemma skip_spaces_suffix (s : string) : exists pre, s = pre ++ skip_spaces s.
Proof.
  induction s as [|c t [pre IH]]; simpl.
  - exists EmptyString. reflexivity.
  - destruct (isspace c).
    + exists (String c pre). simpl. f_equal. exact IH.
    + exists EmptyString. reflexivity.
Qed.

Lemma scan_digits_suffix (acc : N) (s : string) :
  exists pre, s = pre ++ snd (scan_digits acc s).
Proof.
  revert acc. induction s as [|c t IH]; intros acc; simpl.
  - exists EmptyString. reflexivity.
  - destruct (digit_value c) as [d|].
    + destruct (IH (acc * 10 + d)%N) as [pre E].
      exists (String c pre). simpl. f_equal. exact E.
    + exists EmptyString. reflexivity.
Qed.

Lemma string_app_assoc (a b c : string) : (a ++ b) ++ c = a ++ (b ++ c).
Proof. induction a as [|x t IH]; simpl; [reflexivity|]. rewrite IH. reflexivity. Qed.

(** [endptr] points into the text that was given. *)
Lemma strtoul_suffix (nptr : string) :
  exists pre, nptr = pre ++ snd (strtoul nptr).
Proof.
  unfold strtoul.
  destruct (skip_spaces_suffix nptr) as [p1 E1].
  set (sg := match skip_spaces nptr with
             | String "-"%char t => (true, t)
             | String "+"%char t => (false, t)
             | _ => (false, skip_spaces nptr)
             end).
  assert (Hsg : exists p2, skip_spaces nptr = p2 ++ snd sg).
  { subst sg. destruct (skip_spaces nptr) as [|c t].
    - exists EmptyString. reflexivity.
    - destruct (Ascii.eqb_spec c "-"%char) as [->|Hm].
      + exists "-". reflexivity.
      + destruct (Ascii.eqb_spec c "+"%char) as [->|Hp].
        * exists "+". reflexivity.
        * exists EmptyString.
          destruct c as [[|] [|] [|] [|] [|] [|] [|] [|]];
            try reflexivity; congruence. }
  destruct Hsg as [p2 E2].
  destruct (starts_with_digit (snd sg)); cbn [snd].
  - destruct (scan_digits_suffix 0 (snd sg)) as [p3 E3].
    exists (p1 ++ p2 ++ p3).
    rewrite E1 at 1. rewrite E2 at 1. rewrite E3 at 1.
    rewrite !string_app_assoc. reflexivity.
  - exists EmptyString. reflexivity.
Qed.

Lemma wrap_le (n : N) : (wrap n <= SIZE_MAX)%N.
Proof.
  unfold wrap.
  assert (H : (n mod (SIZE_MAX + 1) < SIZE_MAX + 1)%N)
    by (apply N.mod_lt; discriminate).
  lia.
Qed.

(** The value converted fits [unsigned long]. *)
Lemma strtoul_le (nptr : string) : (fst (strtoul nptr) <= SIZE_MAX)%N.
Proof.
  unfold strtoul.
  destruct (starts_with_digit _); cbn [fst].
  - destruct (N.leb_spec (fst (scan_digits 0
        (snd match skip_spaces nptr with
             | String "-"%char t => (true, t)
             | String "+"%char t => (false, t)
             | _ => (false, skip_spaces nptr)
             end))) SIZE_MAX) as [H|H].
    + destruct (fst match skip_spaces nptr with
                    | String "-"%char t => (true, t)
                    | String "+"%char t => (false, t)
                    | _ => (false, skip_spaces nptr)
                    end); [apply wrap_le|exact H].
    + apply N.le_refl.
  - discriminate.
Qed.

Lemma c_str_nul (s t : string) : c_str (s ++ String Ascii.zero t) = c_str s.
Proof.
  induction s as [|c r IH]; simpl; [reflexivity|].
  rewrite IH. reflexivity.
Qed.

Lemma PageRankLineParser_error (s : string) (e : Fatal) :
  PageRankLineParser s = Die e -> e = InputFormatError.
Proof.
  unfold PageRankLineParser.
  destruct (snd (strtoul (c_str s))) as [|c rest]; [congruence|].
  destruct (Ascii.eqb_spec c " "%char) as [->|Hc].
  - destruct (snd (strtoul rest)); congruence.
  - destruct c as [[|] [|] [|] [|] [|] [|] [|] [|]]; congruence.
Qed.

(** X1. A line without a space character ends the run, whatever else it
    holds: the first [die_unless] wants a space after the first number. A
    line that separates its numbers by a tab, as the comment in the source
    describes the format, is among them. *)
Theorem line_without_space_is_fatal :
  forall s : string,
    has_space s = false -> PageRankLineParser s = Die InputFormatError.
Proof.
  intros s H. unfold PageRankLineParser.
  destruct (strtoul_suffix (c_str s)) as [pre E].
  assert (G : has_space (snd (strtoul (c_str s))) = false).
  { apply has_space_c_str in H. rewrite E, has_space_app in H.
    apply orb_false_iff in H. apply H. }
  destruct (snd (strtoul (c_str s))) as [|c rest]; [reflexivity|].
  destruct (Ascii.eqb_spec c " "%char) as [->|Hc].
  - simpl in G. discriminate G.
  - destruct c as [[|] [|] [|] [|] [|] [|] [|] [|]]; congruence.
Qed.

Lemma line_without_space_is_fatal_witness :
  has_space (String "1" (String "009" (String "2" EmptyString))) = false
  /\ PageRankLineParser (String "1" (String "009" (String "2" EmptyString)))
     = Die InputFormatError.
Proof.
  split; [reflexivity|].
  apply (line_without_space_is_fatal
           (String "1" (String "009" (String "2" EmptyString)))).
  reflexivity.
Defined.

Lemma PageRankLineParser_le (s : string) (e : PagePageLink) :
  PageRankLineParser s = Ok e ->
  (src e <= SIZE_MAX)%N /\ (tgt e <= SIZE_MAX)%N.
Proof.
  unfold PageRankLineParser.
  destruct (snd (strtoul (c_str s))) as [|c rest]; [discriminate|].
  destruct (Ascii.eqb_spec c " "%char) as [->|Hc].
  - destruct (snd (strtoul rest)); [|discriminate].
    intros E. injection E as <-. cbn [src tgt].
    split; apply strtoul_le.
  - destruct c as [[|] [|] [|] [|] [|] [|] [|] [|]]; congruence.
Qed.

(** X2. The page ids of a parsed edge fit [size_t]: whatever the line
    holds, a number too large for [unsigned long] included, both fields of
    the edge are at most 2^64 - 1. *)
Theorem parsed_page_ids_fit_size_t :
  forall (s : string) (e : PagePageLink),
    PageRankLineParser s = Ok e ->
    (src e <= SIZE_MAX)%N /\ (tgt e <= SIZE_MAX)%N.
Proof.
  intros s e. unfold PageRankLineParser.
  destruct (snd (strtoul (c_str s))) as [|c rest]; [discriminate|].
  destruct (Ascii.eqb_spec c " "%char) as [->|Hc].
  - destruct (snd (strtoul rest)); [|discriminate].
    intros E. injection E as <-. cbn [src tgt].
    split; apply strtoul_le.
  - destruct c as [[|] [|] [|] [|] [|] [|] [|] [|]]; congruence.
Qed.

Lemma parsed_page_ids_fit_size_t_witness :
  (src {| src := SIZE_MAX; tgt := 7 |} <= SIZE_MAX)%N
  /\ (tgt {| src := SIZE_MAX; tgt := 7 |} <= SIZE_MAX)%N.
Proof.
  apply (parsed_page_ids_fit_size_t "99999999999999999999999 7").
  vm_compute. reflexivity.
Defined.

(** X3. The parser reads the line as a C string: what follows the first
    NUL character of a line is not looked at, so the line parses as the
    text before the NUL does. *)
Theorem text_after_nul_is_ignored :
  forall s t : string,
    PageRankLineParser (s ++ String Ascii.zero t) = PageRankLineParser s.
Proof.
  intros s t. unfold PageRankLineParser. rewrite c_str_nul. reflexivity.
Qed.

Lemma skip_spaces_all_space (w s : string) :
  all_space w = true -> skip_spaces (w ++ s) = skip_spaces s.
Proof.
  induction w as [|c t IH]; simpl; [reflexivity|].
  intros H. apply andb_true_iff in H. destruct H as [Hc Ht].
  rewrite Hc. apply IH. exact Ht.
Qed.

Lemma c_str_all_space (w s : string) :
  all_space w = true -> c_str (w ++ s) = w ++ c_str s.
Proof.
  induction w as [|c t IH]; simpl; [reflexivity|].
  intros H. apply andb_true_iff in H. destruct H as [Hc Ht].
  rewrite (IH Ht).
  destruct (N.eqb_spec (N_of_ascii c) 0) as [E|_]; [|reflexivity].
  unfold isspace in Hc. rewrite E in Hc. discriminate Hc.
Qed.

Lemma c_str_sign (sg : Sign) (s : string) :
  c_str (sign_text sg ++ s) = sign_text sg ++ c_str s.
Proof. destruct sg; reflexivity. Qed.

Lemma starts_with_digit_numeral (u : Decimal.uint) (rest : string) :
  u <> Decimal.Nil ->
  starts_with_digit (NilEmpty.string_of_uint u ++ rest) = true.
Proof. destruct u; intros H; [congruence|reflexivity..]. Qed.

Lemma strtoul_after_space (w s : string) :
  all_space w = true ->
  starts_with_digit
    (snd match skip_spaces s with
         | String "-"%char t => (true, t)
         | String "+"%char t => (false, t)
         | _ => (false, skip_spaces s)
         end) = true ->
  strtoul (w ++ s) = strtoul s.
Proof.
  intros Hw Hd. unfold strtoul.
  rewrite (skip_spaces_all_space w s Hw), Hd. reflexivity.
Qed.

Lemma strtoul_signed_numeral (sg : Sign) (u : Decimal.uint) (rest : string) :
  u <> Decimal.Nil -> starts_with_digit rest = false ->
  strtoul (sign_text sg ++ NilEmpty.string_of_uint u ++ rest)
  = (if N.leb (N.of_uint u) SIZE_MAX then signed sg (N.of_uint u) else SIZE_MAX,
     rest).
Proof.
  intros Hu Hrest. destruct sg.
  - cbn [sign_text append signed].
    rewrite (strtoul_numeral u rest Hu Hrest). f_equal.
    destruct (N.leb_spec (N.of_uint u) SIZE_MAX) as [H|H].
    + apply N.min_l. exact H.
    + apply N.min_r. lia.
  - unfold strtoul. cbn [sign_text append skip_spaces].
    change (isspace "+"%char) with false. cbv iota. cbn [fst snd].
    rewrite (starts_with_digit_numeral u rest Hu).
    rewrite scan_digits_numeral, (scan_digits_stop _ _ Hrest), acc_value_zero.
    reflexivity.
  - unfold strtoul. cbn [sign_text append skip_spaces].
    change (isspace "-"%char) with false. cbv iota. cbn [fst snd].
    rewrite (starts_with_digit_numeral u rest Hu).
    rewrite scan_digits_numeral, (scan_digits_stop _ _ Hrest), acc_value_zero.
    reflexivity.
Qed.

Lemma strtoul_space_signed_numeral (w : string) (sg : Sign) (u : Decimal.uint)
  (rest : string) :
  all_space w = true -> u <> Decimal.Nil -> starts_with_digit rest = false ->
  strtoul (w ++ sign_text sg ++ NilEmpty.string_of_uint u ++ rest)
  = (if N.leb (N.of_uint u) SIZE_MAX then signed sg (N.of_uint u) else SIZE_MAX,
     rest).
Proof.
  intros Hw Hu Hrest.
  rewrite strtoul_after_space; [apply strtoul_signed_numeral; assumption|exact Hw|].
  destruct sg; destruct u; try congruence; reflexivity.
Qed.

Lemma to_string_size_numeral (n : N) :
  to_string_size n = NilEmpty.string_of_uint (N.to_uint n)
  /\ N.to_uint n <> Decimal.Nil.
Proof.
  assert (H : N.to_uint n <> Decimal.Nil).
  { destruct n as [|p]; [discriminate|]. apply Unsigned.to_uint_nonnil. }
  split; [|exact H].
  unfold to_string_size, NilZero.string_of_uint.
  destruct (N.to_uint n); [congruence|reflexivity..].
Qed.

Lemma strtoul_space_signed_size (w : string) (sg : Sign) (n : N) (rest : string) :
  all_space w = true -> (n <= SIZE_MAX)%N -> starts_with_digit rest = false ->
  strtoul (w ++ sign_text sg ++ to_string_size n ++ rest) = (signed sg n, rest).
Proof.
  intros Hw Hn Hrest.
  destruct (to_string_size_numeral n) as [E Hu]. rewrite E.
  rewrite (strtoul_space_signed_numeral w sg _ rest Hw Hu Hrest).
  rewrite DecimalN.Unsigned.of_to.
  destruct (N.leb_spec n SIZE_MAX) as [_|H]; [reflexivity|lia].
Qed.

Lemma c_str_size (n : N) (rest : string) :
  c_str (to_string_size n ++ rest) = to_string_size n ++ c_str rest.
Proof.
  destruct (to_string_size_numeral n) as [E _]. rewrite E. apply c_str_numeral.
Qed.

(** X4. The parser accepts more than bare numerals: white space before
    either number is skipped and either number may carry a sign. A number
    with a minus sign is negated in [unsigned long], so the page id it
    gives is 2^64 minus the number. *)
Theorem space_and_sign_are_accepted :
  forall (w1 w2 : string) (sg1 sg2 : Sign) (a b : N),
    all_space w1 = true -> all_space w2 = true ->
    (a <= SIZE_MAX)%N -> (b <= SIZE_MAX)%N ->
    PageRankLineParser
      (w1 ++ sign_text sg1 ++ to_string_size a
          ++ String " "%char (w2 ++ sign_text sg2 ++ to_string_size b))
    = Ok {| src := signed sg1 a; tgt := signed sg2 b |}.
Proof.
  intros w1 w2 sg1 sg2 a b Hw1 Hw2 Ha Hb. unfold PageRankLineParser.
  rewrite (c_str_all_space w1 _ Hw1), c_str_sign, c_str_size.
  cbn [c_str]. change (N.eqb (N_of_ascii " "%char) 0) with false. cbv iota.
  rewrite (c_str_all_space w2 _ Hw2), c_str_sign.
  rewrite <- (string_app_nil_r (to_string_size b)), c_str_size.
  cbn [c_str].
  rewrite (strtoul_space_signed_size w1 sg1 a
             (String " "%char (w2 ++ sign_text sg2 ++ to_string_size b ++ ""))
             Hw1 Ha eq_refl).
  cbn [fst snd].
  rewrite (strtoul_space_signed_size w2 sg2 b "" Hw2 Hb eq_refl).
  reflexivity.
Qed.

Lemma space_and_sign_are_accepted_witness :
  PageRankLineParser (String "009" "-1" ++ String " " "  +2")
  = Ok {| src := SIZE_MAX; tgt := 2%N |}.
Proof.
  apply (space_and_sign_are_accepted (String "009" "") "  " MinusSign PlusSign 1%N 2%N);
    vm_compute; reflexivity || discriminate.
Defined.

Lemma PageRankLineParser_edge_line (e : PagePageLink) :
  (src e <= SIZE_MAX)%N -> (tgt e <= SIZE_MAX)%N ->
  PageRankLineParser (edge_line e) = Ok e.
Proof.
  intros Hs Ht. destruct e as [a b]. cbn [src tgt] in Hs, Ht.
  unfold edge_line. cbn [src tgt].
  destruct (to_string_size_numeral a) as [Ea Ha].
  destruct (to_string_size_numeral b) as [Eb Hb].
  rewrite Ea, Eb, (PageRankLineParser_numerals _ _ Ha Hb).
  rewrite !DecimalN.Unsigned.of_to, !N.min_l by assumption.
  reflexivity.
Qed.

Lemma map_result_map_Ok {A B : Type} (f : A -> result B) (g : B -> A) (l : list B) :
  (forall x, In x l -> f (g x) = Ok x) -> map_result f (map g l) = Ok l.
Proof.
  induction l as [|x t IH]; intros H; simpl; [reflexivity|].
  rewrite (H x (or_introl eq_refl)). cbn [bind].
  rewrite IH by (intros y Hy; apply H; right; exact Hy).
  reflexivity.
Qed.

(** X5. Writing and reading edges round-trips: a collection of edges whose
    page ids fit [size_t], written one edge per line as two decimal numbers
    with a space between them, is parsed back to the same collection, line
    by line and worker by worker. *)
Theorem written_edges_parse_back :
  forall d : DIA PagePageLink,
    (forall l e, In l d -> In e l ->
                 (src e <= SIZE_MAX)%N /\ (tgt e <= SIZE_MAX)%N) ->
    MapDie PageRankLineParser (Map edge_line d) = Ok d.
Proof.
  intros d H. unfold MapDie, Map.
  apply map_result_map_Ok. intros l Hl.
  apply map_result_map_Ok. intros e He.
  destruct (H l e Hl He) as [Hs Ht].
  apply PageRankLineParser_edge_line; assumption.
Qed.

Lemma written_edges_parse_back_witness :
  MapDie PageRankLineParser
         (Map edge_line [[{| src := 0%N; tgt := 1%N |}];
                         [{| src := SIZE_MAX; tgt := 0%N |}]])
  = Ok [[{| src := 0%N; tgt := 1%N |}]; [{| src := SIZE_MAX; tgt := 0%N |}]].
Proof.
  apply (written_edges_parse_back
           [[{| src := 0%N; tgt := 1%N |}]; [{| src := SIZE_MAX; tgt := 0%N |}]]).
  intros l e [<-|[<-|[]]] [<-|[]]; split; vm_compute; discriminate.
Defined.

Lemma map_result_Die {A B : Type} (f : A -> result B) (l : list A) (x : A)
  (e0 E : Fatal) :
  (forall y e, f y = Die e -> e = E) ->
  In x l -> f x = Die e0 -> map_result f l = Die E.
Proof.
  intros HE. induction l as [|y t IH]; intros Hin Hx; [destruct Hin|].
  simpl. destruct (f y) as [b|e] eqn:Ey.
  - cbn [bind]. destruct Hin as [->|Hin]; [congruence|].
    rewrite (IH Hin Hx). reflexivity.
  - cbn [bind]. f_equal. apply (HE y e Ey).
Qed.

Lemma MapDie_bad_line (lines : DIA string) (ls : list string) (l : string)
  (e : Fatal) :
  In ls lines -> In l ls -> PageRankLineParser l = Die e ->
  MapDie PageRankLineParser lines = Die InputFormatError.
Proof.
  intros Hls Hl He. unfold MapDie.
  assert (G : map_result PageRankLineParser ls = Die InputFormatError).
  { apply (map_result_Die _ ls l e InputFormatError);
      [apply PageRankLineParser_error|exact Hl|exact He]. }
  apply (map_result_Die _ lines ls InputFormatError InputFormatError);
    [|exact Hls|exact G].
  intros y e' Hy.
  assert (K : forall m e1, map_result PageRankLineParser m = Die e1 ->
                           e1 = InputFormatError).
  { clear. induction m as [|z t IH]; intros e1; simpl; [discriminate|].
    destruct (PageRankLineParser z) as [b|e2] eqn:Ez; cbn [bind].
    - destruct (map_result PageRankLineParser t) as [ys|e3]; cbn [bind];
        [discriminate|].
      intros E. injection E as <-. apply (IH e3). reflexivity.
    - intros E. injection E as <-. apply (PageRankLineParser_error z e2 Ez). }
  apply (K y e' Hy).
Qed.

(** X6. One line that does not parse ends a file-based run, whichever
    worker reads it and whatever the other lines, the output path and the
    iteration count are: [RunPageRankEdgePerLine] and
    [RunJoinPageRankEdgePerLine] both fail with the input format error, and
    nothing is written. *)
Theorem one_bad_line_ends_the_run :
  forall (Rank : Type) (RA : RankArith Rank) (EX : Externals Rank) (ctx : Context)
         (lines : DIA string) (ls : list string) (l : string) (e : Fatal)
         (output_path : string) (iterations : N),
    In ls lines -> In l ls -> PageRankLineParser l = Die e ->
    RunPageRankEdgePerLine ctx lines output_path iterations = Die InputFormatError
    /\ RunJoinPageRankEdgePerLine ctx lines output_path iterations
       = Die InputFormatError.
Proof.
  intros Rank RA EX ctx lines ls l e output_path iterations Hls Hl He.
  unfold RunPageRankEdgePerLine, RunJoinPageRankEdgePerLine.
  rewrite (MapDie_bad_line lines ls l e Hls Hl He). split; reflexivity.
Qed.

Lemma one_bad_line_ends_the_run_witness :
  RunPageRankEdgePerLine (Rank := float) one_worker [["0 1"; "1,0"]] "out" 3
  = Die InputFormatError
  /\ RunJoinPageRankEdgePerLine (Rank := float) one_worker [["0 1"; "1,0"]] "out" 3
     = Die InputFormatError.
Proof.
  apply (one_bad_line_ends_the_run float binary64 sample_externals one_worker
           [["0 1"; "1,0"]] ["0 1"; "1,0"] "1,0" InputFormatError "out" 3%N).
  - left. reflexivity.
  - right. left. reflexivity.
  - vm_compute. reflexivity.
Defined.

Local Close Scope string_scope.

(** ** Fatal errors of the index-based loop *)

Section LoopErrors.

Context {Rank : Type} {RA : RankArith Rank}.

Lemma PageRank_first_round_keys (ctx : Context) (links : DIA OutgoingLinks)
  (num_pages iterations : N) (ol : OutgoingLinks) (t : PageId) :
  length (items ctx links) = N.to_nat num_pages ->
  In ol (items ctx links) -> In t ol -> (num_pages <= t)%N ->
  PageRank ctx links num_pages (N.succ iterations) = Die KeyRangeViolation.
Proof.
  intros Hlen Hol Ht Hbad.
  assert (R : forall ranks : DIA Rank,
             length (items ctx ranks) = N.to_nat num_pages ->
             PageRank_iteration ctx links num_pages ranks = Die KeyRangeViolation).
  { intros ranks Hr. rewrite PageRank_iteration_char.
    rewrite Hlen, Hr, Nat.eqb_refl.
    match goal with
    | |- context [forallb ?p ?l] => assert (E : forallb p l = false)
    end.
    { destruct (in_combine_exists_r (items ctx links) (items ctx ranks) ol)
        as [r Hr']; [congruence|exact Hol|].
      apply not_true_is_false. intros F.
      rewrite forallb_forall in F.
      assert (Hc : In (t, (r / rk_of_size (N.of_nat (length ol)))%rk)
                      (flat_map spec_contributions
                                (combine (items ctx links) (items ctx ranks)))).
      { apply in_flat_map. exists (ol, r). split; [exact Hr'|].
        unfold spec_contributions. cbn [fst snd].
        apply in_map_iff. exists t. split; [reflexivity|exact Ht]. }
      specialize (F _ Hc). cbn [fst] in F. apply N.ltb_lt in F. lia. }
    rewrite E. reflexivity. }
  induction iterations as [|k IH] using N.peano_ind.
  - rewrite PageRank_succ, PageRank_zero. cbn [bind]. apply R.
    rewrite items_Generate, length_map. apply length_indices.
  - rewrite PageRank_succ, IH. reflexivity.
Qed.

End LoopErrors.

(** X8. A link to a page id that is not below [num_pages] ends the run in
    the first round, in ReduceToIndex: with one list of links per page and
    at least one iteration, [PageRank] fails with the key range error as
    soon as one target is [num_pages] or more. *)
Theorem link_beyond_num_pages_is_fatal :
  forall (Rank : Type) (RA : RankArith Rank) (ctx : Context)
         (links : DIA OutgoingLinks) (num_pages iterations : N)
         (ol : OutgoingLinks) (t : PageId),
    (0 < iterations)%N ->
    length (items ctx links) = N.to_nat num_pages ->
    In ol (items ctx links) -> In t ol -> (num_pages <= t)%N ->
    PageRank ctx links num_pages iterations = Die KeyRangeViolation.
Proof.
  intros Rank RA ctx links num_pages iterations ol t Hit Hlen Hol Ht Hbad.
  rewrite <- (N.succ_pred iterations) by lia.
  apply (PageRank_first_round_keys ctx links num_pages _ ol t); assumption.
Qed.

Lemma link_beyond_num_pages_is_fatal_witness :
  PageRank (Rank := float) two_workers [[[1%N]]; [[2%N]]] 2 1
  = Die KeyRangeViolation.
Proof.
  apply (link_beyond_num_pages_is_fatal float binary64 two_workers
           [[[1%N]]; [[2%N]]] 2%N 1%N [2%N] 2%N).
  - reflexivity.
  - reflexivity.
  - right. left. reflexivity.
  - left. reflexivity.
  - vm_compute. discriminate.
Defined.

Lemma PageRank_iteration_same (ctx ctx' : Context) (links links' : DIA OutgoingLinks)
  (num_pages : N) (ranks ranks' : DIA Qc) :
  items ctx links = items ctx' links' ->
  items ctx ranks = items ctx' ranks' ->
  same_outcome ctx ctx' (PageRank_iteration ctx links num_pages ranks)
               (PageRank_iteration ctx' links' num_pages ranks').
Proof.
  intros El Er. rewrite !PageRank_iteration_char, <- El, <- Er.
  destruct (Nat.eqb _ _); [|reflexivity].
  destruct (forallb _ _); [|reflexivity].
  cbn [same_outcome]. rewrite !items_Map, !items_range_split. reflexivity.
Qed.

(** X9. The ranks of the index-based shape do not depend on how many
    workers there are, on the hash, or on how the records are placed: two
    runs of [PageRank] in exact arithmetic whose [links] hold the same
    records in the same order end the same way, with the same fatal error
    or with the same ranks in the same order. *)
Theorem PageRank_is_placement_independent :
  forall (ctx ctx' : Context) (links links' : DIA OutgoingLinks)
         (num_pages iterations : N),
    items ctx links = items ctx' links' ->
    same_outcome ctx ctx'
                 (PageRank (Rank := Qc) ctx links num_pages iterations)
                 (PageRank (Rank := Qc) ctx' links' num_pages iterations).
Proof.
  intros ctx ctx' links links' num_pages iterations El.
  induction iterations as [|k IH] using N.peano_ind.
  - rewrite !PageRank_zero. cbn [same_outcome]. rewrite !items_Generate.
    reflexivity.
  - rewrite !PageRank_succ.
    destruct (PageRank ctx links num_pages k) as [r|e];
      destruct (PageRank ctx' links' num_pages k) as [r'|e'];
      cbn [same_outcome] in IH; cbn [bind]; try contradiction.
    + apply PageRank_iteration_same; assumption.
    + exact IH.
Qed.

Lemma PageRank_is_placement_independent_witness :
  same_outcome two_workers one_worker
               (PageRank (Rank := Qc) two_workers scenario_A_links 4 3)
               (PageRank (Rank := Qc) one_worker [scenario_A] 4 3).
Proof.
  apply (PageRank_is_placement_independent two_workers one_worker
           scenario_A_links [scenario_A] 4%N 3%N).
  reflexivity.
Defined.

(** ** Bounds on the exact ranks *)

Section ExactBounds.

Local Open Scope Qc_scope.

Lemma Qcsum_passed_on (l : list (OutgoingLinks * Qc)) :
  Qcsum (map snd (flat_map (spec_contributions (Rank := Qc)) l))
  = Qcsum (map snd (filter has_links l)).
Proof.
  induction l as [|[ol r] l IH]; [reflexivity|].
  cbn [flat_map]. rewrite map_app, Qcsum_app, IH.
  destruct ol as [|t ol].
  - change (Q2Qc 0 + Qcsum (map snd (filter has_links l))
            = Qcsum (map snd (filter has_links l))).
    ring.
  - rewrite Qcsum_spec_contributions by discriminate. reflexivity.
Qed.

Lemma spec_round_mass (links : list OutgoingLinks) (num_pages : N)
  (ranks : list Qc) :
  (0 < num_pages)%N ->
  (forall c, In c (flat_map (spec_contributions (Rank := Qc)) (combine links ranks)) ->
             (fst c < num_pages)%N) ->
  Qcsum (spec_round links num_pages ranks)
  = dampening * linked_mass links ranks + (rk1 - dampening).
Proof.
  intros Hn Hin. unfold spec_round, newRank, linked_mass.
  cbn [rk_add rk_mul rational].
  rewrite (Qcsum_map_plus
             (fun i => dampening
                       * rawTotal (flat_map spec_contributions (combine links ranks)) i)
             (fun _ => rk_div (rk_sub rk1 dampening) (rk_of_size num_pages))).
  rewrite Qcsum_map_scale, Qcsum_map_const, length_indices.
  rewrite (map_ext _ (fun i => Qcsum (map snd
             (filter (fun c => N.eqb (fst c) i)
                     (flat_map (spec_contributions (Rank := Qc))
                               (combine links ranks))))))
    by (intros i; apply rawTotal_exact).
  rewrite Qcsum_by_index by exact Hin.
  rewrite Qcsum_passed_on.
  rewrite <- (N2Nat.id num_pages) at 2. rewrite <- rational_of_nat, N2Nat.id.
  assert (Hk : rk_of_size (Rank := Qc) num_pages <> 0)
    by (apply rational_of_size_nonzero; lia).
  cbn [rk_div rk_sub rational]. field. exact Hk.
Qed.

Lemma PageRank_iteration_keys (ctx : Context) (links : DIA OutgoingLinks)
  (num_pages : N) (ranks ranks' : DIA Qc) :
  PageRank_iteration ctx links num_pages ranks = Ok ranks' ->
  length (items ctx links) = length (items ctx ranks)
  /\ forall c, In c (flat_map (spec_contributions (Rank := Qc))
                              (combine (items ctx links) (items ctx ranks))) ->
               (fst c < num_pages)%N.
Proof.
  rewrite PageRank_iteration_char.
  destruct (Nat.eqb_spec (length (items ctx links)) (length (items ctx ranks)))
    as [Hlen|]; [|discriminate].
  destruct (forallb _ _) eqn:F; [|discriminate].
  intros _. split; [exact Hlen|].
  intros c Hc. rewrite forallb_forall in F. apply N.ltb_lt. apply F. exact Hc.
Qed.

Lemma Qcsum_nonneg (l : list Qc) :
  (forall x, In x l -> 0 <= x) -> 0 <= Qcsum l.
Proof.
  induction l as [|x l IH]; intros H; simpl.
  - apply Qcle_refl.
  - replace (Q2Qc 0) with (0 + 0) by ring.
    apply Qcplus_le_compat; [apply H; left; reflexivity|].
    apply IH. intros y Hy. apply H. right. exact Hy.
Qed.

Lemma Qcsum_member_le (l : list Qc) (x : Qc) :
  (forall y, In y l -> 0 <= y) -> In x l -> x <= Qcsum l.
Proof.
  induction l as [|y l IH]; intros H Hin; [destruct Hin|].
  simpl. destruct Hin as [->|Hin].
  - replace x with (x + 0) at 1 by ring.
    apply Qcplus_le_compat; [apply Qcle_refl|].
    apply Qcsum_nonneg. intros z Hz. apply H. right. exact Hz.
  - replace x with (0 + x) by ring.
    apply Qcplus_le_compat; [apply H; left; reflexivity|].
    apply IH; [|exact Hin]. intros z Hz. apply H. right. exact Hz.
Qed.

Lemma Qcsum_filter_le {A : Type} (p : A * Qc -> bool) (l : list (A * Qc)) :
  (forall x, In x l -> 0 <= snd x) ->
  Qcsum (map snd (filter p l)) <= Qcsum (map snd l).
Proof.
  induction l as [|x l IH]; intros H; simpl; [apply Qcle_refl|].
  assert (IH' : Qcsum (map snd (filter p l)) <= Qcsum (map snd l))
    by (apply IH; intros y Hy; apply H; right; exact Hy).
  destruct (p x); simpl.
  - apply Qcplus_le_compat; [apply Qcle_refl|exact IH'].
  - replace (Qcsum (map snd (filter p l)))
      with (0 + Qcsum (map snd (filter p l))) by ring.
    apply Qcplus_le_compat; [apply H; left; reflexivity|exact IH'].
Qed.

Lemma rational_of_size_pos (k : N) :
  (0 < k)%N -> 0 < rk_of_size (Rank := Qc) k.
Proof.
  intros Hk. cbn [rk_of_size rational]. unfold Qclt. cbn [this Q2Qc].
  rewrite !Qred_correct. unfold Qlt. simpl. lia.
Qed.

Lemma Qcdiv_nonneg (r k : Qc) : 0 <= r -> 0 < k -> 0 <= r / k.
Proof.
  intros Hr Hk. apply (Qcmult_lt_0_le_reg_r _ _ k Hk).
  replace (0 * k) with (Q2Qc 0) by ring.
  replace (r / k * k) with r; [exact Hr|].
  field. apply not_eq_sym, Qclt_not_eq. exact Hk.
Qed.

Lemma dampening_bounds :
  0 <= dampening (Rank := Qc) /\ 0 < rk1 - dampening (Rank := Qc).
Proof. split; vm_compute; [discriminate|reflexivity]. Qed.

Lemma rank_floor_pos (num_pages : N) : (0 < num_pages)%N -> 0 < rank_floor num_pages.
Proof.
  intros Hn. unfold rank_floor. cbn [rk_div rk_sub rational].
  destruct dampening_bounds as [_ Hd].
  pose proof (rational_of_size_pos num_pages Hn) as Hk.
  apply Qclt_minus_iff in Hk.
  assert (E : (rk1 - dampening) / rk_of_size num_pages
              = (rk1 - dampening) * / rk_of_size (Rank := Qc) num_pages)
    by reflexivity.
  destruct (Qclt_le_dec 0 ((rk1 - dampening) / rk_of_size (Rank := Qc) num_pages))
    as [H|H]; [exact H|exfalso].
  pose proof (rational_of_size_pos num_pages Hn) as Hk'.
  assert (G : (rk1 - dampening) / rk_of_size (Rank := Qc) num_pages
              * rk_of_size num_pages <= 0 * rk_of_size num_pages).
  { apply Qcmult_le_compat_r; [exact H|apply Qclt_le_weak; exact Hk']. }
  replace ((rk1 - dampening) / rk_of_size (Rank := Qc) num_pages
           * rk_of_size num_pages) with (rk1 - dampening (Rank := Qc)) in G
    by (field; apply not_eq_sym, Qclt_not_eq; exact Hk').
  replace (0 * rk_of_size (Rank := Qc) num_pages) with (Q2Qc 0) in G by ring.
  exact (Qclt_not_le _ _ Hd G).
Qed.
End ExactBounds.

Section ExactBoundsLoop.

Local Open Scope Qc_scope.

Lemma contributions_nonneg (links : list OutgoingLinks) (ranks : list Qc)
  (c : PageId * Qc) :
  (forall r, In r ranks -> 0 <= r) ->
  In c (flat_map (spec_contributions (Rank := Qc)) (combine links ranks)) ->
  0 <= snd c.
Proof.
  intros Hr Hc. apply in_flat_map in Hc. destruct Hc as [[ol r] [Hp Hc]].
  unfold spec_contributions in Hc. cbn [fst snd] in Hc.
  apply in_map_iff in Hc. destruct Hc as [t [<- Ht]]. cbn [snd rk_div rational].
  apply Qcdiv_nonneg.
  - apply Hr. eapply in_combine_r. exact Hp.
  - apply rational_of_size_pos. destruct ol; [destruct Ht|simpl; lia].
Qed.

Lemma rawTotal_nonneg (cs : list (PageId * Qc)) (i : PageId) :
  (forall c, In c cs -> 0 <= snd c) -> 0 <= rawTotal (Rank := Qc) cs i.
Proof.
  intros H. rewrite rawTotal_exact. apply Qcsum_nonneg.
  intros x Hx. unfold values_of in Hx. apply in_map_iff in Hx.
  destruct Hx as [c [<- Hc]]. apply filter_In in Hc. apply H, Hc.
Qed.

Lemma newRank_floor (num_pages : N) (raw : Qc) :
  0 <= raw -> rank_floor num_pages <= newRank (Rank := Qc) num_pages raw.
Proof.
  intros H. unfold newRank, rank_floor. cbn [rk_add rk_mul rational].
  replace ((rk1 - dampening) / rk_of_size num_pages)%rk
    with (0 + (rk1 - dampening) / rk_of_size num_pages)%rk at 1
    by (cbn [rk_add rk_sub rk_div rational]; ring).
  apply Qcplus_le_compat; [|apply Qcle_refl].
  replace (Q2Qc 0) with (0 * raw) by ring.
  apply Qcmult_le_compat_r; [apply dampening_bounds|exact H].
Qed.

Lemma spec_round_floor (links : list OutgoingLinks) (num_pages : N)
  (ranks : list Qc) (r : Qc) :
  (forall x, In x ranks -> 0 <= x) ->
  In r (spec_round links num_pages ranks) -> rank_floor num_pages <= r.
Proof.
  intros Hr Hin. unfold spec_round in Hin. apply in_map_iff in Hin.
  destruct Hin as [i [<- _]]. apply newRank_floor, rawTotal_nonneg.
  intros c Hc. apply (contributions_nonneg links ranks c Hr Hc).
Qed.

Lemma linked_mass_le (links : list OutgoingLinks) (ranks : list Qc) :
  length links = length ranks ->
  (forall x, In x ranks -> 0 <= x) ->
  linked_mass links ranks <= Qcsum ranks.
Proof.
  intros Hlen Hr. unfold linked_mass.
  rewrite <- (map_snd_combine links ranks Hlen) at 2.
  apply Qcsum_filter_le. intros x Hx. apply Hr.
  destruct x as [ol r]. eapply in_combine_r. exact Hx.
Qed.

Lemma PageRank_invariant (ctx : Context) (links : DIA OutgoingLinks)
  (num_pages iterations : N) (ranks : DIA Qc) :
  (0 < num_pages)%N ->
  PageRank ctx links num_pages iterations = Ok ranks ->
  (forall r, In r (items ctx ranks) -> 0 < r) /\ Qcsum (items ctx ranks) <= 1.
Proof.
  intros Hn. revert ranks.
  induction iterations as [|k IH] using N.peano_ind; intros ranks E.
  - rewrite PageRank_zero in E. injection E as <-. rewrite items_Generate.
    split.
    + intros r Hr. apply in_map_iff in Hr. destruct Hr as [i [<- _]].
      cbn [rk_div rk1 rational].
      destruct (Qclt_le_dec 0 (1 / rk_of_size (Rank := Qc) num_pages))
        as [H|H]; [exact H|exfalso].
      pose proof (rational_of_size_pos num_pages Hn) as Hk.
      assert (G : 1 / rk_of_size (Rank := Qc) num_pages * rk_of_size num_pages
                  <= 0 * rk_of_size num_pages).
      { apply Qcmult_le_compat_r; [exact H|apply Qclt_le_weak; exact Hk]. }
      replace (1 / rk_of_size (Rank := Qc) num_pages * rk_of_size num_pages)
        with (Q2Qc 1) in G
        by (field; apply not_eq_sym, Qclt_not_eq; exact Hk).
      replace (0 * rk_of_size (Rank := Qc) num_pages) with (Q2Qc 0) in G by ring.
      revert G. vm_compute. intros G. apply G. reflexivity.
    + match goal with
      | |- ?x <= _ =>
          replace x with (Q2Qc 1)
            by (symmetry; exact (Qcsum_initial_ranks num_pages Hn))
      end.
      apply Qcle_refl.
  - rewrite PageRank_succ in E.
    destruct (PageRank ctx links num_pages k) as [prev|e]; [|discriminate].
    cbn [bind] in E. destruct (IH prev eq_refl) as [Hpos Hsum].
    assert (Hnn : forall x, In x (items ctx prev) -> 0 <= x)
      by (intros x Hx; apply Qclt_le_weak, Hpos, Hx).
    destruct (PageRank_iteration_keys ctx links num_pages prev ranks E)
      as [Hlen Hkeys].
    rewrite (PageRank_iteration_spec _ _ _ _ _ E). split.
    + intros r Hr. eapply Qclt_le_trans; [apply (rank_floor_pos num_pages Hn)|].
      apply (spec_round_floor _ _ _ r Hnn Hr).
    + rewrite (spec_round_mass _ _ _ Hn Hkeys).
      pose proof (linked_mass_le _ _ Hlen Hnn) as Hm.
      assert (G : dampening (Rank := Qc) * linked_mass (items ctx links) (items ctx prev)
                  <= dampening * 1).
      { rewrite !(Qcmult_comm dampening).
        apply Qcmult_le_compat_r; [|apply dampening_bounds].
        eapply Qcle_trans; [exact Hm|exact Hsum]. }
      replace (Q2Qc 1) with (dampening (Rank := Qc) * 1 + (rk1 - dampening))
        by (cbn [rk_sub rk1 rational]; ring).
      apply Qcplus_le_compat; [exact G|apply Qcle_refl].
Qed.

End ExactBoundsLoop.

(** X10. What a round of [PageRank] does to the sum of the ranks, pages
    without links included: in exact arithmetic the new ranks sum to
    [dampening] times the ranks of the pages that have a link to follow,
    plus [1 - dampening]. The rank of a page without links is not passed
    on, so with such a page the sum falls below the sum before. *)
Theorem round_passes_on_the_rank_of_linked_pages :
  forall (ctx : Context) (links : DIA OutgoingLinks) (num_pages : N)
         (ranks ranks' : DIA Qc),
    (0 < num_pages)%N ->
    PageRank_iteration ctx links num_pages ranks = Ok ranks' ->
    Qcsum (items ctx ranks')
    = (dampening * linked_mass (items ctx links) (items ctx ranks)
       + (rk1 - dampening))%rk.
Proof.
  intros ctx links num_pages ranks ranks' Hn E.
  destruct (PageRank_iteration_keys ctx links num_pages ranks ranks' E)
    as [_ Hkeys].
  rewrite (PageRank_iteration_spec _ _ _ _ _ E).
  apply (spec_round_mass _ _ _ Hn Hkeys).
Qed.

Lemma round_passes_on_the_rank_of_linked_pages_witness :
  exists ranks',
    PageRank_iteration two_workers [[[1%N]; []]; [[0%N]; [0%N]]] 4
                       (Generate two_workers 4 (fun _ => Q2Qc (1 # 4)))
    = Ok ranks'
    /\ Qcsum (items two_workers ranks')
       = (dampening
          * linked_mass (items two_workers [[[1%N]; []]; [[0%N]; [0%N]]])
                        (items two_workers
                               (Generate two_workers 4 (fun _ => Q2Qc (1 # 4))))
          + (rk1 - dampening))%rk.
Proof.
  destruct (PageRank_iteration_total two_workers [[[1%N]; []]; [[0%N]; [0%N]]] 4%N
              (Generate two_workers 4 (fun _ => Q2Qc (1 # 4)))) as [ranks' E].
  - reflexivity.
  - intros ol t [<-|[<-|[<-|[<-|[]]]]] Ht; simpl in Ht;
      repeat (destruct Ht as [<-|Ht]; [reflexivity|]); destruct Ht.
  - exists ranks'. split; [exact E|].
    apply (round_passes_on_the_rank_of_linked_pages two_workers
             [[[1%N]; []]; [[0%N]; [0%N]]] 4%N
             (Generate two_workers 4 (fun _ => Q2Qc (1 # 4))) ranks');
      [reflexivity|exact E].
Defined.

(** X11. The ranks of the index-based shape stay within bounds in exact
    arithmetic: whenever [PageRank] returns for at least one page, every
    rank is positive and at most 1, the ranks sum to at most 1, and after
    one iteration or more no rank is below [(1 - dampening) / num_pages]. *)
Theorem ranks_stay_within_bounds :
  forall (ctx : Context) (links : DIA OutgoingLinks) (num_pages iterations : N)
         (ranks : DIA Qc),
    (0 < num_pages)%N ->
    PageRank ctx links num_pages iterations = Ok ranks ->
    (Qcsum (items ctx ranks) <= Q2Qc 1)%Qc
    /\ forall r, In r (items ctx ranks) ->
                 (Q2Qc 0 < r)%Qc /\ (r <= Q2Qc 1)%Qc
                 /\ ((0 < iterations)%N -> (rank_floor num_pages <= r)%Qc).
Proof.
  intros ctx links num_pages iterations ranks Hn E.
  destruct (PageRank_invariant ctx links num_pages iterations ranks Hn E)
    as [Hpos Hsum].
  split; [exact Hsum|]. intros r Hr. split; [apply Hpos, Hr|]. split.
  - eapply Qcle_trans; [|exact Hsum].
    apply Qcsum_member_le; [|exact Hr].
    intros y Hy. apply Qclt_le_weak, Hpos, Hy.
  - intros Hit. rewrite <- (N.succ_pred iterations) in E by lia.
    rewrite PageRank_succ in E.
    destruct (PageRank ctx links num_pages (N.pred iterations)) as [prev|e] eqn:Ep;
      [|discriminate].
    cbn [bind] in E.
    destruct (PageRank_invariant ctx links num_pages _ prev Hn Ep) as [Hpos' _].
    rewrite (PageRank_iteration_spec _ _ _ _ _ E) in Hr.
    eapply spec_round_floor; [|exact Hr].
    intros y Hy. apply Qclt_le_weak, Hpos', Hy.
Qed.

Lemma ranks_stay_within_bounds_witness :
  exists ranks,
    PageRank (Rank := Qc) two_workers [[[1%N]; []]; [[0%N]; [0%N]]] 4 2 = Ok ranks
    /\ (Qcsum (items two_workers ranks) <= Q2Qc 1)%Qc
    /\ forall r, In r (items two_workers ranks) ->
                 (Q2Qc 0 < r)%Qc /\ (r <= Q2Qc 1)%Qc
                 /\ ((0 < 2)%N -> (rank_floor 4 <= r)%Qc).
Proof.
  destruct (PageRank_total (Rank := Qc) two_workers [[[1%N]; []]; [[0%N]; [0%N]]]
              4%N 2%N) as [ranks [E _]].
  - reflexivity.
  - intros ol t [<-|[<-|[<-|[<-|[]]]]] Ht; simpl in Ht;
      repeat (destruct Ht as [<-|Ht]; [reflexivity|]); destruct Ht.
  - exists ranks. split; [exact E|].
    apply (ranks_stay_within_bounds two_workers [[[1%N]; []]; [[0%N]; [0%N]]]
             4%N 2%N ranks); [reflexivity|exact E].
Defined.

(** ** The ranks of the join variants *)

Section JoinRounds.

Context {Rank : Type} {RA : RankArith Rank}.

Lemma PageRankJoinSelf_succ (ctx : Context) (flag : bool) (links : DIA LinkedPage)
  (iterations : N) :
  PageRankJoinSelf ctx flag links (N.succ iterations)
  = PageRankJoinSelf_iteration ctx flag links
      (PageRankJoinSelf ctx flag links iterations).
Proof. unfold PageRankJoinSelf. rewrite N.iter_succ. reflexivity. Qed.

(** What a round of either join variant returns: one record per page at
    most, and only for pages that a link leads to. *)
Lemma join_round_keys (ctx : Context) (flag : bool) (links : DIA LinkedPage)
  (ranks : DIA (RankedPage Rank)) (g : PageRankStdPair Rank -> RankedPage Rank) :
  (forall c, fst (g c) = fst c) ->
  NoDup (keys (items ctx
           (Map g (ReducePair ctx rk_add
                     (FlatMap join_contributions
                        (InnerJoin ctx flag links ranks
                                   (fun lp : LinkedPage => fst lp)
                                   (fun rp : RankedPage Rank => fst rp)
                                   (fun lp rp => (snd lp, snd rp))))))))
  /\ forall p,
      In p (keys (items ctx
              (Map g (ReducePair ctx rk_add
                        (FlatMap join_contributions
                           (InnerJoin ctx flag links ranks
                                      (fun lp : LinkedPage => fst lp)
                                      (fun rp : RankedPage Rank => fst rp)
                                      (fun lp rp => (snd lp, snd rp)))))))) ->
      exists lp, In lp (items ctx links) /\ In p (snd lp).
Proof.
  intros Hg. split.
  - rewrite items_Map, map_map, (map_ext _ fst Hg).
    apply NoDup_keys_ReducePair.
  - intros p. apply join_round_targets. exact Hg.
Qed.

End JoinRounds.

(** X12. After one iteration or more, either join variant holds at most one
    rank per page, and only for pages that some link of [links] leads to: a
    page that no link leads to has no rank record, whatever rank it started
    with. *)
Theorem join_ranks_only_for_linked_to_pages :
  forall (Rank : Type) (RA : RankArith Rank) (ctx : Context) (flag : bool)
         (links : DIA LinkedPage) (num_pages iterations : N),
    (0 < iterations)%N ->
    (NoDup (keys (items ctx (PageRankJoin ctx flag links num_pages iterations)))
     /\ forall p,
         In p (keys (items ctx (PageRankJoin ctx flag links num_pages iterations))) ->
         exists lp, In lp (items ctx links) /\ In p (snd lp))
    /\ (NoDup (keys (items ctx (PageRankJoinSelf ctx flag links iterations)))
        /\ forall p,
            In p (keys (items ctx (PageRankJoinSelf ctx flag links iterations))) ->
            exists lp, In lp (items ctx links) /\ In p (snd lp)).
Proof.
  intros Rank RA ctx flag links num_pages iterations Hit.
  rewrite <- (N.succ_pred iterations) by lia.
  rewrite PageRankJoin_succ, PageRankJoinSelf_succ. split.
  - apply (join_round_keys ctx flag links _ (dampen_join (rk_of_size num_pages))).
    intros c. reflexivity.
  - apply (join_round_keys ctx flag links _ dampen_self).
    intros c. reflexivity.
Qed.

Lemma join_ranks_only_for_linked_to_pages_witness :
  (NoDup (keys (items two_workers
                  (PageRankJoin (Rank := float) two_workers true scenario_A_linked 4 2)))
   /\ forall p,
       In p (keys (items two_workers
                     (PageRankJoin (Rank := float) two_workers true
                                   scenario_A_linked 4 2))) ->
       exists lp, In lp (items two_workers scenario_A_linked) /\ In p (snd lp))
  /\ (NoDup (keys (items two_workers
                     (PageRankJoinSelf (Rank := float) two_workers true
                                       scenario_A_linked 2)))
      /\ forall p,
          In p (keys (items two_workers
                        (PageRankJoinSelf (Rank := float) two_workers true
                                          scenario_A_linked 2))) ->
          exists lp, In lp (items two_workers scenario_A_linked) /\ In p (snd lp)).
Proof.
  apply (join_ranks_only_for_linked_to_pages float binary64 two_workers true
           scenario_A_linked 4%N 2%N).
  reflexivity.
Defined.

Lemma join_round_without_links {Rank : Type} {RA : RankArith Rank} (ctx : Context)
  (flag : bool) (links : DIA LinkedPage) (ranks : DIA (RankedPage Rank))
  (g : PageRankStdPair Rank -> RankedPage Rank) :
  (forall c, fst (g c) = fst c) ->
  (forall lp, In lp (items ctx links) -> snd lp = []) ->
  items ctx (Map g (ReducePair ctx rk_add
                      (FlatMap join_contributions
                         (InnerJoin ctx flag links ranks
                                    (fun lp : LinkedPage => fst lp)
                                    (fun rp : RankedPage Rank => fst rp)
                                    (fun lp rp => (snd lp, snd rp))))))
  = [].
Proof.
  intros Hg Hno.
  destruct (join_round_keys ctx flag links ranks g Hg) as [_ H].
  revert H. generalize (Map g (ReducePair ctx rk_add
                      (FlatMap join_contributions
                         (InnerJoin ctx flag links ranks
                                    (fun lp : LinkedPage => fst lp)
                                    (fun rp : RankedPage Rank => fst rp)
                                    (fun lp rp => (snd lp, snd rp)))))).
  intros d H. destruct (items ctx d) as [|[p r] l]; [reflexivity|exfalso].
  destruct (H p (or_introl eq_refl)) as [lp [Hlp Hp]].
  rewrite (Hno lp Hlp) in Hp. destruct Hp.
Qed.

(** X13. Without any link the join variants return nothing: when [links]
    is empty, or holds pages without a single outgoing link only, the rank
    collection of [PageRankJoin] and of [PageRankJoinSelf] is empty after
    one iteration or more, where the index-based shape keeps
    [(1 - dampening) / num_pages] for every page. *)
Theorem join_without_links_returns_nothing :
  forall (Rank : Type) (RA : RankArith Rank) (ctx : Context) (flag : bool)
         (links : DIA LinkedPage) (num_pages iterations : N),
    (0 < iterations)%N ->
    (forall lp, In lp (items ctx links) -> snd lp = []) ->
    items ctx (PageRankJoin ctx flag links num_pages iterations) = []
    /\ items ctx (PageRankJoinSelf ctx flag links iterations) = [].
Proof.
  intros Rank RA ctx flag links num_pages iterations Hit Hno.
  rewrite <- (N.succ_pred iterations) by lia.
  rewrite PageRankJoin_succ, PageRankJoinSelf_succ. split.
  - apply (join_round_without_links ctx flag links _
             (dampen_join (rk_of_size num_pages))); [reflexivity|exact Hno].
  - apply (join_round_without_links ctx flag links _ dampen_self);
      [reflexivity|exact Hno].
Qed.

Lemma join_without_links_returns_nothing_witness :
  items two_workers
        (PageRankJoin (Rank := float) two_workers true [[(0%N, [])]; [(1%N, [])]] 2 3)
  = []
  /\ items two_workers
           (PageRankJoinSelf (Rank := float) two_workers true
                             [[(0%N, [])]; [(1%N, [])]] 3)
     = [].
Proof.
  apply (join_without_links_returns_nothing float binary64 two_workers true
           [[(0%N, [])]; [(1%N, [])]] 2%N 3%N).
  - reflexivity.
  - intros lp [<-|[<-|[]]]; reflexivity.
Defined.

Lemma join_local_map_r {A B C : Type} (key1 : A -> PageId) (key2 : B -> PageId)
  (join_function : A -> B -> C) (s : B -> B) (h : C -> C)
  (ls : list A) (rs : list B) :
  (forall r, key2 (s r) = key2 r) ->
  (forall l r, join_function l (s r) = h (join_function l r)) ->
  join_local key1 key2 join_function ls (map s rs)
  = map h (join_local key1 key2 join_function ls rs).
Proof.
  intros Hk Hj. unfold join_local. rewrite map_flat_map_comm.
  apply flat_map_ext. intros l.
  induction rs as [|r rs IH]; [reflexivity|].
  cbn [map flat_map]. rewrite map_app, IH, Hk, Hj.
  destruct (N.eqb (key1 l) (key2 r)); reflexivity.
Qed.

Section ScaledRanks.

Local Open Scope Qc_scope.

Variable ctx : Context.
Variable num_pages : N.

Local Abbreviation scaled := (times_num_pages num_pages).

Lemma spec_contributions_scaled (p : OutgoingLinks * Qc) :
  spec_contributions (Rank := Qc) (fst p, rk_of_size num_pages * snd p)
  = map scaled (spec_contributions p).
Proof.
  unfold spec_contributions. cbn [fst snd]. rewrite map_map.
  apply map_ext. intros t. unfold times_num_pages. cbn [fst snd rk_div rk_mul rational].
  f_equal. unfold Qcdiv. ring.
Qed.

Lemma total_for_scaled (k : PageId) (xs : list (PageId * Qc)) :
  total_for k (map scaled xs) = rk_of_size num_pages * total_for k xs.
Proof.
  unfold total_for. rewrite filter_map_comm, map_map. cbn [times_num_pages fst snd].
  apply Qcsum_map_scale.
Qed.

Lemma keys_scaled (xs : list (PageId * Qc)) : keys (map scaled xs) = keys xs.
Proof. rewrite map_map. reflexivity. Qed.

Lemma contributions_of_scaled_ranks (flag flag' : bool) (links : DIA LinkedPage)
  (ranks : DIA (RankedPage Qc)) :
  Permutation
    (items ctx (FlatMap join_contributions
                  (InnerJoin ctx flag links (Map (times_num_pages num_pages) ranks)
                             (fun lp : LinkedPage => fst lp)
                             (fun rp : RankedPage Qc => fst rp)
                             (fun lp rp => (snd lp, snd rp)))))
    (map scaled
         (items ctx (FlatMap join_contributions
                       (InnerJoin ctx flag' links ranks
                                  (fun lp : LinkedPage => fst lp)
                                  (fun rp : RankedPage Qc => fst rp)
                                  (fun lp rp => (snd lp, snd rp)))))).
Proof.
  eapply Permutation_trans; [apply join_contributions_Permutation|].
  eapply Permutation_trans;
    [|apply Permutation_map, Permutation_sym, join_contributions_Permutation].
  rewrite items_Map.
  rewrite (join_local_map_r _ _ _ (times_num_pages num_pages)
             (fun p : OutgoingLinks * Qc => (fst p, rk_of_size num_pages * snd p)))
    by reflexivity.
  rewrite map_flat_map_comm, flat_map_concat_map, map_map, <- flat_map_concat_map.
  rewrite (flat_map_ext _ _ spec_contributions_scaled).
  apply Permutation_refl.
Qed.

Lemma In_dampened (d : DIA (PageId * Qc)) (g : Qc -> Qc) (p : PageId) (v : Qc) :
  In (p, v) (map (fun c => (fst c, g (snd c))) (items ctx (ReducePair ctx Qcplus d)))
  <-> In p (keys (items ctx d)) /\ v = g (total_for p (items ctx d)).
Proof.
  rewrite In_map_second. split.
  - intros [v0 [H ->]]. apply ReducePair_In in H. destruct H as [Hk ->].
    split; [exact Hk|reflexivity].
  - intros [Hk ->]. exists (total_for p (items ctx d)). split; [|reflexivity].
    apply ReducePair_In. split; [exact Hk|reflexivity].
Qed.

Lemma dampened_scaled (C1 C2 : DIA (PageId * Qc)) :
  (0 < num_pages)%N ->
  Permutation (items ctx C1) (map scaled (items ctx C2)) ->
  Permutation
    (map dampen_self (items ctx (ReducePair ctx Qcplus C1)))
    (map scaled (map (dampen_join (rk_of_size num_pages))
                     (items ctx (ReducePair ctx Qcplus C2)))).
Proof.
  intros Hn HC.
  assert (Hk : rk_of_size (Rank := Qc) num_pages <> 0)
    by (apply rational_of_size_nonzero; lia).
  assert (K : forall p, In p (keys (items ctx C1)) <-> In p (keys (items ctx C2))).
  { intros p. rewrite <- (keys_scaled (items ctx C2)). split; intros H.
    - eapply Permutation_in; [apply Permutation_map, HC|exact H].
    - eapply Permutation_in; [apply Permutation_map, Permutation_sym, HC|exact H]. }
  assert (T : forall p, total_for p (items ctx C1)
                        = rk_of_size num_pages * total_for p (items ctx C2)).
  { intros p. rewrite (total_for_Permutation p _ _ HC). apply total_for_scaled. }
  assert (E : forall t : Qc,
             dampening * (rk_of_size num_pages * t) + (rk1 - dampening)
             = rk_of_size num_pages
               * (dampening * t + (rk1 - dampening) / rk_of_size num_pages))
    by (intros t; field; exact Hk).
  apply NoDup_Permutation.
  - apply (NoDup_map_inv fst). rewrite map_map. apply NoDup_keys_ReducePair.
  - apply (NoDup_map_inv fst). rewrite !map_map. apply NoDup_keys_ReducePair.
  - intros [p v]. rewrite map_map. split; intros H.
    + apply (In_dampened C1 (fun x => dampening * x + (rk1 - dampening)) p v) in H.
      destruct H as [Hin Hv].
      apply (In_dampened C2
               (fun x => rk_of_size num_pages
                         * (dampening * x
                            + (rk1 - dampening) / rk_of_size num_pages)) p v).
      split; [apply K; exact Hin|].
      rewrite Hv, T. apply E.
    + apply (In_dampened C2
               (fun x => rk_of_size num_pages
                         * (dampening * x
                            + (rk1 - dampening) / rk_of_size num_pages)) p v) in H.
      destruct H as [Hin Hv].
      apply (In_dampened C1 (fun x => dampening * x + (rk1 - dampening)) p v).
      split; [apply K; exact Hin|].
      rewrite Hv, T. symmetry. apply E.
Qed.

(** A round of [PageRankJoinSelf] on ranks multiplied by the number of
    pages returns the ranks of the round of [PageRankJoin], multiplied. *)
Lemma scaled_round (flag flag' : bool) (links : DIA LinkedPage)
  (ranks : DIA (RankedPage Qc)) :
  (0 < num_pages)%N ->
  Permutation
    (items ctx (PageRankJoinSelf_iteration ctx flag links (Map scaled ranks)))
    (map scaled (items ctx (PageRankJoin_iteration ctx flag' links num_pages ranks))).
Proof.
  intros Hn.
  unfold PageRankJoinSelf_iteration, PageRankJoin_iteration, Collapse.
  rewrite !items_Map.
  apply dampened_scaled; [exact Hn|].
  apply contributions_of_scaled_ranks.
Qed.

End ScaledRanks.

(** X14. The self-join variant computes the ranks of the join variant
    multiplied by the number of pages: when [links] holds one record for
    each of the pages [0 .. num_pages - 1], then after every number of
    iterations, in exact arithmetic and whatever the location detection
    flags, the rank [PageRankJoinSelf] holds for a page is [num_pages]
    times the rank that [PageRankJoin] holds for it, and the two hold
    ranks for the same pages. *)
Theorem self_join_ranks_are_join_ranks_times_num_pages :
  forall (ctx : Context) (flag flag' : bool) (links : DIA LinkedPage)
         (num_pages iterations : N),
    (0 < num_pages)%N ->
    Permutation (keys (items ctx links)) (indices num_pages) ->
    Permutation
      (items ctx (PageRankJoinSelf (Rank := Qc) ctx flag links iterations))
      (map (times_num_pages num_pages)
           (items ctx (PageRankJoin (Rank := Qc) ctx flag' links num_pages
                                    iterations))).
Proof.
  intros ctx flag flag' links num_pages iterations Hn Hkeys.
  induction iterations as [|k IH] using N.peano_ind.
  - unfold PageRankJoinSelf, PageRankJoin, Collapse. cbn [N.iter].
    rewrite items_Map, items_Generate, map_map.
    rewrite <- (map_map fst (fun i : N => (i, rk1 (Rank := Qc))) (items ctx links)).
    assert (E : map (fun x : N =>
                       times_num_pages num_pages (x, (rk1 / rk_of_size num_pages)%rk))
                    (indices num_pages)
                = map (fun i : N => (i, rk1 (Rank := Qc))) (indices num_pages)).
    { apply map_ext. intros i. unfold times_num_pages. cbn [fst snd]. f_equal.
      cbn [rk_mul rk_div rk1 rational]. field.
      apply rational_of_size_nonzero. lia. }
    rewrite E. apply Permutation_map. exact Hkeys.
  - rewrite PageRankJoinSelf_succ, PageRankJoin_succ.
    eapply Permutation_trans; [|apply (scaled_round ctx num_pages flag flag'); exact Hn].
    apply (join_round_Permutation ctx flag flag links
             (PageRankJoinSelf ctx flag links k)
             (Map (times_num_pages num_pages)
                  (PageRankJoin ctx flag' links num_pages k))
             dampen_self).
    rewrite items_Map. exact IH.
Qed.

Lemma self_join_ranks_are_join_ranks_times_num_pages_witness :
  Permutation
    (items two_workers (PageRankJoinSelf (Rank := Qc) two_workers true
                                         scenario_A_linked 3))
    (map (times_num_pages 4)
         (items two_workers (PageRankJoin (Rank := Qc) two_workers false
                                          scenario_A_linked 4 3))).
Proof.
  apply (self_join_ranks_are_join_ranks_times_num_pages two_workers true false
           scenario_A_linked 4%N 3%N).
  - reflexivity.
  - apply Permutation_refl.
Defined.

(** ** The links built from the input *)

Lemma Permutation_spike {A : Type} (k0 : N) (x : A) (F : N -> list A) (ks : list N) :
  NoDup ks -> In k0 ks ->
  Permutation (flat_map (fun k => (if N.eqb k0 k then [x] else []) ++ F k) ks)
              (x :: flat_map F ks).
Proof.
  intros Hnd. induction Hnd as [|k ks Hk Hnd IH]; intros Hin; [destruct Hin|].
  cbn [flat_map]. destruct (N.eqb_spec k0 k) as [->|Hne].
  - cbn [app]. apply perm_skip. apply Permutation_app_head.
    apply Permutation_flat_map_pointwise. intros j Hj.
    destruct (N.eqb_spec k j) as [->|_]; [contradiction|apply Permutation_refl].
  - destruct Hin as [->|Hin]; [congruence|].
    cbn [app]. eapply Permutation_trans.
    + apply Permutation_app_head, IH, Hin.
    + apply Permutation_sym, Permutation_middle.
Qed.

(** The records taken key by key are the records, when every key is among
    the keys asked for and no key is asked for twice. *)
Lemma Permutation_by_keys {A : Type} (key : A -> N) (ks : list N) (xs : list A) :
  NoDup ks -> (forall x, In x xs -> In (key x) ks) ->
  Permutation (flat_map (fun k => filter (fun x => N.eqb (key x) k) xs) ks) xs.
Proof.
  intros Hnd. induction xs as [|x xs IH]; intros Hin.
  - cbn [filter]. clear Hnd Hin.
    induction ks as [|k ks IHk]; [apply perm_nil|exact IHk].
  - eapply Permutation_trans;
      [|apply perm_skip, IH; intros y Hy; apply Hin; right; exact Hy].
    eapply Permutation_trans;
      [|apply (Permutation_spike (key x) x
                 (fun k => filter (fun y => N.eqb (key y) k) xs) ks Hnd);
        apply Hin; left; reflexivity].
    apply Permutation_flat_map_pointwise. intros k _. cbn [filter].
    destruct (N.eqb (key x) k); apply Permutation_refl.
Qed.

Lemma edges_of_group (k : PageId) (ys : list PagePageLink) :
  map (fun t => {| src := k; tgt := t |})
      (map tgt (filter (fun e => N.eqb (src e) k) ys))
  = filter (fun e => N.eqb (src e) k) ys.
Proof.
  induction ys as [|[a b] ys IH]; [reflexivity|].
  cbn [filter src]. destruct (N.eqb_spec a k) as [->|_]; [|exact IH].
  cbn [map tgt]. rewrite IH. reflexivity.
Qed.

Lemma items_edge_links (ctx : Context) (input : DIA PagePageLink) (num_pages : N)
  (links : DIA OutgoingLinks) :
  edge_links ctx input num_pages = Ok links ->
  (forall e, In e (items ctx input) -> (src e < num_pages)%N)
  /\ items ctx links
     = map (fun i => map tgt (filter (fun e => N.eqb (src e) i) (items ctx input)))
           (indices num_pages).
Proof.
  unfold edge_links, GroupToIndex.
  destruct (forallb _ _) eqn:F; [|discriminate].
  intros E. injection E as <-. split.
  - intros e He. rewrite forallb_forall in F. apply N.ltb_lt, F, He.
  - rewrite items_range_split. apply map_ext. intros i.
    destruct (filter _ _); reflexivity.
Qed.

(** X15. The lists of outgoing links that [RunPageRankEdgePerLine] builds
    with GroupToIndex hold the edges of the input, each edge once and under
    its source page: whenever the grouping returns, there is one list per
    page, the list of page [i] holds the targets of the edges from [i] and
    nothing else, and the lists read back as edges are a permutation of the
    input. *)
Theorem grouped_links_hold_every_edge :
  forall (ctx : Context) (input : DIA PagePageLink) (num_pages : N)
         (links : DIA OutgoingLinks),
    edge_links ctx input num_pages = Ok links ->
    length (items ctx links) = N.to_nat num_pages
    /\ (forall i, (i < num_pages)%N ->
                  Permutation
                    (nth (N.to_nat i) (items ctx links) [])
                    (map tgt (filter (fun e => N.eqb (src e) i) (items ctx input))))
    /\ Permutation (links_as_edges (items ctx links)) (items ctx input).
Proof.
  intros ctx input num_pages links E.
  destruct (items_edge_links ctx input num_pages links E) as [Hin El].
  assert (Hlen : length (items ctx links) = N.to_nat num_pages)
    by (rewrite El, length_map; apply length_indices).
  split; [exact Hlen|]. split.
  - intros i Hi. rewrite El.
    rewrite (nth_indep _ [] (map tgt (filter (fun e => N.eqb (src e) 0)
                                             (items ctx input))))
      by (rewrite length_map, length_indices; lia).
    rewrite (map_nth (fun i => map tgt (filter (fun e => N.eqb (src e) i)
                                               (items ctx input)))).
    unfold indices.
    rewrite (nth_indep _ 0%N (N.of_nat 0)) by (rewrite length_map, length_seq; lia).
    rewrite (map_nth N.of_nat), seq_nth by lia.
    rewrite Nat.add_0_l, N2Nat.id. apply Permutation_refl.
  - unfold links_as_edges, linked_as_edges.
    rewrite Hlen, N2Nat.id, El, combine_map_r, flat_map_concat_map, map_map,
      <- flat_map_concat_map.
    cbn [fst snd].
    rewrite (flat_map_ext _ _ (fun i => edges_of_group i (items ctx input))).
    apply Permutation_by_keys; [apply NoDup_indices|].
    intros e He. apply In_indices, Hin, He.
Qed.

Lemma grouped_links_hold_every_edge_witness :
  exists links,
    edge_links two_workers
               [[{| src := 0; tgt := 1 |}; {| src := 2; tgt := 0 |}];
                [{| src := 0; tgt := 2 |}]]%N 3
    = Ok links
    /\ length (items two_workers links) = N.to_nat 3
    /\ (forall i, (i < 3)%N ->
                  Permutation
                    (nth (N.to_nat i) (items two_workers links) [])
                    (map tgt (filter (fun e => N.eqb (src e) i)
                                     (items two_workers
                                        [[{| src := 0; tgt := 1 |};
                                          {| src := 2; tgt := 0 |}];
                                         [{| src := 0; tgt := 2 |}]]%N))))
    /\ Permutation (links_as_edges (items two_workers links))
                   (items two_workers
                          [[{| src := 0; tgt := 1 |}; {| src := 2; tgt := 0 |}];
                           [{| src := 0; tgt := 2 |}]]%N).
Proof.
  eexists. split; [reflexivity|].
  apply (grouped_links_hold_every_edge two_workers
           [[{| src := 0; tgt := 1 |}; {| src := 2; tgt := 0 |}];
            [{| src := 0; tgt := 2 |}]]%N 3%N).
  reflexivity.
Defined.

Lemma In_distinct (k : PageId) (ks : list PageId) : In k (distinct ks) <-> In k ks.
Proof.
  induction ks as [|k0 ks IH]; [reflexivity|].
  cbn [distinct]. split.
  - intros [->|H]; [left; reflexivity|].
    apply filter_In in H. right. apply IH, H.
  - intros [->|H]; [left; reflexivity|].
    destruct (N.eqb_spec k k0) as [->|Hne]; [left; reflexivity|].
    right. apply filter_In. split; [apply IH, H|].
    apply negb_true_iff, N.eqb_neq. exact Hne.
Qed.

Lemma NoDup_distinct (ks : list PageId) : NoDup (distinct ks).
Proof.
  induction ks as [|k ks IH]; [constructor|].
  cbn [distinct]. constructor.
  - intros H. apply filter_In in H. destruct H as [_ H].
    rewrite N.eqb_refl in H. discriminate H.
  - apply NoDup_filter. exact IH.
Qed.

Lemma items_GroupByKey {A B : Type} (ctx : Context) (key : A -> PageId)
  (group : list A -> PageId -> B) (d : DIA A) :
  items ctx (GroupByKey ctx key group d)
  = flat_map (fun w => group_local key group
                         (filter (fun x => Nat.eqb (dest ctx (key x)) w) (items ctx d)))
             (workers ctx).
Proof.
  unfold GroupByKey, shuffle. rewrite map_map. apply items_map_workers.
Qed.

Lemma items_shuffle_workers {A : Type} (ctx : Context) (key : A -> PageId)
  (xs : list A) :
  Permutation
    (flat_map (fun w => filter (fun x => Nat.eqb (dest ctx (key x)) w) xs)
              (workers ctx))
    xs.
Proof.
  pose proof (items_shuffle ctx key (range_split ctx xs)) as H.
  unfold shuffle in H. rewrite items_map_workers, items_range_split in H.
  exact H.
Qed.

Lemma keys_join_group (ys : list PagePageLink) :
  keys (group_local (fun p => src p) (fun r (pid : PageId) => (pid, map tgt r)) ys)
  = distinct (map src ys).
Proof.
  unfold group_local. rewrite map_map. cbn [fst]. apply map_id.
Qed.

(** X16. The (page, outgoing links) records that
    [RunJoinPageRankEdgePerLine] builds with GroupByKey hold the edges of
    the input, each edge once and under its source page: the records read
    back as edges are a permutation of the input, every page that is the
    source of an edge has exactly one record, and no record has an empty
    list of links. A page that occurs as a target only has no record. *)
Theorem keyed_links_hold_every_edge :
  forall (ctx : Context) (input : DIA PagePageLink),
    Permutation (linked_as_edges (items ctx (join_links ctx input)))
                (items ctx input)
    /\ NoDup (keys (items ctx (join_links ctx input)))
    /\ (forall p, In p (keys (items ctx (join_links ctx input)))
                  <-> In p (map src (items ctx input)))
    /\ (forall lp, In lp (items ctx (join_links ctx input)) -> snd lp <> []).
Proof.
  intros ctx input. unfold join_links. rewrite items_GroupByKey.
  set (share := fun w => filter (fun x : PagePageLink =>
                                   Nat.eqb (dest ctx (src x)) w) (items ctx input)).
  assert (Hkeys : forall w p,
             In p (keys (group_local (fun p => src p)
                                     (fun r (pid : PageId) => (pid, map tgt r))
                                     (share w)))
             <-> In p (map src (items ctx input)) /\ dest ctx p = w).
  { intros w p. rewrite keys_join_group, In_distinct. unfold share.
    rewrite !in_map_iff. split.
    - intros [e [<- He]]. apply filter_In in He. destruct He as [He Hd].
      apply Nat.eqb_eq in Hd. split; [exists e; auto|exact Hd].
    - intros [[e [<- He]] Hd]. exists e. split; [reflexivity|].
      apply filter_In. split; [exact He|]. apply Nat.eqb_eq. exact Hd. }
  split; [|split; [|split]].
  - eapply Permutation_trans; [|apply (items_shuffle_workers ctx (fun e => src e))].
    unfold linked_as_edges. rewrite flat_map_flat_map_comm.
    apply Permutation_flat_map_pointwise. intros w _. fold (share w).
    unfold group_local.
    rewrite flat_map_concat_map, map_map, <- flat_map_concat_map. cbn [fst snd].
    rewrite (flat_map_ext _ _ (fun k => edges_of_group k (share w))).
    apply Permutation_by_keys; [apply NoDup_distinct|].
    intros e He. apply In_distinct, in_map. exact He.
  - rewrite map_flat_map_comm. apply NoDup_flat_map_disjoint.
    + apply workers_NoDup.
    + intros w _. fold (share w). rewrite keys_join_group. apply NoDup_distinct.
    + intros i j p _ _ Hij Hi Hj. fold (share i) in Hi. fold (share j) in Hj.
      apply Hkeys in Hi. apply Hkeys in Hj. destruct Hi as [_ Hi], Hj as [_ Hj].
      congruence.
  - intros p. rewrite map_flat_map_comm, in_flat_map. split.
    + intros [w [_ H]]. fold (share w) in H. apply Hkeys in H. apply H.
    + intros H. exists (dest ctx p). split; [apply dest_In_workers|].
      fold (share (dest ctx p)). apply Hkeys. split; [exact H|reflexivity].
  - intros lp Hlp. apply in_flat_map in Hlp. destruct Hlp as [w [_ Hlp]].
    fold (share w) in Hlp. unfold group_local in Hlp.
    apply in_map_iff in Hlp. destruct Hlp as [k [<- Hk]]. cbn [snd].
    apply In_distinct, in_map_iff in Hk. destruct Hk as [e [Ek He]].
    intros Hnil. apply map_eq_nil in Hnil.
    assert (Hin : In e (filter (fun x => N.eqb (src x) k) (share w))).
    { apply filter_In. split; [exact He|]. apply N.eqb_eq. exact Ek. }
    rewrite Hnil in Hin. destruct Hin.
Qed.

Lemma generate_with_index {S A : Type} (g : S -> A * S) (s : S) (idxs : list N) :
  generate_with (fun st (index : N) => ((index, fst (g st)), snd (g st))) s idxs
  = combine idxs (generate_with (fun st (_ : N) => g st) s idxs).
Proof.
  revert s. induction idxs as [|i idxs IH]; intros s; [reflexivity|].
  cbn [generate_with combine fst snd]. rewrite IH. reflexivity.
Qed.

Lemma combine_app_same {A B : Type} (a a' : list A) (b b' : list B) :
  length a = length b -> combine (a ++ a') (b ++ b') = combine a b ++ combine a' b'.
Proof.
  revert b. induction a as [|x a IH]; intros [|y b] H; simpl in H;
    try discriminate; [reflexivity|].
  cbn [app combine]. rewrite IH by congruence. reflexivity.
Qed.

Lemma combine_flat_map {A B W : Type} (F : W -> list A) (G : W -> list B)
  (ws : list W) :
  (forall w, length (F w) = length (G w)) ->
  flat_map (fun w => combine (F w) (G w)) ws
  = combine (flat_map F ws) (flat_map G ws).
Proof.
  intros H. induction ws as [|w ws IH]; [reflexivity|].
  cbn [flat_map]. rewrite IH. symmetry. apply combine_app_same. apply H.
Qed.

(** X17. The two generated modes build the same graph from the same
    values of the random device: the (page, outgoing links) records of
    [RunPageRankJoinGenerated] are the lists of outgoing links of
    [RunPageRankGenerated], each paired with its index, page 0 first. The
    index passed to the generator function plays no part in the links that
    are drawn. *)
Theorem generated_modes_build_the_same_graph :
  forall (Rank : Type) (EX : Externals Rank) (ctx : Context)
         (random_device : nat -> N) (base_graph_gen : ZipfGraphGen) (num_pages : N),
    items ctx (generated_linked_pages ctx random_device base_graph_gen num_pages)
    = combine (indices num_pages)
              (items ctx (generated_links ctx random_device base_graph_gen
                                          num_pages)).
Proof.
  intros Rank EX ctx random_device base_graph_gen num_pages.
  unfold generated_linked_pages, generated_links, GenerateMutable.
  rewrite !items_map_workers.
  rewrite (flat_map_ext _ _ (fun w => generate_with_index GenerateOutgoing _ _)).
  rewrite (combine_flat_map
             (fun w => local (range_split ctx (indices num_pages)) w)
             (fun w => generate_with (fun st (_ : N) => GenerateOutgoing st)
                         (generated_state random_device base_graph_gen num_pages w)
                         (local (range_split ctx (indices num_pages)) w)))
    by (intros w; symmetry; apply length_generate_with).
  f_equal. apply (items_range_split ctx (indices num_pages)).
Qed.

(** ** Edge cases of the runs *)

Lemma items_nil {A : Type} (ctx : Context) (d : DIA A) :
  (forall l, In l d -> l = []) -> items ctx d = [].
Proof.
  intros H. unfold items. induction (workers ctx) as [|w ws IH]; [reflexivity|].
  cbn [flat_map]. rewrite IH, app_nil_r. unfold local.
  destruct (nth_in_or_default w d []) as [Hin|E]; [apply H, Hin|exact E].
Qed.

Lemma MapDie_no_lines {A B : Type} (f : A -> result B) (d : DIA A) :
  (forall l, In l d -> l = []) ->
  exists d', MapDie f d = Ok d' /\ forall l, In l d' -> l = [].
Proof.
  unfold MapDie. induction d as [|l d IH]; intros H.
  - exists []. split; [reflexivity|]. intros l [].
  - destruct IH as [d' [E Hd']]; [intros l' Hl'; apply H; right; exact Hl'|].
    rewrite (H l (or_introl eq_refl)). exists ([] :: d').
    split; [cbn [map_result bind]; rewrite E; reflexivity|].
    intros l' [<-|Hl']; [reflexivity|apply Hd', Hl'].
Qed.

Lemma PageRankJoinSelf_no_links {Rank : Type} {RA : RankArith Rank} (ctx : Context)
  (flag : bool) (links : DIA LinkedPage) (iterations : N) :
  items ctx links = [] ->
  items ctx (PageRankJoinSelf ctx flag links iterations) = [].
Proof.
  intros El. destruct iterations as [|k] using N.peano_ind.
  - unfold PageRankJoinSelf. cbn [N.iter]. rewrite items_Map, El. reflexivity.
  - rewrite PageRankJoinSelf_succ.
    apply (join_round_without_links ctx flag links _ dampen_self); [reflexivity|].
    rewrite El. intros lp [].
Qed.

Lemma PageRankJoin_no_links {Rank : Type} {RA : RankArith Rank} (ctx : Context)
  (flag : bool) (links : DIA LinkedPage) (iterations : N) :
  items ctx links = [] ->
  items ctx (PageRankJoin ctx flag links 0 iterations) = [].
Proof.
  intros El. destruct iterations as [|k] using N.peano_ind.
  - unfold PageRankJoin, Collapse. cbn [N.iter]. rewrite items_Generate. reflexivity.
  - rewrite PageRankJoin_succ.
    apply (join_round_without_links ctx flag links _ (dampen_join (rk_of_size 0)));
      [reflexivity|].
    rewrite El. intros lp [].
Qed.

(** X18. [RunJoinPageRankEdgePerLine] on an input without a single line
    does not fail: with an output path it writes no line at all, whatever
    the number of iterations and however many workers hold the (empty)
    input. *)
Theorem join_run_without_lines_writes_nothing :
  forall (Rank : Type) (RA : RankArith Rank) (EX : Externals Rank) (ctx : Context)
         (lines : DIA string) (output_path : string) (iterations : N),
    (forall l, In l lines -> l = []) ->
    output_path <> EmptyString ->
    exists written,
      RunJoinPageRankEdgePerLine ctx lines output_path iterations
      = Ok (Some written)
      /\ items ctx written = [].
Proof.
  intros Rank RA EX ctx lines output_path iterations Hno Hout.
  destruct (MapDie_no_lines PageRankLineParser lines Hno) as [input [Ep Hin]].
  pose proof (items_nil ctx input Hin) as Ei.
  unfold RunJoinPageRankEdgePerLine.
  rewrite Ep, (output_path_given _ Hout). cbn [bind].
  eexists. split; [reflexivity|].
  rewrite items_Map, PageRankJoinSelf_no_links; [reflexivity|].
  unfold join_links. rewrite items_GroupByKey, Ei.
  induction (workers ctx) as [|w ws IH]; [reflexivity|exact IH].
Qed.

Lemma join_run_without_lines_writes_nothing_witness :
  exists written,
    RunJoinPageRankEdgePerLine (EX := libc_externals) two_workers [[]; []] "out" 3
    = Ok (Some written)
    /\ items two_workers written = [].
Proof.
  apply (join_run_without_lines_writes_nothing float binary64 libc_externals
           two_workers [[]; []] "out" 3%N).
  - intros l [<-|[<-|[]]]; reflexivity.
  - discriminate.
Defined.

Lemma map_result_Ok_inv {A B : Type} (f : A -> result B) (l : list A) (l' : list B)
  (y : B) :
  map_result f l = Ok l' -> In y l' -> exists x, In x l /\ f x = Ok y.
Proof.
  revert l'. induction l as [|x l IH]; intros l'; simpl.
  - intros E. injection E as <-. intros [].
  - destruct (f x) as [b|e] eqn:Ex; [|discriminate]. cbn [bind].
    destruct (map_result f l) as [bs|e]; [|discriminate]. cbn [bind].
    intros E. injection E as <-. intros [<-|Hy].
    + exists x. split; [left; reflexivity|exact Ex].
    + destruct (IH bs eq_refl Hy) as [x' [Hx' E']].
      exists x'. split; [right; exact Hx'|exact E'].
Qed.

Lemma map_result_Die_inv {A B : Type} (f : A -> result B) (l : list A) (e : Fatal) :
  map_result f l = Die e -> exists x, In x l /\ f x = Die e.
Proof.
  induction l as [|x l IH]; simpl; [discriminate|].
  destruct (f x) as [b|e0] eqn:Ex; cbn [bind].
  - destruct (map_result f l) as [bs|e1]; cbn [bind]; [discriminate|].
    intros E. injection E as <-. destruct (IH eq_refl) as [x' [Hx' E']].
    exists x'. split; [right; exact Hx'|exact E'].
  - intros E. injection E as <-. exists x. split; [left; reflexivity|exact Ex].
Qed.

Lemma In_items {A : Type} (ctx : Context) (d : DIA A) (x : A) :
  In x (items ctx d) -> exists l, In l d /\ In x l.
Proof.
  unfold items. intros H. apply in_flat_map in H. destruct H as [w [_ H]].
  unfold local in H. destruct (nth_in_or_default w d []) as [Hin|E].
  - exists (nth w d []). split; assumption.
  - rewrite E in H. destruct H.
Qed.

Lemma parsed_input_fits (ctx : Context) (lines : DIA string)
  (input : DIA PagePageLink) (x : PagePageLink) :
  MapDie PageRankLineParser lines = Ok input ->
  In x (items ctx input) ->
  (src x <= SIZE_MAX)%N /\ (tgt x <= SIZE_MAX)%N.
Proof.
  intros Ep Hx. apply In_items in Hx. destruct Hx as [l [Hl Hx]].
  destruct (map_result_Ok_inv _ _ _ l Ep Hl) as [ls [_ El]].
  destruct (map_result_Ok_inv _ _ _ x El Hx) as [line [_ E]].
  apply (PageRankLineParser_le line x E).
Qed.

Lemma MapDie_Die_inv (lines : DIA string) (e : Fatal) :
  MapDie PageRankLineParser lines = Die e ->
  e = InputFormatError
  /\ exists ls l, In ls lines /\ In l ls /\ PageRankLineParser l = Die e.
Proof.
  intros E. apply map_result_Die_inv in E. destruct E as [ls [Hls E]].
  apply map_result_Die_inv in E. destruct E as [l [Hl E]].
  split; [apply (PageRankLineParser_error l e E)|].
  exists ls, l. auto.
Qed.

Lemma fold_left_max_attained (l : list N) (a : N) :
  fold_left N.max l a = a \/ In (fold_left N.max l a) l.
Proof.
  revert a. induction l as [|x l IH]; intros a; simpl; [left; reflexivity|].
  destruct (IH (N.max a x)) as [E|H]; [|right; right; exact H].
  rewrite E. destruct (N.max_spec a x) as [[_ ->]|[_ ->]]; auto.
Qed.

(** X19. The two ways a file-based run fails. [RunJoinPageRankEdgePerLine]
    fails on a line that does not parse and on nothing else.
    [RunPageRankEdgePerLine] fails on such a line, with the input format
    error, or with the key range error when a parsed page id is 2^64 - 1,
    the one value for which [Max() + 1] wraps around; the sizes that Zip
    compares never differ in it, and no other fatal error occurs. *)
Theorem file_runs_fail_in_two_ways :
  forall (Rank : Type) (RA : RankArith Rank) (EX : Externals Rank) (ctx : Context)
         (lines : DIA string) (output_path : string) (iterations : N) (e : Fatal),
    (RunPageRankEdgePerLine ctx lines output_path iterations = Die e ->
     (e = InputFormatError
      /\ exists ls l, In ls lines /\ In l ls /\ PageRankLineParser l = Die e)
     \/ (e = KeyRangeViolation
         /\ exists input x,
             MapDie PageRankLineParser lines = Ok input
             /\ In x (items ctx input)
             /\ (src x = SIZE_MAX \/ tgt x = SIZE_MAX)))
    /\ (RunJoinPageRankEdgePerLine ctx lines output_path iterations = Die e ->
        e = InputFormatError
        /\ exists ls l, In ls lines /\ In l ls /\ PageRankLineParser l = Die e).
Proof.
  intros Rank RA EX ctx lines output_path iterations e. split.
  - unfold RunPageRankEdgePerLine.
    destruct (MapDie PageRankLineParser lines) as [input|e0] eqn:Ep; cbn [bind].
    + intros E. right.
      destruct (N.lt_ge_cases
                  (Max ctx (Map (fun ppl => N.max (src ppl) (tgt ppl)) input))
                  SIZE_MAX) as [HM|HM].
      * exfalso.
        destruct (edge_input_in_range ctx input HM)
          as [_ [_ [links [El [Hlen Hin]]]]].
        destruct (PageRank_total ctx links (edge_num_pages ctx input) iterations
                                 Hlen Hin) as [ranks [Er _]].
        rewrite El in E. cbn [bind] in E. rewrite Er in E. cbn [bind] in E.
        destruct (Nat.eqb (String.length output_path) 0); discriminate E.
      * unfold Max in HM. rewrite items_Map in HM.
        destruct (fold_left_max_attained
                    (map (fun ppl => N.max (src ppl) (tgt ppl)) (items ctx input))
                    0%N) as [E0|Hat].
        { rewrite E0 in HM. unfold SIZE_MAX in HM. lia. }
        apply in_map_iff in Hat. destruct Hat as [x [Ex Hx]].
        destruct (parsed_input_fits ctx lines input x Ep Hx) as [Hs Ht].
        assert (Hmax : N.max (src x) (tgt x) = SIZE_MAX) by lia.
        assert (Hbad : src x = SIZE_MAX \/ tgt x = SIZE_MAX) by lia.
        assert (Hall : forall y, In y (items ctx input) ->
                                 (N.max (src y) (tgt y) <= SIZE_MAX)%N).
        { intros y Hy. destruct (parsed_input_fits ctx lines input y Ep Hy). lia. }
        assert (En : edge_num_pages ctx input = 0%N).
        { unfold edge_num_pages, Max. rewrite items_Map.
          assert (EM : fold_left N.max
                         (map (fun ppl => N.max (src ppl) (tgt ppl))
                              (items ctx input)) 0%N = SIZE_MAX).
          { apply N.le_antisymm; [|exact HM].
            destruct (fold_left_max_attained
                        (map (fun ppl => N.max (src ppl) (tgt ppl))
                             (items ctx input)) 0%N) as [->|Hat'].
            - unfold SIZE_MAX. lia.
            - apply in_map_iff in Hat'. destruct Hat' as [y [<- Hy]].
              apply Hall, Hy. }
          rewrite EM. reflexivity. }
        rewrite En in E.
        assert (El : edge_links ctx input 0 = Die KeyRangeViolation).
        { unfold edge_links, GroupToIndex.
          destruct (forallb _ _) eqn:F; [|reflexivity].
          rewrite forallb_forall in F. specialize (F x Hx).
          apply N.ltb_lt in F. lia. }
        rewrite El in E. cbn [bind] in E. injection E as <-.
        split; [reflexivity|]. exists input, x. auto.
    + intros E. injection E as <-. left. apply MapDie_Die_inv. exact Ep.
  - unfold RunJoinPageRankEdgePerLine.
    destruct (MapDie PageRankLineParser lines) as [input|e0] eqn:Ep; cbn [bind].
    + destruct (Nat.eqb (String.length output_path) 0); discriminate.
    + intros E. injection E as <-. apply MapDie_Die_inv. exact Ep.
Qed.

(** X20. For a page count of 0 the generated modes run through and write
    no line: no rank is created, and the division by the page count is
    never evaluated. *)
Theorem zero_pages_write_nothing :
  forall (Rank : Type) (RA : RankArith Rank) (EX : Externals Rank) (ctx : Context)
         (random_device : nat -> N) (input_path : string)
         (base_graph_gen : ZipfGraphGen) (output_path : string) (iterations : N),
    from_str input_path = Some 0%N ->
    output_path <> EmptyString ->
    (exists written,
        RunPageRankGenerated ctx random_device input_path base_graph_gen
                             output_path iterations = Ok (Some written)
        /\ items ctx written = [])
    /\ (exists written,
           RunPageRankJoinGenerated ctx random_device input_path base_graph_gen
                                    output_path iterations = Ok (Some written)
           /\ items ctx written = []).
Proof.
  intros Rank RA EX ctx random_device input_path base_graph_gen output_path
         iterations Hn Hout.
  unfold RunPageRankGenerated, RunPageRankJoinGenerated.
  rewrite Hn, (output_path_given _ Hout). split.
  - assert (El : items ctx (generated_links ctx random_device base_graph_gen 0) = []).
    { apply length_zero_iff_nil. unfold generated_links.
      apply (length_GenerateMutable ctx 0). }
    destruct (PageRank_total ctx (generated_links ctx random_device base_graph_gen 0)
                             0%N iterations) as [ranks [Er Hr]].
    { rewrite El. reflexivity. }
    { rewrite El. intros ol t []. }
    rewrite Er. cbn [bind]. eexists. split; [reflexivity|].
    apply length_zero_iff_nil in Hr. rewrite items_ZipWithIndex, Hr. reflexivity.
  - eexists. split; [reflexivity|].
    rewrite items_Map, PageRankJoin_no_links; [reflexivity|].
    apply length_zero_iff_nil. unfold generated_linked_pages.
    apply (length_GenerateMutable ctx 0).
Qed.

Lemma zero_pages_write_nothing_witness :
  (exists written,
      RunPageRankGenerated (Rank := float) two_workers (fun _ => 7%N) "0" 1%N "out" 2
      = Ok (Some written)
      /\ items two_workers written = [])
  /\ (exists written,
         RunPageRankJoinGenerated (Rank := float) two_workers (fun _ => 7%N) "0" 1%N
                                  "out" 2
         = Ok (Some written)
         /\ items two_workers written = []).
Proof.
  apply (zero_pages_write_nothing float binary64 sample_externals two_workers
           (fun _ => 7%N) "0" 1%N "out" 2%N).
  - reflexivity.
  - discriminate.
Defined.

Lemma file_runs_fail_in_two_ways_witness :
  ((InputFormatError = InputFormatError
    /\ exists ls l, In ls [["0 1"; "1,0"]]%string /\ In l ls
                    /\ PageRankLineParser l = Die InputFormatError)
   \/ (InputFormatError = KeyRangeViolation
       /\ exists input x,
           MapDie PageRankLineParser [["0 1"; "1,0"]]%string = Ok input
           /\ In x (items one_worker input)
           /\ (src x = SIZE_MAX \/ tgt x = SIZE_MAX)))
  /\ (InputFormatError = InputFormatError
      /\ exists ls l, In ls [["0 1"; "1,0"]]%string /\ In l ls
                      /\ PageRankLineParser l = Die InputFormatError).
Proof.
  destruct (file_runs_fail_in_two_ways float binary64 sample_externals one_worker
              [["0 1"; "1,0"]]%string "out"%string 2%N InputFormatError)
    as [H1 H2].
  split; [apply H1|apply H2]; vm_compute; reflexivity.
Defined.

(** ** Printed records *)

Local Open Scope string_scope.

Lemma all_digits_string_of_uint (u : Decimal.uint) :
  all_digits (NilEmpty.string_of_uint u) = true.
Proof.
  induction u as [|u IH|u IH|u IH|u IH|u IH|u IH|u IH|u IH|u IH|u IH];
    [reflexivity|..]; cbn [NilEmpty.string_of_uint all_digits]; rewrite IH;
    reflexivity.
Qed.

Lemma all_digits_size (n : N) : all_digits (to_string_size n) = true.
Proof.
  destruct (to_string_size_numeral n) as [E _]. rewrite E.
  apply all_digits_string_of_uint.
Qed.

Lemma to_string_size_inj (a b : N) : to_string_size a = to_string_size b -> a = b.
Proof.
  intros E. unfold to_string_size in E.
  apply DecimalN.Unsigned.to_uint_inj.
  assert (Ha : N.to_uint a <> Decimal.Nil) by apply to_string_size_numeral.
  assert (Hb : N.to_uint b <> Decimal.Nil) by apply to_string_size_numeral.
  pose proof (NilZero.usu _ Ha) as Ua. pose proof (NilZero.usu _ Hb) as Ub.
  rewrite E in Ua. congruence.
Qed.

(** Digits that end at a character that is no digit end there. *)
Lemma digits_delimited (s s' : string) (c c' : ascii) (r r' : string) :
  all_digits s = true -> all_digits s' = true ->
  is_digit c = false -> is_digit c' = false ->
  s ++ String c r = s' ++ String c' r' -> s = s' /\ c = c' /\ r = r'.
Proof.
  revert s'. induction s as [|d t IH]; intros [|d' t'] Hs Hs' Hc Hc' E;
    cbn [append] in E.
  - injection E as -> ->. auto.
  - injection E as -> _. simpl in Hs'. rewrite Hc in Hs'. discriminate Hs'.
  - injection E as <- _. simpl in Hs. rewrite Hc' in Hs. discriminate Hs.
  - injection E as -> E. simpl in Hs, Hs'.
    apply andb_true_iff in Hs. apply andb_true_iff in Hs'.
    destruct (IH t' (proj2 Hs) (proj2 Hs') Hc Hc' E) as [-> [-> ->]]. auto.
Qed.

Lemma size_delimited (a b : N) (c c' : ascii) (r r' : string) :
  is_digit c = false -> is_digit c' = false ->
  to_string_size a ++ String c r = to_string_size b ++ String c' r' ->
  a = b /\ c = c' /\ r = r'.
Proof.
  intros Hc Hc' E.
  destruct (digits_delimited _ _ c c' r r' (all_digits_size a) (all_digits_size b)
                             Hc Hc' E) as [Es [Ec Er]].
  split; [apply to_string_size_inj, Es|auto].
Qed.

(** X21. What is printed names its page. The stream output of a
    [PagePageLink] determines the link, the stream output of a
    [PageRankPair] determines its page, and a line written by
    [RunPageRankEdgePerLine] or a join mode determines the page id it was
    written for, however the rank is formatted. *)
Theorem printed_records_name_their_page :
  forall (Rank : Type) (RA : RankArith Rank) (EX : Externals Rank),
    (forall a b : PagePageLink,
        print_PagePageLink a = print_PagePageLink b -> a = b)
    /\ (forall a b : PageRankPair Rank,
           print_PageRankPair a = print_PageRankPair b -> page a = page b)
    /\ (forall (p p' : PageId) (r r' : Rank),
           ssprintf_zu_g p r = ssprintf_zu_g p' r' -> p = p').
Proof.
  intros Rank RA EX. split; [|split].
  - intros [a1 a2] [b1 b2]. unfold print_PagePageLink. cbn [src tgt append].
    intros E. injection E as E.
    destruct (size_delimited a1 b1 ">" ">" _ _ eq_refl eq_refl E) as [-> [_ E']].
    destruct (size_delimited a2 b2 ")" ")" _ _ eq_refl eq_refl E') as [-> _].
    reflexivity.
  - intros a b. unfold print_PageRankPair. cbn [append].
    intros E. injection E as E.
    apply (size_delimited (page a) (page b) "|" "|" _ _ eq_refl eq_refl E).
  - intros p p' r r'. unfold ssprintf_zu_g. cbn [append]. intros E.
    apply (size_delimited p p' ":" ":" _ _ eq_refl eq_refl E).
Qed.

Lemma printed_records_name_their_page_witness :
  {| src := 12%N; tgt := 3%N |} = {| src := 12%N; tgt := 3%N |}.
Proof.
  apply (proj1 (printed_records_name_their_page float binary64 sample_externals)).
  reflexivity.
Defined.

Local Close Scope string_scope.

(** ** A page that no link leads to *)

Lemma nth_indices (n i : N) : (i < n)%N -> nth (N.to_nat i) (indices n) 0%N = i.
Proof.
  intros Hi. unfold indices.
  rewrite (nth_indep _ 0%N (N.of_nat 0)) by (rewrite length_map, length_seq; lia).
  rewrite (map_nth N.of_nat), seq_nth by lia.
  rewrite Nat.add_0_l. apply N2Nat.id.
Qed.

Lemma values_of_absent {V : Type} (k : PageId) (cs : list (PageId * V)) :
  ~ In k (keys cs) -> values_of k cs = [].
Proof.
  intros H. destruct (values_of k cs) as [|v vs] eqn:E; [reflexivity|exfalso].
  apply H, values_of_nonempty. rewrite E. discriminate.
Qed.

(** X23. A page that no link leads to has the same rank after every
    round, in every arithmetic: whenever [PageRank] returns after one
    iteration or more, the rank at the index of such a page is
    [dampening * 0 + (1 - dampening) / num_pages], whatever the ranks
    before were. *)
Theorem page_without_incoming_link_keeps_the_least_rank :
  forall (Rank : Type) (RA : RankArith Rank) (ctx : Context)
         (links : DIA OutgoingLinks) (num_pages iterations : N)
         (ranks : DIA Rank) (i : PageId) (default : Rank),
    (0 < iterations)%N ->
    (i < num_pages)%N ->
    (forall ol, In ol (items ctx links) -> ~ In i ol) ->
    PageRank ctx links num_pages iterations = Ok ranks ->
    nth (N.to_nat i) (items ctx ranks) default = newRank num_pages rk0.
Proof.
  intros Rank RA ctx links num_pages iterations ranks i default Hit Hi Hno E.
  rewrite <- (N.succ_pred iterations) in E by lia.
  rewrite PageRank_succ in E.
  destruct (PageRank ctx links num_pages (N.pred iterations)) as [prev|e];
    [|discriminate].
  cbn [bind] in E. rewrite (PageRank_iteration_spec _ _ _ _ _ E).
  unfold spec_round.
  rewrite (nth_indep _ default
             ((fun i0 => newRank num_pages
                           (rawTotal (flat_map spec_contributions
                                        (combine (items ctx links) (items ctx prev)))
                                     i0)) 0%N))
    by (rewrite length_map, length_indices; lia).
  rewrite (map_nth (fun i0 => newRank num_pages
                                (rawTotal (flat_map spec_contributions
                                             (combine (items ctx links)
                                                      (items ctx prev))) i0))).
  change (@nth PageId) with (@nth N). rewrite (nth_indices num_pages i Hi). f_equal.
  unfold rawTotal. rewrite values_of_absent; [reflexivity|].
  intros Hk. apply in_map_iff in Hk. destruct Hk as [[t v] [Et Hc]].
  cbn [fst] in Et. subst t.
  apply in_flat_map in Hc. destruct Hc as [[ol r] [Hp Hc]].
  unfold spec_contributions in Hc. cbn [fst snd] in Hc.
  apply in_map_iff in Hc. destruct Hc as [t [Et Ht]]. injection Et as -> _.
  apply (Hno ol); [|exact Ht]. eapply in_combine_l. exact Hp.
Qed.

Lemma page_without_incoming_link_keeps_the_least_rank_witness :
  exists ranks,
    PageRank (Rank := float) two_workers scenario_A_links 4 3 = Ok ranks
    /\ nth (N.to_nat 3) (items two_workers ranks) 0%float = newRank 4 rk0.
Proof.
  destruct (PageRank (Rank := float) two_workers scenario_A_links 4 3)
    as [ranks|e] eqn:E; [|vm_compute in E; discriminate E].
  exists ranks. split; [reflexivity|].
  apply (page_without_incoming_link_keeps_the_least_rank float binary64 two_workers
           scenario_A_links 4%N 3%N ranks 3%N 0%float).
  - reflexivity.
  - reflexivity.
  - intros ol [<-|[<-|[<-|[<-|[]]]]] [H|[]]; discriminate H.
  - exact E.
Defined.


(** ** The links a worker draws *)

Lemma generate_with_prefix {S A : Type} (g : S -> A * S) (s : S) (idxs idxs' : list N)
  (k : nat) (default : A) :
  k < length idxs -> k < length idxs' ->
  nth k (generate_with (fun st (_ : N) => g st) s idxs) default
  = nth k (generate_with (fun st (_ : N) => g st) s idxs') default.
Proof.
  revert s idxs idxs'. induction k as [|k IH]; intros s [|i idxs] [|i' idxs'] H H';
    simpl in H, H'; try lia; cbn [generate_with nth]; [reflexivity|].
  apply IH; lia.
Qed.

(** X24. In the generated modes a worker's links depend on the state of
    its own engine only, not on the indices it is asked for: two workers
    whose engines start from the same value of the random device draw the
    same list of links for their first page, the same for their second
    page, and so on for as many pages as both hold. *)
Theorem workers_with_equal_seeds_draw_the_same_links :
  forall (Rank : Type) (EX : Externals Rank) (ctx : Context)
         (random_device : nat -> N) (base_graph_gen : ZipfGraphGen) (num_pages : N)
         (w w' k : nat),
    In w (workers ctx) -> In w' (workers ctx) ->
    random_device w = random_device w' ->
    k < length (local (generated_links ctx random_device base_graph_gen num_pages) w) ->
    k < length (local (generated_links ctx random_device base_graph_gen num_pages) w') ->
    nth k (local (generated_links ctx random_device base_graph_gen num_pages) w) []
    = nth k (local (generated_links ctx random_device base_graph_gen num_pages) w') [].
Proof.
  intros Rank EX ctx random_device base_graph_gen num_pages w w' k Hw Hw' Hrd.
  unfold generated_links, GenerateMutable.
  rewrite !local_map_workers by assumption.
  rewrite !length_generate_with. intros Hk Hk'.
  unfold generated_state. rewrite Hrd.
  apply generate_with_prefix; assumption.
Qed.

Lemma workers_with_equal_seeds_draw_the_same_links_witness :
  nth 0 (local (generated_links (EX := sample_externals) two_workers
                                (fun _ => 7%N) 1%N 4) 0) []
  = nth 0 (local (generated_links (EX := sample_externals) two_workers
                                  (fun _ => 7%N) 1%N 4) 1) [].
Proof.
  apply (workers_with_equal_seeds_draw_the_same_links float sample_externals
           two_workers (fun _ => 7%N) 1%N 4%N 0 1 0).
  - left. reflexivity.
  - right. left. reflexivity.
  - reflexivity.
  - vm_compute. lia.
  - vm_compute. lia.
Defined.

(** ** A round is a contraction *)

Ltac qc_order :=
  unfold Qcle, Qclt, Qcminus, Qcplus, Qcmult, Qcopp in *;
  cbn [this Q2Qc] in *;
  repeat (rewrite Qred_correct in * );
  try lra; try nra.

Section Distance.

Local Open Scope Qc_scope.

Lemma Qcabs_nonneg (x : Qc) : 0 <= Qcabs x.
Proof. unfold Qcabs. destruct (Qclt_le_dec x 0) as [H|H]; qc_order. Qed.

Lemma Qcabs_weighted (a1 a2 s1 s2 t w : Qc) :
  0 <= w -> Qcabs (s1 - s2) <= t ->
  Qcabs ((a1 * w + s1) - (a2 * w + s2)) <= Qcabs (a1 - a2) * w + t.
Proof.
  intros Hw. unfold Qcabs.
  destruct (Qclt_le_dec ((a1 * w + s1) - (a2 * w + s2)) 0) as [H|H];
    destruct (Qclt_le_dec (a1 - a2) 0) as [Ha|Ha];
    destruct (Qclt_le_dec (s1 - s2) 0) as [Hs|Hs]; intros Ht; qc_order.
Qed.

Lemma Qcabs_affine (d f x y t : Qc) :
  0 <= d -> Qcabs (x - y) <= t ->
  Qcabs ((d * x + f) - (d * y + f)) <= d * t.
Proof.
  intros Hd. unfold Qcabs.
  destruct (Qclt_le_dec ((d * x + f) - (d * y + f)) 0) as [H|H];
    destruct (Qclt_le_dec (x - y) 0) as [Hx|Hx]; intros Ht; qc_order.
Qed.

Lemma Qcmult_le_l (d x y : Qc) : 0 <= d -> x <= y -> d * x <= d * y.
Proof. intros Hd H. qc_order. Qed.

Lemma Qcsum_map_le {A : Type} (f g : A -> Qc) (l : list A) :
  (forall x, In x l -> f x <= g x) -> Qcsum (map f l) <= Qcsum (map g l).
Proof.
  induction l as [|x l IH]; intros H; simpl; [apply Qcle_refl|].
  apply Qcplus_le_compat; [apply H; left; reflexivity|].
  apply IH. intros y Hy. apply H. right. exact Hy.
Qed.

Lemma values_of_app {V : Type} (i : PageId) (a b : list (PageId * V)) :
  values_of i (a ++ b) = values_of i a ++ values_of i b.
Proof. unfold values_of. rewrite filter_app, map_app. reflexivity. Qed.

Lemma values_of_flat_map {A V : Type} (i : PageId) (F : A -> list (PageId * V))
  (l : list A) :
  values_of i (flat_map F l) = flat_map (fun a => values_of i (F a)) l.
Proof.
  induction l as [|a l IH]; [reflexivity|].
  cbn [flat_map]. rewrite values_of_app, IH. reflexivity.
Qed.

Lemma Qcsum_cons (x : Qc) (l : list Qc) : Qcsum (x :: l) = x + Qcsum l.
Proof. reflexivity. Qed.

Lemma Qcsum_values_scaled (i : PageId) (a c : Qc) (ol : list PageId) :
  Qcsum (values_of i (map (fun t => (t, a * c)) ol))
  = a * Qcsum (values_of i (map (fun t => (t, c)) ol)).
Proof.
  induction ol as [|t ol IH]; [cbn; ring|].
  unfold values_of in *. cbn [map filter fst].
  destruct (N.eqb t i); cbn [map snd].
  - rewrite !Qcsum_cons, IH. ring.
  - exact IH.
Qed.

Lemma contribution_weight (i : PageId) (ol : OutgoingLinks) (a : Qc) :
  Qcsum (values_of i (spec_contributions (Rank := Qc) (ol, a)))
  = a * link_weight i ol.
Proof.
  unfold link_weight, spec_contributions. cbn [fst snd rk_div rational].
  unfold Qcdiv. rewrite Qcsum_values_scaled.
  rewrite (Qcsum_values_scaled i 1). ring.
Qed.

Lemma link_weight_nonneg (i : PageId) (ol : OutgoingLinks) : 0 <= link_weight i ol.
Proof.
  unfold link_weight. apply Qcsum_nonneg. intros v Hv.
  unfold values_of in Hv. apply in_map_iff in Hv. destruct Hv as [c [<- Hc]].
  apply filter_In in Hc. destruct Hc as [Hc _].
  apply (contributions_nonneg [ol] [Q2Qc 1] c).
  - intros r [<-|[]]. qc_order.
  - cbn [combine flat_map]. rewrite app_nil_r. exact Hc.
Qed.

(** What page [i] receives in a round: the ranks weighted by the shares. *)
Lemma rawTotal_weighted (links : list OutgoingLinks) (ranks : list Qc) (i : PageId) :
  rawTotal (Rank := Qc) (flat_map spec_contributions (combine links ranks)) i
  = Qcsum (map (fun p => snd p * link_weight i (fst p)) (combine links ranks)).
Proof.
  rewrite rawTotal_exact, values_of_flat_map, Qcsum_flat_map.
  f_equal. apply map_ext. intros [ol a]. apply contribution_weight.
Qed.

Lemma weighted_difference (w : OutgoingLinks -> Qc) (links : list OutgoingLinks)
  (r1 r2 : list Qc) :
  (forall ol, 0 <= w ol) ->
  length r1 = length links -> length r2 = length links ->
  Qcabs (Qcsum (map (fun p => snd p * w (fst p)) (combine links r1))
         - Qcsum (map (fun p => snd p * w (fst p)) (combine links r2)))
  <= Qcsum (map (fun p => snd p * w (fst p))
                (combine links (rank_differences r1 r2))).
Proof.
  intros Hw. revert r1 r2.
  induction links as [|ol links IH]; intros [|a1 r1] [|a2 r2] H1 H2;
    simpl in H1, H2; try discriminate H1; try discriminate H2.
  - change (Qcabs (0 - 0) <= 0). unfold Qcabs.
    destruct (Qclt_le_dec (0 - 0) 0) as [H|H]; qc_order.
  - cbn [combine map rank_differences Qcsum fold_right fst snd].
    apply Qcabs_weighted; [apply Hw|].
    apply IH; congruence.
Qed.
End Distance.

Section Contraction.

Local Open Scope Qc_scope.

Lemma combine_map_map {A B C : Type} (f : A -> B) (g : A -> C) (l : list A) :
  combine (map f l) (map g l) = map (fun x => (f x, g x)) l.
Proof. induction l as [|x l IH]; simpl; [reflexivity|]. rewrite IH. reflexivity. Qed.

Lemma keys_contributions (links : list OutgoingLinks) (ranks : list Qc) :
  length ranks = length links ->
  keys (flat_map (spec_contributions (Rank := Qc)) (combine links ranks))
  = concat links.
Proof.
  revert ranks. induction links as [|ol links IH]; intros [|a ranks] H;
    simpl in H; try discriminate H; [reflexivity|].
  cbn [combine flat_map concat]. rewrite map_app, IH by congruence.
  f_equal. unfold spec_contributions. cbn [fst snd]. rewrite map_map.
  apply map_id.
Qed.

Lemma length_rank_differences (r1 r2 : list Qc) :
  length r1 = length r2 -> length (rank_differences r1 r2) = length r1.
Proof.
  intros H. unfold rank_differences. rewrite length_map, length_combine, H.
  apply Nat.min_id.
Qed.

Lemma rank_differences_nonneg (r1 r2 : list Qc) (x : Qc) :
  In x (rank_differences r1 r2) -> 0 <= x.
Proof.
  unfold rank_differences. intros H. apply in_map_iff in H.
  destruct H as [p [<- _]]. apply Qcabs_nonneg.
Qed.

(** A round brings two rank vectors closer together by the factor
    [dampening]. *)
Lemma spec_round_contracts (links : list OutgoingLinks) (num_pages : N)
  (r1 r2 : list Qc) :
  length r1 = length links -> length r2 = length links ->
  (forall c, In c (flat_map (spec_contributions (Rank := Qc)) (combine links r1)) ->
             (fst c < num_pages)%N) ->
  rank_distance (spec_round links num_pages r1) (spec_round links num_pages r2)
  <= dampening * rank_distance r1 r2.
Proof.
  intros H1 H2 Hkeys.
  set (D := rank_differences r1 r2).
  assert (HD : length D = length links)
    by (unfold D; rewrite length_rank_differences; congruence).
  assert (HkeysD : forall c,
             In c (flat_map (spec_contributions (Rank := Qc)) (combine links D)) ->
             (fst c < num_pages)%N).
  { intros c Hc.
    assert (Hk : In (fst c) (keys (flat_map (spec_contributions (Rank := Qc))
                                            (combine links D))))
      by (apply in_map; exact Hc).
    rewrite (keys_contributions links D HD),
      <- (keys_contributions links r1 H1) in Hk.
    apply in_map_iff in Hk. destruct Hk as [c' [E Hc']]. rewrite <- E.
    apply Hkeys, Hc'. }
  unfold rank_distance at 1. unfold rank_differences, spec_round.
  rewrite combine_map_map, map_map. cbn [fst snd].
  eapply Qcle_trans.
  - apply (Qcsum_map_le _
             (fun i => dampening
                       * rawTotal (Rank := Qc)
                           (flat_map spec_contributions (combine links D)) i)).
    intros i _. unfold newRank. cbn [rk_add rk_mul rational].
    apply Qcabs_affine; [apply dampening_bounds|].
    rewrite !rawTotal_weighted.
    apply (weighted_difference (link_weight i) links r1 r2);
      [apply link_weight_nonneg|exact H1|exact H2].
  - rewrite Qcsum_map_scale. apply Qcmult_le_l; [apply dampening_bounds|].
    rewrite (map_ext _ (fun i => Qcsum (map snd
               (filter (fun c => N.eqb (fst c) i)
                       (flat_map (spec_contributions (Rank := Qc))
                                 (combine links D))))))
      by (intros i; apply rawTotal_exact).
    rewrite Qcsum_by_index by exact HkeysD.
    rewrite Qcsum_passed_on.
    apply (linked_mass_le links D); [congruence|].
    intros x Hx. apply (rank_differences_nonneg r1 r2 x Hx).
Qed.

End Contraction.

Lemma PageRank_iteration_contracts (ctx : Context) (links : DIA OutgoingLinks)
  (num_pages : N) (ranks1 ranks2 ranks1' ranks2' : DIA Qc) :
  PageRank_iteration ctx links num_pages ranks1 = Ok ranks1' ->
  PageRank_iteration ctx links num_pages ranks2 = Ok ranks2' ->
  (rank_distance (items ctx ranks1') (items ctx ranks2')
   <= dampening * rank_distance (items ctx ranks1) (items ctx ranks2))%Qc.
Proof.
  intros E1 E2.
  destruct (PageRank_iteration_keys ctx links num_pages ranks1 ranks1' E1)
    as [L1 K1].
  destruct (PageRank_iteration_keys ctx links num_pages ranks2 ranks2' E2)
    as [L2 _].
  rewrite (PageRank_iteration_spec _ _ _ _ _ E1),
    (PageRank_iteration_spec _ _ _ _ _ E2).
  apply spec_round_contracts; [congruence|congruence|exact K1].
Qed.

(** X25. A round of the index-based shape is a contraction in exact
    arithmetic: run on two rank vectors over the same links, it returns
    ranks whose L1 distance is at most [dampening] = 0.85 times the distance
    of the vectors it was given. So from one iteration of [PageRank] to the
    next the ranks move by at most 0.85 times what they moved the iteration
    before. *)
Theorem round_contracts_by_dampening :
  forall (ctx : Context) (links : DIA OutgoingLinks) (num_pages : N),
    (forall ranks1 ranks2 ranks1' ranks2' : DIA Qc,
        PageRank_iteration ctx links num_pages ranks1 = Ok ranks1' ->
        PageRank_iteration ctx links num_pages ranks2 = Ok ranks2' ->
        (rank_distance (items ctx ranks1') (items ctx ranks2')
         <= dampening * rank_distance (items ctx ranks1) (items ctx ranks2))%Qc)
    /\ (forall (iterations : N) (a b c : DIA Qc),
           PageRank ctx links num_pages iterations = Ok a ->
           PageRank ctx links num_pages (N.succ iterations) = Ok b ->
           PageRank ctx links num_pages (N.succ (N.succ iterations)) = Ok c ->
           (rank_distance (items ctx c) (items ctx b)
            <= dampening * rank_distance (items ctx b) (items ctx a))%Qc).
Proof.
  intros ctx links num_pages.
  split; [apply PageRank_iteration_contracts|].
  intros iterations a b c Ea Eb Ec.
  rewrite PageRank_succ, Eb in Ec. cbn [bind] in Ec.
  rewrite PageRank_succ, Ea in Eb. cbn [bind] in Eb.
  apply (PageRank_iteration_contracts ctx links num_pages b a c b Ec Eb).
Qed.

Lemma round_contracts_by_dampening_witness :
  exists a b c,
    PageRank (Rank := Qc) two_workers scenario_A_links 4 0 = Ok a
    /\ PageRank (Rank := Qc) two_workers scenario_A_links 4 1 = Ok b
    /\ PageRank (Rank := Qc) two_workers scenario_A_links 4 2 = Ok c
    /\ (rank_distance (items two_workers c) (items two_workers b)
        <= dampening * rank_distance (items two_workers b) (items two_workers a))%Qc.
Proof.
  destruct (PageRank_total (Rank := Qc) two_workers scenario_A_links 4%N 0%N)
    as [a [Ea _]]; [reflexivity| |].
  { intros ol t [<-|[<-|[<-|[<-|[]]]]] [<-|[]]; reflexivity. }
  destruct (PageRank_total (Rank := Qc) two_workers scenario_A_links 4%N 1%N)
    as [b [Eb _]]; [reflexivity| |].
  { intros ol t [<-|[<-|[<-|[<-|[]]]]] [<-|[]]; reflexivity. }
  destruct (PageRank_total (Rank := Qc) two_workers scenario_A_links 4%N 2%N)
    as [c [Ec _]]; [reflexivity| |].
  { intros ol t [<-|[<-|[<-|[<-|[]]]]] [<-|[]]; reflexivity. }
  exists a, b, c. split; [exact Ea|]. split; [exact Eb|]. split; [exact Ec|].
  apply (proj2 (round_contracts_by_dampening two_workers scenario_A_links 4%N)
               0%N a b c Ea Eb Ec).
Defined.

(** X26. The iterations of [PageRank] settle at a geometric rate in exact
    arithmetic: the ranks after [k + 1] iterations differ from the ranks
    after [k] iterations by at most [dampening ^ k] times the L1 distance
    between the ranks after the first iteration and the initial ranks. *)
Theorem iterations_settle_geometrically :
  forall (ctx : Context) (links : DIA OutgoingLinks) (num_pages k : N)
         (r0 r1 a b : DIA Qc),
    PageRank ctx links num_pages 0 = Ok r0 ->
    PageRank ctx links num_pages 1 = Ok r1 ->
    PageRank ctx links num_pages k = Ok a ->
    PageRank ctx links num_pages (N.succ k) = Ok b ->
    (rank_distance (items ctx b) (items ctx a)
     <= Qcpower dampening (N.to_nat k)
        * rank_distance (items ctx r1) (items ctx r0))%Qc.
Proof.
  intros ctx links num_pages k r0 r1 a b E0 E1. revert a b.
  induction k as [|k IH] using N.peano_ind; intros a b Ea Eb.
  - change (N.succ 0) with 1%N in Eb.
    assert (a = r0) by congruence. assert (b = r1) by congruence. subst a b.
    cbn [N.to_nat Qcpower].
    replace (1 * rank_distance (items ctx r1) (items ctx r0))%Qc
      with (rank_distance (items ctx r1) (items ctx r0)) by ring.
    apply Qcle_refl.
  - pose proof Ea as Ea'. rewrite PageRank_succ in Ea'.
    destruct (PageRank ctx links num_pages k) as [prev|e] eqn:Ep;
      [|discriminate Ea'].
    cbn [bind] in Ea'.
    pose proof Eb as Eb'. rewrite PageRank_succ, Ea in Eb'. cbn [bind] in Eb'.
    eapply Qcle_trans;
      [apply (PageRank_iteration_contracts ctx links num_pages a prev b a Eb' Ea')|].
    rewrite N2Nat.inj_succ. cbn [Qcpower].
    rewrite <- Qcmult_assoc.
    apply Qcmult_le_l; [apply dampening_bounds|].
    apply (IH prev a eq_refl Ea).
Qed.

Lemma iterations_settle_geometrically_witness :
  exists r0 r1 a b,
    PageRank (Rank := Qc) two_workers scenario_A_links 4 0 = Ok r0
    /\ PageRank (Rank := Qc) two_workers scenario_A_links 4 1 = Ok r1
    /\ PageRank (Rank := Qc) two_workers scenario_A_links 4 2 = Ok a
    /\ PageRank (Rank := Qc) two_workers scenario_A_links 4 (N.succ 2) = Ok b
    /\ (rank_distance (items two_workers b) (items two_workers a)
        <= Qcpower dampening (N.to_nat 2)
           * rank_distance (items two_workers r1) (items two_workers r0))%Qc.
Proof.
  assert (Hin : forall ol t, In ol (items two_workers scenario_A_links) -> In t ol ->
                             (t < 4)%N)
    by (intros ol t [<-|[<-|[<-|[<-|[]]]]] [<-|[]]; reflexivity).
  destruct (PageRank_total (Rank := Qc) two_workers scenario_A_links 4%N 0%N
                           eq_refl Hin) as [r0 [E0 _]].
  destruct (PageRank_total (Rank := Qc) two_workers scenario_A_links 4%N 1%N
                           eq_refl Hin) as [r1 [E1 _]].
  destruct (PageRank_total (Rank := Qc) two_workers scenario_A_links 4%N 2%N
                           eq_refl Hin) as [a [Ea _]].
  destruct (PageRank_total (Rank := Qc) two_workers scenario_A_links 4%N (N.succ 2)
                           eq_refl Hin) as [b [Eb _]].
  exists r0, r1, a, b.
  split; [exact E0|]. split; [exact E1|]. split; [exact Ea|]. split; [exact Eb|].
  apply (iterations_settle_geometrically two_workers scenario_A_links 4%N 2%N
           r0 r1 a b E0 E1 Ea Eb).
Defined.
